(** * Rule similarity core: canonical text, neighbour report, clusters

    A shallow embedding of [rule_similarity_core.py] and of the duplicate
    filter of [app.py].  Python values are a tagged union, Python text is
    a list of Unicode code points, Python exceptions are an explicit
    outcome.  The parts of the Python standard library the code calls
    ([json.loads], [json.dumps], [str], [" ".join]) are written out; the
    numeric libraries are taken through their documented contracts. *)

From Stdlib Require Import String Ascii List ZArith NArith Lia Bool.
From Stdlib Require Import Permutation Sorted DecimalZ DecimalFacts.
From Stdlib Require Import QArith Qround.
From Stdlib Require Import Relation_Definitions Relation_Operators.
Import ListNotations.

Close Scope Q_scope.
Open Scope Z_scope.

(** ** Python text *)

Module PyText.

(** A Python [str] is a sequence of code points. *)
#[warnings="-notation-for-abbreviation"]
Notation char := N (only parsing).
#[warnings="-notation-for-abbreviation"]
Notation str := (list N) (only parsing).

Definition ch (a : ascii) : char := N_of_ascii a.

(** The double quote and the backslash. *)
Definition dquote : char := 34%N.
Definition bslash : char := 92%N.

(** The text of an ASCII literal. *)
Definition u (s : string) : str := map N_of_ascii (list_ascii_of_string s).

(** [sep.join(parts)] *)
Fixpoint join (sep : str) (parts : list str) : str :=
  match parts with
  | [] => []
  | [p] => p
  | p :: rest => p ++ sep ++ join sep rest
  end.

Definition str_eqb (a b : str) : bool :=
  if list_eq_dec N.eq_dec a b then true else false.

Definition is_digit (c : char) : bool := ((48 <=? c) && (c <=? 57))%N.

Definition digit_char (d : Z) : char := Z.to_N (48 + d).

(** Decimal digits, as Python's [int.__repr__] prints them. *)
Fixpoint uint_chars (d : Decimal.uint) : str :=
  match d with
  | Decimal.Nil => []
  | Decimal.D0 r => 48%N :: uint_chars r
  | Decimal.D1 r => 49%N :: uint_chars r
  | Decimal.D2 r => 50%N :: uint_chars r
  | Decimal.D3 r => 51%N :: uint_chars r
  | Decimal.D4 r => 52%N :: uint_chars r
  | Decimal.D5 r => 53%N :: uint_chars r
  | Decimal.D6 r => 54%N :: uint_chars r
  | Decimal.D7 r => 55%N :: uint_chars r
  | Decimal.D8 r => 56%N :: uint_chars r
  | Decimal.D9 r => 57%N :: uint_chars r
  end.

Definition abs_uint (z : Z) : Decimal.uint :=
  match Z.to_int z with Decimal.Pos d | Decimal.Neg d => d end.

Definition int_repr (z : Z) : str :=
  match Z.to_int z with
  | Decimal.Pos d => uint_chars d
  | Decimal.Neg d => ch "-" :: uint_chars d
  end.

End PyText.
Import PyText.

(** ** Python floats (IEEE binary64) *)

Module PyFloat.

(** A binary64 value; a finite non-zero one is [m * 2^e] with
    [m < 2^53], [-1074 <= e] and [2^52 <= m] unless [e = -1074]. *)
Inductive t :=
| nan
| inf (neg : bool)
| zero (neg : bool)
| finite (neg : bool) (m : positive) (e : Z).

Definition eqb (a b : t) : bool :=
  match a, b with
  | nan, nan => true
  | inf s, inf s' | zero s, zero s' => Bool.eqb s s'
  | finite s m e, finite s' m' e' => Bool.eqb s s' && Pos.eqb m m' && Z.eqb e e'
  | _, _ => false
  end.

(** The binary64 nearest to the positive rational [n / d], ties to even. *)
Definition round_rat (neg : bool) (n d : Z) : t :=
  let quo e := if 0 <=? e then n / (d * 2 ^ e) else (n * 2 ^ (- e)) / d in
  let e0 := Z.log2 n - Z.log2 d - 52 in
  let e1 := if quo e0 <? 2 ^ 52 then e0 - 1 else e0 in
  let e := Z.max e1 (-1074) in
  let sn := if 0 <=? e then n else n * 2 ^ (- e) in
  let sd := if 0 <=? e then d * 2 ^ e else d in
  let q := sn / sd in
  let r := sn mod sd in
  let q' := if (sd <? 2 * r) || ((sd =? 2 * r) && Z.odd q) then q + 1 else q in
  let m := if q' =? 2 ^ 53 then 2 ^ 52 else q' in
  let e' := if q' =? 2 ^ 53 then e + 1 else e in
  if m =? 0 then zero neg
  else if 1023 <? e' + 52 then inf neg
  else finite neg (Z.to_pos m) e'.

(** [float(literal)] for a literal with digits [digs] (integer and
    fraction part together, [nd] of them) scaled by [10^e10]. *)
Definition of_decimal (neg : bool) (digs : Z) (nd : Z) (e10 : Z) : t :=
  if digs =? 0 then zero neg
  else if 400 <? e10 then inf neg
  else if e10 + nd <? -400 then zero neg
  else if 0 <=? e10 then round_rat neg (digs * 10 ^ e10) 1
  else round_rat neg digs (10 ^ (- e10)).

(** The shortest decimal that reads back as [m * 2^e], as digits and the
    power of ten of the last digit; of two candidates that both read back
    the nearer one, and the even one when they are equally near. *)
Definition ge_pow10 (n d k : Z) : bool :=
  if 0 <=? k then 10 ^ k * d <=? n else d <=? n * 10 ^ (- k).

Definition floor_log10 (n d : Z) : Z :=
  let ke := ((Z.log2 n - Z.log2 d) * 30103) / 100000 in
  if ge_pow10 n d (ke + 2) then ke + 2
  else if ge_pow10 n d (ke + 1) then ke + 1
  else if ge_pow10 n d ke then ke
  else if ge_pow10 n d (ke - 1) then ke - 1
  else ke - 2.

Definition reads_back (m : positive) (e : Z) (c s : Z) : bool :=
  eqb (if 0 <=? s then round_rat false c (10 ^ s)
       else round_rat false (c * 10 ^ (- s)) 1)
      (finite false m e).

Fixpoint shortest (fuel : nat) (m : positive) (e : Z) (n d k p : Z) : Z * Z :=
  let s := p - 1 - k in
  let sn := if 0 <=? s then n * 10 ^ s else n in
  let sd := if 0 <=? s then d else d * 10 ^ (- s) in
  let lo := sn / sd in
  let r := sn mod sd in
  let ok_lo := reads_back m e lo s in
  let ok_hi := reads_back m e (lo + 1) s in
  let up := (sd <? 2 * r) || ((sd =? 2 * r) && Z.odd lo) in
  match fuel with
  | O => (if up then lo + 1 else lo, s)
  | S fuel' =>
      if ok_lo && (negb ok_hi || negb up) then (lo, s)
      else if ok_hi then (lo + 1, s)
      else shortest fuel' m e n d k (p + 1)
  end.

Fixpoint strip_zeros (fuel : nat) (c s : Z) : Z * Z :=
  match fuel with
  | O => (c, s)
  | S fuel' => if (c mod 10 =? 0) && negb (c =? 0)
               then strip_zeros fuel' (c / 10) (s - 1) else (c, s)
  end.

Definition zeros (k : Z) : str := repeat 48%N (Z.to_nat k).

(** [float.__repr__] (and [str] of a float). *)
Definition repr (x : t) : str :=
  match x with
  | nan => u "nan"
  | inf false => u "inf"
  | inf true => u "-inf"
  | zero false => u "0.0"
  | zero true => u "-0.0"
  | finite neg m e =>
      let n := if 0 <=? e then Z.pos m * 2 ^ e else Z.pos m in
      let d := if 0 <=? e then 1 else 2 ^ (- e) in
      let k := floor_log10 n d in
      let '(c0, s0) := shortest 16 m e n d k 1 in
      let '(c, s) := strip_zeros 20 c0 s0 in
      let ds := uint_chars (abs_uint c) in
      let nd := Z.of_nat (length ds) in
      let decpt := nd - s in
      let body :=
        if (decpt <=? -4) || (16 <? decpt) then
          let x10 := decpt - 1 in
          let mant := match ds with
                      | [] => []
                      | [a] => [a]
                      | a :: rest => a :: ch "." :: rest
                      end in
          let ex := uint_chars (abs_uint x10) in
          mant ++ ch "e" :: (if x10 <? 0 then ch "-" else ch "+")
               :: (if Z.abs x10 <? 10 then 48%N :: ex else ex)
        else if decpt <=? 0 then u "0." ++ zeros (- decpt) ++ ds
        else if nd <=? decpt then ds ++ zeros (decpt - nd) ++ u ".0"
        else firstn (Z.to_nat decpt) ds ++ ch "." :: skipn (Z.to_nat decpt) ds
      in if neg then ch "-" :: body else body
  end.

(** The value in units of [2^-1074], in which every finite binary64 is
    an integer. *)
Definition scaled (x : t) : Z :=
  match x with
  | finite neg m e => (if neg then -1 else 1) * (Z.pos m * 2 ^ (e + 1074))
  | _ => 0
  end.

(** The order numpy sorts floats by: ascending, NaN last. *)
Definition leb (x y : t) : bool :=
  match x, y with
  | _, nan => true
  | nan, _ => false
  | inf true, _ => true
  | _, inf true => false
  | _, inf false => true
  | inf false, _ => false
  | _, _ => scaled x <=? scaled y
  end.

(** At most 2 in absolute value (and so neither infinite nor NaN). *)
Definition small (x : t) : bool :=
  match x with
  | finite _ m e => Z.pos m * 2 ^ (e + 1074) <=? 2 * 2 ^ 1074
  | zero _ => true
  | _ => false
  end.

(** The integer nearest to [n / d], ties to the even one. *)
Definition rhe (n d : Z) : Z :=
  let q := n / d in
  let r := n mod d in
  if (d <? 2 * r) || ((d =? 2 * r) && Z.odd q) then q + 1 else q.

(** The binary64 nearest to [z / 1000]. *)
Definition thousandths (neg : bool) (z : Z) : t :=
  if z =? 0 then zero neg else round_rat neg z 1000.

(** [round(x, 3)] on a float: the decimal with three places nearest to
    the exact value of [x], ties to even, and then the binary64 nearest
    to that decimal. *)
Definition round3 (x : t) : t :=
  match x with
  | finite neg m e =>
      thousandths neg (rhe (Z.pos m * 2 ^ (e + 1074) * 1000) (2 ^ 1074))
  | _ => x
  end.

Definition is_finite (x : t) : bool :=
  match x with
  | finite _ _ _ | zero _ => true
  | _ => false
  end.

(** The value of the float [z / 1000]. *)
Definition thousandth_value (z : Z) : Z := scaled (thousandths false z).

End PyFloat.

(** ** Python values and exceptions *)

(** The JSON-like values a rule body can be: [None], [bool], [int],
    [float], [str], [list], and [dict] with text keys in insertion order. *)
#[warnings="-register-all"]
Inductive pyval :=
| PNone
| PBool (b : bool)
| PInt (z : Z)
| PFloat (x : PyFloat.t)
| PStr (s : str)
| PList (l : list pyval)
| PDict (d : list (str * pyval)).

Inductive exn :=
| JSONDecodeError
| KeyError
| ValueError
| TypeError
| AttributeError
| RecursionError.

(** What a call does: it returns a value or raises. *)
Inductive outcome (A : Type) :=
| Return (a : A)
| Raise (e : exn).
Arguments Return {A} a.
Arguments Raise {A} e.

(** [str(x)] for a scalar [x]. *)
Definition py_str (x : pyval) : str :=
  match x with
  | PNone => u "None"
  | PBool true => u "True"
  | PBool false => u "False"
  | PInt z => int_repr z
  | PFloat f => PyFloat.repr f
  | PStr s => s
  | PList _ | PDict _ => []
  end.

(** [d[k] = v] on a dict: an existing key keeps its place. *)
Fixpoint dict_set (d : list (str * pyval)) (k : str) (v : pyval)
  : list (str * pyval) :=
  match d with
  | [] => [(k, v)]
  | (k', v') :: rest =>
      if str_eqb k' k then (k', v) :: rest else (k', v') :: dict_set rest k v
  end.

(** ** [json.loads] *)

Module Json.

Definition is_ws (c : char) : bool :=
  ((c =? ch " ") || (c =? 9) || (c =? 10) || (c =? 13))%N.

Fixpoint skip_ws (s : str) : str :=
  match s with
  | c :: r => if is_ws c then skip_ws r else s
  | [] => []
  end.

Fixpoint strip_prefix (p s : str) : option str :=
  match p, s with
  | [], _ => Some s
  | a :: p', b :: s' => if (a =? b)%N then strip_prefix p' s' else None
  | _ :: _, [] => None
  end.

Definition hex_val (c : char) : option N :=
  (if (48 <=? c) && (c <=? 57) then Some (c - 48)
   else if (97 <=? c) && (c <=? 102) then Some (c - 87)
   else if (65 <=? c) && (c <=? 70) then Some (c - 55)
   else None)%N.

Definition hex4 (a b c d : char) : option N :=
  match hex_val a, hex_val b, hex_val c, hex_val d with
  | Some x, Some y, Some z, Some w => Some (((x * 16 + y) * 16 + z) * 16 + w)%N
  | _, _, _, _ => None
  end.

Definition is_high_surrogate (c : N) : bool := ((55296 <=? c) && (c <=? 56319))%N.
Definition is_low_surrogate (c : N) : bool := ((56320 <=? c) && (c <=? 57343))%N.

Definition join_surrogates (hi lo : N) : N :=
  (65536 + (N.lor (N.shiftl (hi - 55296) 10) (lo - 56320)))%N.

Definition unescape (e : char) : option char :=
  (if e =? dquote then Some e
   else if e =? bslash then Some e
   else if e =? ch "/" then Some e
   else if e =? ch "b" then Some 8
   else if e =? ch "f" then Some 12
   else if e =? ch "n" then Some 10
   else if e =? ch "r" then Some 13
   else if e =? ch "t" then Some 9
   else None)%N.

Definition consc (c : char) (r : option (str * str)) : option (str * str) :=
  match r with
  | Some (t, rest) => Some (c :: t, rest)
  | None => None
  end.

(** [scanstring] in strict mode, from just after the opening quote: the
    decoded text and the input after the closing quote. *)
Fixpoint scanstring (s : str) : option (str * str) :=
  match s with
  | [] => None
  | c :: r =>
      if (c =? dquote)%N then Some ([], r)
      else if (c =? bslash)%N then
        match r with
        | [] => None
        | e :: r1 =>
            if (e =? ch "u")%N then
              match r1 with
              | h1 :: h2 :: h3 :: h4 :: r2 =>
                  match hex4 h1 h2 h3 h4 with
                  | None => None
                  | Some c1 =>
                      match r2 with
                      | [] => None
                      | b :: u' :: g1 :: g2 :: g3 :: g4 :: r3 =>
                          if is_high_surrogate c1 && (b =? bslash)%N
                             && (u' =? ch "u")%N
                             && negb (Nat.eqb (List.length r3) 0)
                          then
                            match hex4 g1 g2 g3 g4 with
                            | None => None
                            | Some c2 =>
                                if is_low_surrogate c2
                                then consc (join_surrogates c1 c2)
                                           (scanstring r3)
                                else consc c1 (scanstring r2)
                            end
                          else consc c1 (scanstring r2)
                      | _ => consc c1 (scanstring r2)
                      end
                  end
              | _ => None
              end
            else
              match unescape e with
              | Some c' => consc c' (scanstring r1)
              | None => None
              end
        end
      else if (c <=? 31)%N then None
      else consc c (scanstring r)
  end.

Definition digit_of (c : char) : option (Decimal.uint -> Decimal.uint) :=
  (if c =? 48 then Some Decimal.D0 else if c =? 49 then Some Decimal.D1
   else if c =? 50 then Some Decimal.D2 else if c =? 51 then Some Decimal.D3
   else if c =? 52 then Some Decimal.D4 else if c =? 53 then Some Decimal.D5
   else if c =? 54 then Some Decimal.D6 else if c =? 55 then Some Decimal.D7
   else if c =? 56 then Some Decimal.D8 else if c =? 57 then Some Decimal.D9
   else None)%N.

(** The longest run of digits at the head of [s], and what follows. *)
Fixpoint scan_uint (s : str) : Decimal.uint * str :=
  match s with
  | [] => (Decimal.Nil, [])
  | c :: r =>
      match digit_of c with
      | Some D => let (d, rest) := scan_uint r in (D d, rest)
      | None => (Decimal.Nil, s)
      end
  end.

Definition uint_len (d : Decimal.uint) : Z := Z.of_nat (Decimal.nb_digits d).

(** Integer part: a lone [0], or a run of digits starting with [1-9]. *)
Definition scan_int_part (s : str) : option (Decimal.uint * str) :=
  match s with
  | [] => None
  | c :: r =>
      if (c =? 48)%N then Some (Decimal.D0 Decimal.Nil, r)
      else match scan_uint s with
           | (Decimal.Nil, _) => None
           | (d, rest) => Some (d, rest)
           end
  end.

(** Fraction part: [.] followed by at least one digit. *)
Definition scan_frac (s : str) : Decimal.uint * str :=
  match s with
  | dot :: r =>
      if (dot =? ch ".")%N then
        match scan_uint r with
        | (Decimal.Nil, _) => (Decimal.Nil, s)
        | (d, rest) => (d, rest)
        end
      else (Decimal.Nil, s)
  | [] => (Decimal.Nil, s)
  end.

(** Exponent part: [e] or [E], an optional sign, at least one digit. *)
Definition scan_exp (s : str) : option Z * str :=
  match s with
  | e :: r =>
      if ((e =? ch "e") || (e =? ch "E"))%N then
        let '(neg, r') :=
          match r with
          | sg :: r2 => if (sg =? ch "-")%N then (true, r2)
                        else if (sg =? ch "+")%N then (false, r2)
                        else (false, r)
          | [] => (false, r)
          end in
        match scan_uint r' with
        | (Decimal.Nil, _) => (None, s)
        | (d, rest) => (Some (if neg then - Z.of_uint d else Z.of_uint d), rest)
        end
      else (None, s)
  | [] => (None, s)
  end.

(** A JSON number at the head of [s]: [int] without fraction and
    exponent, [float] otherwise. *)
Definition match_number (s : str) : option (pyval * str) :=
  let '(neg, s1) :=
    match s with
    | c :: r => if (c =? ch "-")%N then (true, r) else (false, s)
    | [] => (false, s)
    end in
  match scan_int_part s1 with
  | None => None
  | Some (ip, s2) =>
      let '(fp, s3) := scan_frac s2 in
      let '(ex, s4) := scan_exp s3 in
      match fp, ex with
      | Decimal.Nil, None =>
          Some (PInt (if neg then - Z.of_uint ip else Z.of_uint ip), s4)
      | _, _ =>
          let e10 := match ex with Some e => e | None => 0 end in
          Some (PFloat (PyFloat.of_decimal neg
                          (Z.of_uint (Decimal.app ip fp))
                          (uint_len ip + uint_len fp)
                          (e10 - uint_len fp)), s4)
      end
  end.

(** A constant spelled out at the head of the input. *)
Definition literal (s : str) : option (pyval * str) :=
  match strip_prefix (u "null") s with
  | Some r => Some (PNone, r)
  | None =>
  match strip_prefix (u "true") s with
  | Some r => Some (PBool true, r)
  | None =>
  match strip_prefix (u "false") s with
  | Some r => Some (PBool false, r)
  | None =>
  match strip_prefix (u "NaN") s with
  | Some r => Some (PFloat PyFloat.nan, r)
  | None =>
  match strip_prefix (u "Infinity") s with
  | Some r => Some (PFloat (PyFloat.inf false), r)
  | None =>
  match strip_prefix (u "-Infinity") s with
  | Some r => Some (PFloat (PyFloat.inf true), r)
  | None => None
  end end end end end end.

(** [scan_once]: one JSON term at the head of [s].  [None] is the
    scanner's failure ([StopIteration] or [JSONDecodeError]). *)
Fixpoint scan_once (fuel : nat) (s : str) : option (pyval * str) :=
  match fuel with
  | O => None
  | S f =>
      match s with
      | [] => None
      | c :: r =>
          if (c =? dquote)%N then
            match scanstring r with
            | Some (t, rest) => Some (PStr t, rest)
            | None => None
            end
          else if (c =? ch "{")%N then
            match skip_ws r with
            | [] => None
            | c' :: r' =>
                if (c' =? ch "}")%N then Some (PDict [], r')
                else match parse_members f (c' :: r') [] with
                     | Some (d, rest) => Some (PDict d, rest)
                     | None => None
                     end
            end
          else if (c =? ch "[")%N then
            match skip_ws r with
            | [] => None
            | c' :: r' =>
                if (c' =? ch "]")%N then Some (PList [], r')
                else match parse_elems f (c' :: r') with
                     | Some (l, rest) => Some (PList l, rest)
                     | None => None
                     end
            end
          else
            match literal s with
            | Some res => Some res
            | None => match_number s
            end
      end
  end

(** The elements of a non-empty array, up to and including [\]]. *)
with parse_elems (fuel : nat) (s : str) : option (list pyval * str) :=
  match fuel with
  | O => None
  | S f =>
      match scan_once f s with
      | None => None
      | Some (v, r) =>
          match skip_ws r with
          | [] => None
          | c :: r' =>
              if (c =? ch "]")%N then Some ([v], r')
              else if (c =? ch ",")%N then
                match parse_elems f (skip_ws r') with
                | Some (vs, rest) => Some (v :: vs, rest)
                | None => None
                end
              else None
          end
      end
  end

(** The members of a non-empty object, added to [acc], up to and
    including [}]. *)
with parse_members (fuel : nat) (s : str) (acc : list (str * pyval))
  : option (list (str * pyval) * str) :=
  match fuel with
  | O => None
  | S f =>
      match s with
      | [] => None
      | q :: r =>
          if (q =? dquote)%N then
            match scanstring r with
            | None => None
            | Some (k, r1) =>
                match skip_ws r1 with
                | [] => None
                | colon :: r2 =>
                    if (colon =? ch ":")%N then
                      match scan_once f (skip_ws r2) with
                      | None => None
                      | Some (v, r3) =>
                          let acc' := dict_set acc k v in
                          match skip_ws r3 with
                          | [] => None
                          | c :: r4 =>
                              if (c =? ch "}")%N then Some (acc', r4)
                              else if (c =? ch ",")%N
                              then parse_members f (skip_ws r4) acc'
                              else None
                          end
                      end
                    else None
                end
            end
          else None
      end
  end.

(** [JSONDecoder.decode]: leading white space, one term, trailing white
    space, end of input. *)
Definition decode (s : str) : option pyval :=
  match scan_once (2 * List.length s + 2) (skip_ws s) with
  | Some (v, rest) =>
      match skip_ws rest with
      | [] => Some v
      | _ :: _ => None
      end
  | None => None
  end.

Definition loads (s : str) : outcome pyval :=
  match decode s with
  | Some v => Return v
  | None => Raise JSONDecodeError
  end.

End Json.

(** ** [json.dumps] with its default settings *)

Module JsonEnc.

Definition hex_digit (n : N) : char :=
  (if n <? 10 then 48 + n else 87 + n)%N.

(** [{:04x}] of a value below [0x10000]. *)
Definition hex4_chars (n : N) : str :=
  [hex_digit (n / 4096 mod 16); hex_digit (n / 256 mod 16);
   hex_digit (n / 16 mod 16); hex_digit (n mod 16)]%N.

Definition uescape (n : N) : str := bslash :: ch "u" :: hex4_chars n.

(** One character of [encode_basestring_ascii]. *)
Definition escape_char (c : char) : str :=
  (if c =? dquote then [bslash; dquote]
   else if c =? bslash then [bslash; bslash]
   else if c =? 10 then u "\n"
   else if c =? 13 then u "\r"
   else if c =? 9 then u "\t"
   else if c =? 8 then u "\b"
   else if c =? 12 then u "\f"
   else if (32 <=? c) && (c <=? 126) then [c]
   else if c <? 65536 then uescape c
   else
     let n := c - 65536 in
     uescape (N.lor 55296 (N.land (N.shiftr n 10) 1023))
       ++ uescape (N.lor 56320 (N.land n 1023)))%N.

Definition encode_str (s : str) : str :=
  dquote :: flat_map escape_char s ++ [dquote].

Definition float_str (x : PyFloat.t) : str :=
  match x with
  | PyFloat.nan => u "NaN"
  | PyFloat.inf false => u "Infinity"
  | PyFloat.inf true => u "-Infinity"
  | _ => PyFloat.repr x
  end.

Fixpoint dumps (v : pyval) : str :=
  match v with
  | PNone => u "null"
  | PBool true => u "true"
  | PBool false => u "false"
  | PInt z => int_repr z
  | PFloat x => float_str x
  | PStr s => encode_str s
  | PList [] => u "[]"
  | PList l => ch "[" :: join (u ", ") (map dumps l) ++ [ch "]"]
  | PDict [] => u "{}"
  | PDict d =>
      ch "{" :: join (u ", ")
                  (map (fun kv => encode_str (fst kv) ++ u ": " ++ dumps (snd kv)) d)
         ++ [ch "}"]
  end.

End JsonEnc.

(** ** Values that [json.dumps] writes and [json.loads] reads back *)

(** Text of valid code points in which no high surrogate is directly
    followed by a low surrogate (the decoder would join such a pair). *)
Fixpoint text_ok (s : str) : bool :=
  match s with
  | [] => true
  | c :: r =>
      (c <=? 1114111)%N
      && negb (Json.is_high_surrogate c
               && match r with
                  | c' :: _ => Json.is_low_surrogate c'
                  | [] => false
                  end)
      && text_ok r
  end.

(** A float whose [repr] is a JSON number that reads back as the float
    itself (CPython guarantees this of every finite float). *)
Definition float_ok (x : PyFloat.t) : bool :=
  match x with
  | PyFloat.nan | PyFloat.inf _ => true
  | _ =>
      match Json.match_number (PyFloat.repr x) with
      | Some (PFloat y, []) => PyFloat.eqb x y
      | _ => false
      end
  end.

Fixpoint distinct (l : list str) : bool :=
  match l with
  | [] => true
  | k :: r => negb (existsb (str_eqb k) r) && distinct r
  end.

(** A JSON value: floats and text as above, object keys distinct (as in
    any Python [dict]). *)
Fixpoint json_value (v : pyval) : bool :=
  match v with
  | PNone | PBool _ | PInt _ => true
  | PFloat x => float_ok x
  | PStr s => text_ok s
  | PList l => forallb json_value l
  | PDict d =>
      distinct (map fst d)
      && forallb (fun kv => text_ok (fst kv) && json_value (snd kv)) d
  end.

(** Characters after which a JSON number cannot continue. *)
Definition inert (rest : str) : bool :=
  match rest with
  | [] => true
  | c :: _ =>
      match Json.digit_of c with
      | Some _ => false
      | None =>
          negb ((c =? ch ".") || (c =? ch "e") || (c =? ch "E")
                || (c =? ch "+") || (c =? ch "-"))%N
      end
  end.

(** What follows a term inside an array or object, or at the end. *)
Definition closes (rest : str) : bool :=
  match rest with
  | [] => true
  | c :: _ => ((c =? ch ",") || (c =? ch "]") || (c =? ch "}"))%N
  end.

(** Fuel that scanning the encoding of [v] uses. *)
Fixpoint weight (v : pyval) : nat :=
  match v with
  | PList l => S (list_sum (map (fun x => S (weight x)) l))
  | PDict d => S (list_sum (map (fun kv => S (weight (snd kv))) d))
  | _ => 1
  end.

(** ** The rule canonicalizer *)

(** The inner [rec] of [flatten_rule]. *)
Fixpoint rec (x : pyval) : str :=
  match x with
  | PDict d =>
      join (u " ") (map (fun kv => fst kv ++ ch ":" :: rec (snd kv)) d)
  | PList l => join (u " ") (map rec l)
  | _ => py_str x
  end.

(** [flatten_rule(rule)] over a given [json.loads]: a [str] argument is
    parsed as JSON first, and returned as it is when parsing raises. *)
Definition flatten_rule_with (loads : str -> outcome pyval) (rule : pyval)
  : outcome str :=
  match rule with
  | PStr s =>
      match loads s with
      | Return parsed => Return (rec parsed)
      | Raise _ => Return s
      end
  | _ => Return (rec rule)
  end.

Definition flatten_rule : pyval -> outcome str := flatten_rule_with Json.loads.

(** ** The canonicalizer under the interpreter's limits *)

(** What the running interpreter allows: how many calls can still be
    entered when the body of [flatten_rule] runs (the recursion limit
    less the depth of the call), what a call into C takes from them
    while it runs (1 up to CPython 3.11, 0 from 3.12 on), and
    [sys.get_int_max_str_digits()] (0: no limit). *)
Record limits := {
  py_frames : nat;
  call_cost : nat;
  max_str_digits : Z
}.

(** How many decimal digits [z] has. *)
Definition nb_digits (z : Z) : Z :=
  Z.of_nat (List.length (uint_chars (abs_uint z))).

(** The conversion between an [int] of that size and decimal text is
    refused. *)
Definition int_too_long (L : limits) (z : Z) : bool :=
  (0 <? max_str_digits L) && (max_str_digits L <? nb_digits z)
  && (640 <? nb_digits z).

(** [f] on every element in order; the first exception ends it. *)
Definition traverse {A B : Type} (f : A -> outcome B)
  : list A -> outcome (list B) :=
  fix go (l : list A) : outcome (list B) :=
    match l with
    | [] => Return []
    | x :: r =>
        match f x with
        | Raise e => Raise e
        | Return y =>
            match go r with
            | Raise e => Raise e
            | Return ys => Return (y :: ys)
            end
        end
    end.

(** [str(x)] for a scalar [x] when [avail] calls can still be entered:
    a [str] is returned as it is, every other value goes through a call
    of its [__str__]. *)
Definition str_in (L : limits) (avail : nat) (x : pyval) : outcome str :=
  match x with
  | PStr s => Return s
  | PInt z =>
      if Nat.ltb avail (call_cost L) then Raise RecursionError
      else if int_too_long L z then Raise ValueError
      else Return (py_str x)
  | _ =>
      if Nat.ltb avail (call_cost L) then Raise RecursionError
      else Return (py_str x)
  end.

(** The inner [rec] when [avail] calls can still be entered.  The call
    of [rec] is one; on a [dict] or [list] the call of [join] and the
    generator it drives come on top, and the elements are visited from
    inside the generator, in order. *)
Fixpoint rec_in (L : limits) (avail : nat) (x : pyval) {struct x}
  : outcome str :=
  match avail with
  | O => Raise RecursionError
  | S a =>
      match x with
      | PDict d =>
          if Nat.ltb a (S (call_cost L)) then Raise RecursionError
          else
            match traverse
                    (fun kv =>
                       match rec_in L (a - S (call_cost L)) (snd kv) with
                       | Return t => Return (fst kv ++ ch ":" :: t)
                       | Raise e => Raise e
                       end) d with
            | Return parts => Return (join (u " ") parts)
            | Raise e => Raise e
            end
      | PList l =>
          if Nat.ltb a (S (call_cost L)) then Raise RecursionError
          else
            match traverse (rec_in L (a - S (call_cost L))) l with
            | Return parts => Return (join (u " ") parts)
            | Raise e => Raise e
            end
      | _ => str_in L a x
      end
  end.

(** [flatten_rule(rule)] under the limits [L], with [loads] the
    [json.loads] of the running interpreter: whatever [loads] raises is
    caught, [rec] runs outside the [try]. *)
Definition flatten_rule_in (L : limits) (loads : str -> outcome pyval)
  (rule : pyval) : outcome str :=
  match rule with
  | PStr s =>
      match loads s with
      | Return parsed => rec_in L (py_frames L) parsed
      | Raise _ => Return s
      end
  | _ => rec_in L (py_frames L) rule
  end.

(** The value [x] can be canonicalized with [avail] calls left: the
    nesting fits and no [int] is too long. *)
Fixpoint fits (L : limits) (avail : nat) (x : pyval) {struct x} : bool :=
  match avail with
  | O => false
  | S a =>
      match x with
      | PDict d =>
          Nat.leb (S (call_cost L)) a
          && forallb (fun kv => fits L (a - S (call_cost L)) (snd kv)) d
      | PList l =>
          Nat.leb (S (call_cost L)) a
          && forallb (fits L (a - S (call_cost L))) l
      | PStr _ => true
      | PInt z => Nat.leb (call_cost L) a && negb (int_too_long L z)
      | _ => Nat.leb (call_cost L) a
      end
  end.

(** An interpreter with CPython's default limits, called with 900 of
    the 1000 frames left. *)
Definition cpython_311 : limits :=
  {| py_frames := 900; call_cost := 1; max_str_digits := 4300 |}.

(** ** Decimal numerals, read independently of [str] *)

(** The value of a run of decimal digits after the value [acc]. *)
Fixpoint digits_value (s : str) (acc : Z) : option Z :=
  match s with
  | [] => Some acc
  | c :: r =>
      if ((48 <=? c) && (c <=? 57))%N
      then digits_value r (10 * acc + (Z.of_N c - 48))
      else None
  end.

(** The value of a numeral: digits, with a minus sign before them for a
    negative number. *)
Definition numeral_value (s : str) : option Z :=
  match s with
  | [] => None
  | c :: r =>
      if (c =? 45)%N
      then match r with
           | [] => None
           | _ :: _ => option_map Z.opp (digits_value r 0)
           end
      else digits_value s 0
  end.

(** No redundant zero at the head, no [-0]. *)
Definition numeral_canonical (s : str) : bool :=
  match s with
  | c :: d :: _ =>
      if (c =? 45)%N then negb (d =? 48)%N else negb (c =? 48)%N
  | _ => true
  end.

(** A position inside a value: an element of an array or a member of an
    object, at any depth. *)
Inductive path :=
| Here
| Elem (pre : list pyval) (p : path) (post : list pyval)
| Member (pre : list (str * pyval)) (k : str) (p : path)
         (post : list (str * pyval)).

Definition is_here (p : path) : bool :=
  match p with Here => true | _ => false end.

(** The value with [v] at position [p]. *)
Fixpoint plug (p : path) (v : pyval) : pyval :=
  match p with
  | Here => v
  | Elem pre q post => PList (pre ++ plug q v :: post)
  | Member pre k q post => PDict (pre ++ (k, plug q v) :: post)
  end.

Definition pair_text (kv : str * pyval) : str :=
  fst kv ++ ch ":" :: rec (snd kv).

(** The canonical text around position [p], with [t] at that position. *)
Fixpoint render (p : path) (t : str) : str :=
  match p with
  | Here => t
  | Elem pre q post =>
      join (u " ") (map rec pre ++ render q t :: map rec post)
  | Member pre k q post =>
      join (u " ")
        (map pair_text pre ++ (k ++ ch ":" :: render q t) :: map pair_text post)
  end.

(** ** Reasoning principles *)

(** Induction over a value and all the values nested in it. *)
Section PyvalInd.
Variable P : pyval -> Prop.
Hypothesis HNone : P PNone.
Hypothesis HBool : forall b, P (PBool b).
Hypothesis HInt : forall z, P (PInt z).
Hypothesis HFloat : forall x, P (PFloat x).
Hypothesis HStr : forall s, P (PStr s).
Hypothesis HList : forall l, Forall P l -> P (PList l).
Hypothesis HDict : forall d, Forall (fun kv => P (snd kv)) d -> P (PDict d).

Fixpoint pyval_nested_ind (v : pyval) : P v :=
    match v with
    | PNone => HNone
    | PBool b => HBool b
    | PInt z => HInt z
    | PFloat x => HFloat x
    | PStr s => HStr s
    | PList l =>
        HList l ((fix go (l : list pyval) : Forall P l :=
                  match l with
                  | [] => Forall_nil _
                  | x :: r => Forall_cons _ (pyval_nested_ind x) (go r)
                  end) l)
    | PDict d =>
        HDict d ((fix go (d : list (str * pyval))
                 : Forall (fun kv => P (snd kv)) d :=
                  match d with
                  | [] => Forall_nil _
                  | kv :: r => Forall_cons _ (pyval_nested_ind (snd kv)) (go r)
                  end) d)
    end.
End PyvalInd.

Definition is_text (x : pyval) : bool :=
  match x with PStr _ => true | _ => false end.

Definition is_scalar (x : pyval) : bool :=
  match x with PList _ | PDict _ => false | _ => true end.

(** ** The canonical text as the specification words it *)

(** An object is its ["key:text"] pairs joined by one space in key
    order, an array is the texts of its elements joined by one space in
    order, a scalar is its string representation. *)
Inductive canon_text : pyval -> str -> Prop :=
| CT_scalar x : is_scalar x = true -> canon_text x (py_str x)
| CT_array l ts : canon_elems l ts -> canon_text (PList l) (join (u " ") ts)
| CT_object d ts : canon_pairs d ts -> canon_text (PDict d) (join (u " ") ts)
with canon_elems : list pyval -> list str -> Prop :=
| CE_nil : canon_elems [] []
| CE_cons x t l ts :
    canon_text x t -> canon_elems l ts -> canon_elems (x :: l) (t :: ts)
with canon_pairs : list (str * pyval) -> list str -> Prop :=
| CP_nil : canon_pairs [] []
| CP_cons k x t d ts :
    canon_text x t -> canon_pairs d ts ->
    canon_pairs ((k, x) :: d) ((k ++ ch ":" :: t) :: ts).

Scheme canon_text_mut := Induction for canon_text Sort Prop
  with canon_elems_mut := Induction for canon_elems Sort Prop
  with canon_pairs_mut := Induction for canon_pairs Sort Prop.


(** ** numpy and pandas: sorting and selecting *)

(** [l[idx]]: the elements of [l] at the positions [idx], in that order. *)
Definition take_rows {A : Type} (idx : list nat) (l : list A) : list A :=
  flat_map (fun i => match nth_error l i with
                     | Some x => [x]
                     | None => []
                     end) idx.

(** [s.head(k)]: the first [k] entries, or all but the last [-k] when
    [k] is negative. *)
Definition head {A : Type} (k : Z) (l : list A) : list A :=
  if 0 <=? k then firstn (Z.to_nat k) l
  else firstn (List.length l - Z.to_nat (- k)) l.

Section Sorting.
Variable score : Type.

(** [a.argsort()] with numpy's default kind. *)
Variable argsort : list score -> list nat.

(** pandas' [nargsort] for [ascending=False] on values without NaN: the
    reversed items are sorted ascending and the result is reversed. *)
Definition nargsort_desc (items : list score) : list nat :=
  let idx := seq 0 (List.length items) in
  let non_nans := rev items in
  let non_nan_idx := rev idx in
  rev (take_rows (argsort non_nans) non_nan_idx).

(** [sort_values(ascending=False)] on rows keyed by [key]. *)
Definition sort_values_desc {A : Type} (key : A -> score) (rows : list A)
  : list A :=
  take_rows (nargsort_desc (map key rows)) rows.

End Sorting.

Arguments nargsort_desc {score} argsort items.
Arguments sort_values_desc {score} argsort {A} key rows.

(** ** The similarity report *)

Section Report.
Variable label : Type.
Variable label_eqb : label -> label -> bool.
Variable score : Type.

(** [x <= y] on scores. *)
Variable leb : score -> score -> bool.
Variable argsort : list score -> list nat.

(** [round(x, 3)] *)
Variable round3 : score -> score.

(** An embedding row, and sklearn's [cosine_similarity] of a matrix of
    such rows with itself. *)
Variable vec : Type.
Variable cosine_similarity : list vec -> list (list score).

(** A row of the neighbour table. *)
Record neighbor := {
  rule : label;
  similar_rule : label;
  similarity : score
}.

(** A pandas Series: labelled values. *)
Definition series := list (label * score).

Fixpoint index_of (x : label) (l : list label) : option nat :=
  match l with
  | [] => None
  | y :: r => if label_eqb y x then Some O
              else option_map S (index_of x r)
  end.

Fixpoint unique (l : list label) : bool :=
  match l with
  | [] => true
  | x :: r => negb (existsb (label_eqb x) r) && unique r
  end.

(** [sim_df.loc[rule]] for a label that occurs once in the index: that
    row of the matrix, labelled by the columns. *)
Definition loc (names : list label) (sim : list (list score)) (r : label)
  : series :=
  match index_of r names with
  | Some i => combine names (nth i sim [])
  | None => []
  end.

(** [s.drop(rule)]: every entry labelled [rule] goes. *)
Definition drop (r : label) (s : series) : series :=
  filter (fun e => negb (label_eqb (fst e) r)) s.

(** The rows the loop body appends for [rule]. *)
Definition neighbors_of (names : list label) (sim : list (list score))
  (top_k : Z) (r : label) : list neighbor :=
  let sims := head top_k (sort_values_desc argsort snd (drop r (loc names sim r))) in
  map (fun e => {| rule := r; similar_rule := fst e;
                   similarity := round3 (snd e) |}) sims.

Definition square (n : nat) (m : list (list score)) : bool :=
  Nat.eqb (List.length m) n
  && forallb (fun row => Nat.eqb (List.length row) n) m.

(** [compute_similarity_report(df, embeddings, top_k)], with [names] the
    column [df["rulename"]].  [cosine_similarity] refuses a matrix
    without rows.  The frame constructor raises when the matrix does not
    fit the names; on a label that occurs twice [loc] gives a frame,
    whose [sort_values] raises for want of [by].  The neighbour table is
    [pd.DataFrame(rows)]: its rows, and no columns at all when there
    are no rows. *)
Definition compute_similarity_report (names : list label)
  (embeddings : list vec) (top_k : Z)
  : outcome (list label * list (list score) * list neighbor) :=
  match embeddings with
  | [] => Raise ValueError
  | _ :: _ =>
      let sim_matrix := cosine_similarity embeddings in
      if negb (square (List.length names) sim_matrix) then Raise ValueError
      else if negb (unique names) then Raise TypeError
      else Return (names, sim_matrix,
                   flat_map (neighbors_of names sim_matrix top_k) names)
  end.

(** The duplicate filter of [app.py]:
    [report_df[report_df["similarity"] >= t]] sorted by similarity,
    descending.  A table without rows has no such column. *)
Definition duplicates_df (report_df : list neighbor) (threshold : score)
  : outcome (list neighbor) :=
  match report_df with
  | [] => Raise KeyError
  | _ :: _ =>
      let kept := filter (fun r => leb threshold (similarity r)) report_df in
      Return (sort_values_desc argsort similarity kept)
  end.

End Report.

Arguments index_of {label} label_eqb x l.
Arguments unique {label} label_eqb l.
Arguments loc {label} label_eqb {score} names sim r.
Arguments drop {label} label_eqb {score} r s.
Arguments neighbors_of {label} label_eqb {score} argsort round3 names sim top_k r.
Arguments square {score} n m.
Arguments compute_similarity_report {label} label_eqb {score} argsort round3
  {vec} cosine_similarity names embeddings top_k.
Arguments duplicates_df {label score} leb argsort report_df threshold.
Arguments rule {label score} _.
Arguments similar_rule {label score} _.
Arguments similarity {label score} _.
Arguments Build_neighbor {label score} _ _ _.

(** What numpy promises of [argsort]: the result is a permutation of
    the positions, and the values come out in ascending order.  The
    order among equal values is left open. *)
Definition sorts {A : Type} (leb : A -> A -> bool)
  (argsort : list A -> list nat) : Prop :=
  forall a,
    Permutation (argsort a) (seq 0 (List.length a))
    /\ StronglySorted (fun x y => leb x y = true) (take_rows (argsort a) a).

(** A stable sort on top of that: of two positions with equal values
    the earlier one comes first. *)
Definition stable {A : Type} (leb : A -> A -> bool)
  (argsort : list A -> list nat) : Prop :=
  forall a,
    StronglySorted
      (fun i j => forall x y, nth_error a i = Some x -> nth_error a j = Some y ->
                              leb y x = true -> (i <= j)%nat)
      (argsort a).

(** Scores are totally ordered (no NaN among them). *)
Definition total_order {A : Type} (leb : A -> A -> bool) : Prop :=
  (forall x y, leb x y = true \/ leb y x = true)
  /\ (forall x y z, leb x y = true -> leb y z = true -> leb x z = true).

(** ** Sorting algorithms that meet numpy's contract *)

(** Position [i] of [a] holds a key that is at most the key at [j]. *)
Definition key_le {A : Type} (leb : A -> A -> bool) (a : list A) (i j : nat)
  : Prop :=
  exists x y, nth_error a i = Some x /\ nth_error a j = Some y
              /\ leb x y = true.

(** Insertion of an index into a list of indices ordered by [before]. *)
Fixpoint insert_by (before : nat -> nat -> bool) (i : nat) (l : list nat)
  : list nat :=
  match l with
  | [] => [i]
  | j :: r => if before i j then i :: j :: r else j :: insert_by before i r
  end.

Definition argsort_by {A : Type} (before : list A -> nat -> nat -> bool)
  (a : list A) : list nat :=
  fold_right (insert_by (before a)) [] (seq 0 (List.length a)).

Definition key_leb {A : Type} (leb : A -> A -> bool) (a : list A) (i j : nat)
  : bool :=
  match nth_error a i, nth_error a j with
  | Some x, Some y => leb x y
  | _, _ => true
  end.

Definition key_ltb {A : Type} (leb : A -> A -> bool) (a : list A) (i j : nat)
  : bool :=
  match nth_error a i, nth_error a j with
  | Some x, Some y => negb (leb y x)
  | _, _ => false
  end.

(** A stable sort: equal keys stay in their original order. *)
Definition argsort_stable {A : Type} (leb : A -> A -> bool) : list A -> list nat :=
  argsort_by (fun a i j =>
                key_ltb leb a i j || (key_leb leb a i j && Nat.leb i j)).

(** Rule [a] stands before rule [b] in the table. *)
Definition row_before {label : Type} (label_eqb : label -> label -> bool)
  (names : list label) (a b : label) : Prop :=
  exists i j, index_of label_eqb a names = Some i
              /\ index_of label_eqb b names = Some j /\ (i < j)%nat.

(** ** Exact scores, for running the report on concrete data *)

(** Round half to even, as [round] does. *)
Definition round_half_even (q : Q) : Z :=
  let f := Qfloor q in
  match Qcompare (q - inject_Z f) (1 # 2) with
  | Lt => f
  | Gt => f + 1
  | Eq => if Z.even f then f else f + 1
  end.

Definition round3_q (q : Q) : Q := Qred (round_half_even (q * 1000) # 1000).

Definition dot (x y : list Q) : Q :=
  fold_right Qplus 0%Q (map (fun p => (fst p * snd p)%Q) (combine x y)).

(** The cosine similarity of rows that are unit vectors already: their
    dot products. *)
Definition cosine_unit (E : list (list Q)) : list (list Q) :=
  map (fun x => map (fun y => Qred (dot x y)) E) E.

(** ** The rule table *)

(** A pandas DataFrame with a default index: a number of rows and named
    columns of cells, in column order. *)
Record frame := {
  nrows : nat;
  columns : list (str * list pyval)
}.

Fixpoint lookup_column (c : str) (cols : list (str * list pyval))
  : option (list pyval) :=
  match cols with
  | [] => None
  | (c', vals) :: rest =>
      if str_eqb c' c then Some vals else lookup_column c rest
  end.

(** [df[c]] *)
Definition getitem (df : frame) (c : str) : outcome (list pyval) :=
  match lookup_column c (columns df) with
  | Some vals => Return vals
  | None => Raise KeyError
  end.

(** A column that is there is overwritten where it stands, a new one is
    added last. *)
Fixpoint set_column (c : str) (vals : list pyval)
  (cols : list (str * list pyval)) : list (str * list pyval) :=
  match cols with
  | [] => [(c, vals)]
  | (c', old) :: rest =>
      if str_eqb c' c then (c', vals) :: rest
      else (c', old) :: set_column c vals rest
  end.

(** The column names after [c] has been set. *)
Definition add_name (c : str) (names : list str) : list str :=
  if existsb (fun c' => str_eqb c' c) names then names else names ++ [c].

(** [df[c] = series] for a Series on the index of [df]. *)
Definition setitem_series (df : frame) (c : str) (vals : list pyval) : frame :=
  {| nrows := nrows df; columns := set_column c vals (columns df) |}.

(** [df[c] = array]: the length has to match the index, except on a
    frame with neither columns nor rows, which takes its rows from the
    array. *)
Definition setitem_array (df : frame) (c : str) (vals : list pyval)
  : outcome frame :=
  match columns df, nrows df with
  | [], O => Return {| nrows := List.length vals; columns := [(c, vals)] |}
  | _, _ =>
      if Nat.eqb (List.length vals) (nrows df)
      then Return (setitem_series df c vals)
      else Raise ValueError
  end.

(** [series.apply(f)]: the first exception ends it. *)
Fixpoint apply_cells {B : Type} (f : pyval -> outcome B) (cells : list pyval)
  : outcome (list B) :=
  match cells with
  | [] => Return []
  | x :: rest =>
      match f x with
      | Raise e => Raise e
      | Return y =>
          match apply_cells f rest with
          | Raise e => Raise e
          | Return ys => Return (y :: ys)
          end
      end
  end.

(** Every column has one cell per row, as in every pandas frame. *)
Definition rectangular (df : frame) : bool :=
  forallb (fun col => Nat.eqb (List.length (snd col)) (nrows df)) (columns df).

(** ** Embeddings *)

Section Embeddings.
Variable L : limits.
Variable loads : str -> outcome pyval.
Variables mdl vec : Type.

(** [SentenceTransformer("all-MiniLM-L6-v2")]: the model is fetched and
    built, which can fail. *)
Variable load_model : outcome mdl.

(** [model.encode(texts, normalize_embeddings=True)] *)
Variable encode : mdl -> list str -> outcome (list vec).

(** [compute_embeddings(df)]: the frame after the call, and what the
    call returns.  [L] are the limits in force where [apply] calls
    [flatten_rule]. *)
Definition compute_embeddings (df : frame) : frame * outcome (list vec) :=
  match load_model with
  | Raise e => (df, Raise e)
  | Return model =>
      match getitem df (u "rule_json") with
      | Raise e => (df, Raise e)
      | Return rules =>
          match apply_cells (flatten_rule_in L loads) rules with
          | Raise e => (df, Raise e)
          | Return texts =>
              (setitem_series df (u "text_rule") (map PStr texts),
               encode model texts)
          end
      end
  end.

End Embeddings.

Arguments compute_embeddings L loads {mdl vec} load_model encode df.

(** ** Clustering: DBSCAN with [min_samples = 1] *)

Definition NOISE : Z := -1.

Definition get_label (labels : list Z) (i : nat) : Z := nth i labels NOISE.

Fixpoint set_label (labels : list Z) (i : nat) (c : Z) : list Z :=
  match labels, i with
  | [], _ => []
  | _ :: rest, O => c :: rest
  | l :: rest, S j => l :: set_label rest j c
  end.

Section Dbscan.
Variable vec : Type.

(** The cosine distance of two rows is at most [eps = 0.25]. *)
Variable near : vec -> vec -> bool.

(** [radius_neighbors]: for every row the positions of the rows within
    [eps]. *)
Definition neighborhoods (X : list vec) : list (list nat) :=
  map (fun x =>
         filter (fun j => match nth_error X j with
                          | Some y => near x y
                          | None => false
                          end) (seq 0 (List.length X))) X.

Definition min_samples : nat := 1.

Definition core_samples (nbrs : list (list nat)) : list bool :=
  map (fun nb => Nat.leb min_samples (List.length nb)) nbrs.

(** The neighbours of a core point that have no label yet go on the
    stack, the last one on top. *)
Definition push_unlabelled (labels : list Z) (nb stack : list nat) : list nat :=
  fold_left (fun st v => if get_label labels v =? NOISE then v :: st else st)
            nb stack.

(** The depth-first search of [dbscan_inner] that grows cluster
    [label_num] from point [i]. *)
Fixpoint expand (fuel : nat) (is_core : list bool) (nbrs : list (list nat))
  (label_num : Z) (labels : list Z) (stack : list nat) (i : nat)
  : option (list Z) :=
  match fuel with
  | O => None
  | S f =>
      let fresh := get_label labels i =? NOISE in
      let labels1 := if fresh then set_label labels i label_num else labels in
      let stack1 :=
        if fresh && nth i is_core false
        then push_unlabelled labels1 (nth i nbrs []) stack
        else stack in
      match stack1 with
      | [] => Some labels1
      | j :: stack2 => expand f is_core nbrs label_num labels1 stack2 j
      end
  end.

(** The outer loop of [dbscan_inner] over the points [todo]. *)
Fixpoint dbscan_inner (fuel : nat) (is_core : list bool)
  (nbrs : list (list nat)) (todo : list nat) (label_num : Z)
  (labels : list Z) : option (list Z) :=
  match todo with
  | [] => Some labels
  | i :: rest =>
      if negb (get_label labels i =? NOISE) || negb (nth i is_core false)
      then dbscan_inner fuel is_core nbrs rest label_num labels
      else
        match expand fuel is_core nbrs label_num labels [] i with
        | None => None
        | Some labels' =>
            dbscan_inner fuel is_core nbrs rest (label_num + 1) labels'
        end
  end.

(** [DBSCAN(eps=0.25, min_samples=1, metric="cosine").fit_predict(X)];
    input validation rejects a matrix without rows.  The fuel is enough
    for the search to finish, so the labels always come from
    [dbscan_inner]. *)
Definition fit_predict (X : list vec) : outcome (list Z) :=
  match X with
  | [] => Raise ValueError
  | _ :: _ =>
      let n := List.length X in
      let nbrs := neighborhoods X in
      match dbscan_inner (S ((S n) * n)) (core_samples nbrs) nbrs (seq 0 n) 0
              (repeat NOISE n) with
      | Some labels => Return labels
      | None => Return (repeat NOISE n)
      end
  end.

End Dbscan.

Arguments neighborhoods {vec} near X.
Arguments fit_predict {vec} near X.

(** How many points have no label yet. *)
Definition unlabelled (labels : list Z) : nat :=
  List.length (filter (fun c => c =? NOISE) labels).

(** The members of cluster [c]: the positions labelled [c]. *)
Definition members (labels : list Z) (c : Z) : list nat :=
  filter (fun i => get_label labels i =? c) (seq 0 (List.length labels)).

(** Row [j] is in the neighbourhood of row [i]. *)
Definition edge (nbrs : list (list nat)) (i j : nat) : Prop :=
  In j (nth i nbrs []).

(** Every neighbour of a labelled row has the label of that row. *)
Definition closed_labels (nbrs : list (list nat)) (labels : list Z) : Prop :=
  forall p q, get_label labels p <> NOISE -> edge nbrs p q ->
              get_label labels q = get_label labels p.

(** Two rows with the same label are joined by a chain of
    neighbourhoods. *)
Definition same_linked (nbrs : list (list nat)) (labels : list Z) : Prop :=
  forall p q, get_label labels p <> NOISE ->
              get_label labels p = get_label labels q ->
              clos_refl_sym_trans nat (edge nbrs) p q.

(** While cluster [L] grows from row [seed], with the rows [P] still to
    visit: a row to visit has no label or label [L]; a neighbour of a
    labelled row has that row's label already or is still to visit; the
    rows labelled [L] and the rows to visit are joined to [seed]. *)
Definition pending_inv (n : nat) (nbrs : list (list nat)) (seed : nat)
  (L : Z) (labels : list Z) (P : list nat) : Prop :=
  Forall (fun j => (j < n)%nat) P
  /\ (forall q, In q P -> get_label labels q = NOISE \/ get_label labels q = L)
  /\ (forall p q, get_label labels p <> NOISE -> edge nbrs p q ->
        get_label labels q = get_label labels p
        \/ (get_label labels p = L /\ In q P))
  /\ (forall p, get_label labels p = L ->
                clos_refl_sym_trans nat (edge nbrs) seed p)
  /\ (forall q, In q P -> clos_refl_sym_trans nat (edge nbrs) seed q).

(** Rows [i] and [j] of the matrix are within [eps] of each other, and
    the rows joined by a chain of such steps. *)
Definition within {vec : Type} (near : vec -> vec -> bool) (X : list vec)
  (i j : nat) : Prop :=
  exists x y, nth_error X i = Some x /\ nth_error X j = Some y
              /\ near x y = true.

Definition linked {vec : Type} (near : vec -> vec -> bool) (X : list vec)
  : nat -> nat -> Prop :=
  clos_refl_sym_trans nat (within near X).

(** ** Cluster labels: bag of words and top tokens *)

(** [a <= b] on Python text. *)
Fixpoint lex_leb (a b : str) : bool :=
  match a, b with
  | [], _ => true
  | _ :: _, [] => false
  | x :: a', y :: b' =>
      if (x <? y)%N then true
      else if (y <? x)%N then false
      else lex_leb a' b'
  end.

Fixpoint insert_term (t : str) (l : list str) : list str :=
  match l with
  | [] => [t]
  | h :: r =>
      if str_eqb t h then l
      else if lex_leb t h then t :: l
      else h :: insert_term t r
  end.

(** [sorted(set(terms))] *)
Definition sorted_terms (terms : list str) : list str :=
  fold_right insert_term [] terms.

Fixpoint insert_id (c : Z) (l : list Z) : list Z :=
  match l with
  | [] => [c]
  | h :: r =>
      if c =? h then l
      else if c <? h then c :: l
      else h :: insert_id c r
  end.

(** [sorted(series.unique())] on cluster ids. *)
Definition sorted_ids (ids : list Z) : list Z := fold_right insert_id [] ids.

Fixpoint lookup_label (c : Z) (d : list (Z * str)) : option str :=
  match d with
  | [] => None
  | (c', l) :: rest => if c' =? c then Some l else lookup_label c rest
  end.

(** A text cell, as the vectorizer needs it. *)
Definition as_text (cell : pyval) : outcome str :=
  match cell with
  | PStr s => Return s
  | _ => Raise AttributeError
  end.

Section Cluster.
Variable vec : Type.
Variable near : vec -> vec -> bool.

(** The analyzer of [CountVectorizer(stop_words="english")]: lower
    case, tokens of two or more word characters, English stop words
    removed. *)
Variable analyzer : str -> list str.

(** [counts.argsort()] on token counts. *)
Variable argsort : list Z -> list nat.

(** The vocabulary fitted on the documents, in the vectorizer's feature
    order. *)
Definition vocabulary (docs : list str) : list str :=
  sorted_terms (flat_map analyzer docs).

(** [vectorizer.transform(docs).sum(axis=0)]: per feature, how often it
    occurs in the documents. *)
Definition term_counts (features : list str) (docs : list str) : list Z :=
  map (fun t => Z.of_nat (List.length
                            (filter (str_eqb t) (flat_map analyzer docs))))
      features.

(** The texts of the rows whose cluster id is [cid]. *)
Definition cluster_texts (labels : list Z) (texts : list str) (cid : Z)
  : list str :=
  map snd (filter (fun p => fst p =? cid) (combine labels texts)).

Definition top_indices (counts : list Z) (top_n : nat) : list nat :=
  firstn top_n (rev (argsort counts)).

(** The inner [top_tokens(cid)] with its default [top_n = 3]. *)
Definition top_tokens (features : list str) (labels : list Z)
  (texts : list str) (cid : Z) : str :=
  match cluster_texts labels texts cid with
  | [] => []
  | subset =>
      join (u ", ")
        (take_rows (top_indices (term_counts features subset) 3) features)
  end.

(** [cluster_rules(df, embeddings)]: the frame after the call, and the
    cluster labels it returns with the frame. *)
Definition cluster_rules (df : frame) (embeddings : list vec)
  : frame * outcome (list (Z * str)) :=
  match fit_predict near embeddings with
  | Raise e => (df, Raise e)
  | Return labels =>
  match setitem_array df (u "cluster_id") (map PInt labels) with
  | Raise e => (df, Raise e)
  | Return df1 =>
  match getitem df1 (u "text_rule") with
  | Raise e => (df1, Raise e)
  | Return cells =>
  match apply_cells as_text cells with
  | Raise e => (df1, Raise e)
  | Return texts =>
  match vocabulary texts with
  | [] => (df1, Raise ValueError)
  | features =>
      let cluster_labels :=
        map (fun cid => (cid, top_tokens features labels texts cid))
            (sorted_ids labels) in
      (setitem_series df1 (u "cluster_label")
         (map (fun cid => match lookup_label cid cluster_labels with
                          | Some l => PStr l
                          | None => PFloat PyFloat.nan
                          end) labels),
       Return cluster_labels)
  end end end end end.

End Cluster.

Arguments cluster_rules {vec} near analyzer argsort df embeddings.

(** ** A plain analyzer, for running the labelling on concrete texts *)

Definition is_word_char (c : char) : bool :=
  (((48 <=? c) && (c <=? 57)) || ((65 <=? c) && (c <=? 90))
   || ((97 <=? c) && (c <=? 122)) || (c =? 95))%N.

Definition lower (c : char) : char :=
  (if (65 <=? c) && (c <=? 90) then c + 32 else c)%N.

(** Maximal runs of word characters, with the run in progress in [cur]. *)
Fixpoint word_runs (s : str) (cur : str) : list str :=
  match s with
  | [] => match cur with [] => [] | _ => [rev cur] end
  | c :: r =>
      if is_word_char c then word_runs r (c :: cur)
      else match cur with
           | [] => word_runs r []
           | _ => rev cur :: word_runs r []
           end
  end.

(** Lower case, runs of at least two word characters, stop words
    removed: what the vectorizer's analyzer does on ASCII text, for a
    given stop list. *)
Definition ascii_analyzer (stop_words : list str) (doc : str) : list str :=
  filter (fun t => Nat.leb 2 (List.length t)
                   && negb (existsb (str_eqb t) stop_words))
         (word_runs (map lower doc) []).
(** * Properties *)

(** Replace every character literal by its code point. *)
Ltac chars :=
  repeat match goal with
         | |- context [ch ?a] =>
             let v := eval compute in (ch a) in change (ch a) with v
         | H : context [ch ?a] |- _ =>
             let v := eval compute in (ch a) in change (ch a) with v in H
         end;
  change dquote with 34%N in *; change bslash with 92%N in *.

Lemma str_eqb_eq a b : str_eqb a b = true <-> a = b.
Proof.
  unfold str_eqb. destruct (list_eq_dec N.eq_dec a b); split; congruence.
Qed.

Lemma join_length sep parts :
  List.length (join sep parts) =
  (list_sum (map (@List.length _) parts)
   + List.length sep * Nat.pred (List.length parts))%nat.
Proof.
  induction parts as [|p [|q rest] IH]; simpl in *; try lia.
  rewrite !length_app, IH. simpl. lia.
Qed.

Lemma float_eqb_eq a b : PyFloat.eqb a b = true <-> a = b.
Proof.
  destruct a, b; simpl; try (split; congruence).
  - rewrite Bool.eqb_true_iff. split; congruence.
  - rewrite Bool.eqb_true_iff. split; congruence.
  - rewrite !andb_true_iff, Bool.eqb_true_iff, Pos.eqb_eq, Z.eqb_eq.
    split; [intros [[-> ->] ->]; reflexivity | intros [= -> -> ->]; auto].
Qed.

(** ** Numbers: what [json.dumps] prints, [json.loads] reads back *)

Lemma inert_no_digit c rest :
  inert (c :: rest) = true -> Json.digit_of c = None.
Proof.
  simpl. destruct (Json.digit_of c); [discriminate | reflexivity].
Qed.

Lemma scan_uint_app s d s' rest :
  Json.scan_uint s = (d, s') -> inert rest = true ->
  Json.scan_uint (s ++ rest) = (d, s' ++ rest).
Proof.
  revert d s'. induction s as [|c r IH]; intros d s' H Hr.
  - injection H as <- <-. simpl. destruct rest as [|c rest]; [reflexivity|].
    simpl. now rewrite (inert_no_digit _ _ Hr).
  - simpl in *. destruct (Json.digit_of c) as [D|].
    + destruct (Json.scan_uint r) as [d0 r0] eqn:E.
      injection H as <- <-. now rewrite (IH _ _ eq_refl Hr).
    + injection H as <- <-. reflexivity.
Qed.

Lemma scan_uint_chars d rest :
  inert rest = true -> Json.scan_uint (uint_chars d ++ rest) = (d, rest).
Proof.
  intros Hr. induction d; simpl;
    try (rewrite IHd; reflexivity).
  destruct rest as [|c rest]; [reflexivity|].
  simpl. now rewrite (inert_no_digit _ _ Hr).
Qed.

Lemma scan_int_part_app s d s' rest :
  Json.scan_int_part s = Some (d, s') -> inert rest = true ->
  Json.scan_int_part (s ++ rest) = Some (d, s' ++ rest).
Proof.
  destruct s as [|c r]; [discriminate|].
  change ((c :: r) ++ rest) with (c :: r ++ rest).
  unfold Json.scan_int_part.
  destruct (c =? 48)%N.
  - intros [= <- <-] _. reflexivity.
  - destruct (Json.scan_uint (c :: r)) as [d0 r0] eqn:E. intros H Hr.
    change (c :: r ++ rest) with ((c :: r) ++ rest).
    rewrite (scan_uint_app _ _ _ _ E Hr).
    destruct d0; try discriminate; injection H as <- <-; reflexivity.
Qed.

Lemma inert_head c rest :
  inert (c :: rest) = true ->
  (c =? ch ".")%N = false /\ (c =? ch "e")%N = false
  /\ (c =? ch "E")%N = false /\ (c =? ch "+")%N = false
  /\ (c =? ch "-")%N = false.
Proof.
  simpl. destruct (Json.digit_of c); [discriminate|].
  rewrite negb_true_iff, !orb_false_iff. chars. tauto.
Qed.

Lemma scan_frac_app s d s' rest :
  Json.scan_frac s = (d, s') -> inert rest = true ->
  Json.scan_frac (s ++ rest) = (d, s' ++ rest).
Proof.
  intros H Hr. destruct s as [|c r].
  - injection H as <- <-. simpl. destruct rest as [|c rest]; [reflexivity|].
    destruct (inert_head _ _ Hr) as (E & _). unfold Json.scan_frac.
    chars. now rewrite E.
  - change ((c :: r) ++ rest) with (c :: r ++ rest).
    unfold Json.scan_frac in *. chars.
    destruct (c =? 46)%N.
    + destruct (Json.scan_uint r) as [d0 r0] eqn:E.
      rewrite (scan_uint_app _ _ _ _ E Hr).
      destruct d0; injection H as <- <-; reflexivity.
    + injection H as <- <-. reflexivity.
Qed.

Lemma scan_exp_app s x s' rest :
  Json.scan_exp s = (x, s') -> inert rest = true ->
  Json.scan_exp (s ++ rest) = (x, s' ++ rest).
Proof.
  intros H Hr. destruct s as [|c r].
  - injection H as <- <-. simpl. destruct rest as [|c rest]; [reflexivity|].
    destruct (inert_head _ _ Hr) as (_ & E1 & E2 & _). unfold Json.scan_exp.
    chars. now rewrite E1, E2.
  - change ((c :: r) ++ rest) with (c :: r ++ rest).
    unfold Json.scan_exp in *. chars.
    destruct ((c =? 101) || (c =? 69))%N.
    2:{ injection H as <- <-. reflexivity. }
    destruct r as [|sg r2].
    + simpl in H. injection H as <- <-. simpl.
      destruct rest as [|c' rest]; [reflexivity|].
      destruct (inert_head _ _ Hr) as (_ & _ & _ & E3 & E4).
      chars. rewrite E3, E4.
      change (c' :: rest) with ([] ++ c' :: rest).
      now rewrite (scan_uint_app [] _ _ _ eq_refl Hr).
    + change ((sg :: r2) ++ rest) with (sg :: r2 ++ rest).
      cbv beta iota in H |- *.
      destruct (sg =? 45)%N; [|destruct (sg =? 43)%N];
        cbv beta iota zeta in H |- *.
      * destruct (Json.scan_uint r2) as [d0 r0] eqn:E.
        rewrite (scan_uint_app _ _ _ _ E Hr).
        destruct d0; injection H as <- <-; reflexivity.
      * destruct (Json.scan_uint r2) as [d0 r0] eqn:E.
        rewrite (scan_uint_app _ _ _ _ E Hr).
        destruct d0; injection H as <- <-; reflexivity.
      * destruct (Json.scan_uint (sg :: r2)) as [d0 r0] eqn:E.
        change (sg :: r2 ++ rest) with ((sg :: r2) ++ rest).
        rewrite (scan_uint_app _ _ _ _ E Hr).
        destruct d0; injection H as <- <-; reflexivity.
Qed.

(** A number is read the same way in front of a character that cannot
    continue it. *)
Lemma match_number_app s v s' rest :
  Json.match_number s = Some (v, s') -> inert rest = true ->
  Json.match_number (s ++ rest) = Some (v, s' ++ rest).
Proof.
  intros H Hr.
  destruct s as [|c r]; [discriminate|].
  change ((c :: r) ++ rest) with (c :: r ++ rest).
  unfold Json.match_number in *. chars.
  assert (K : forall neg s1,
    match Json.scan_int_part s1 with
    | Some (ip, s2) =>
        let '(fp, s3) := Json.scan_frac s2 in
        let '(ex, s4) := Json.scan_exp s3 in
        match fp, ex with
        | Decimal.Nil, None =>
            Some (PInt (if neg then - Z.of_uint ip else Z.of_uint ip), s4)
        | _, _ =>
            let e10 := match ex with Some e => e | None => 0 end in
            Some (PFloat (PyFloat.of_decimal neg
                            (Z.of_uint (Decimal.app ip fp))
                            (Json.uint_len ip + Json.uint_len fp)
                            (e10 - Json.uint_len fp)), s4)
        end
    | None => None
    end = Some (v, s') ->
    match Json.scan_int_part (s1 ++ rest) with
    | Some (ip, s2) =>
        let '(fp, s3) := Json.scan_frac s2 in
        let '(ex, s4) := Json.scan_exp s3 in
        match fp, ex with
        | Decimal.Nil, None =>
            Some (PInt (if neg then - Z.of_uint ip else Z.of_uint ip), s4)
        | _, _ =>
            let e10 := match ex with Some e => e | None => 0 end in
            Some (PFloat (PyFloat.of_decimal neg
                            (Z.of_uint (Decimal.app ip fp))
                            (Json.uint_len ip + Json.uint_len fp)
                            (e10 - Json.uint_len fp)), s4)
        end
    | None => None
    end = Some (v, s' ++ rest)).
  { intros neg s1 H1.
    destruct (Json.scan_int_part s1) as [[ip s2]|] eqn:E1; [|discriminate].
    rewrite (scan_int_part_app _ _ _ _ E1 Hr).
    destruct (Json.scan_frac s2) as [fp s3] eqn:E2.
    rewrite (scan_frac_app _ _ _ _ E2 Hr).
    destruct (Json.scan_exp s3) as [ex s4] eqn:E3.
    rewrite (scan_exp_app _ _ _ _ E3 Hr).
    destruct fp, ex; injection H1 as <- <-; reflexivity. }
  destruct (c =? 45)%N.
  - apply K, H.
  - apply (K false (c :: r)), H.
Qed.

Lemma pos_to_uint_unorm p :
  Decimal.unorm (Pos.to_uint p) = Pos.to_uint p.
Proof.
  rewrite <- DecimalPos.Unsigned.to_of, DecimalPos.Unsigned.of_to.
  reflexivity.
Qed.

Lemma scan_int_part_pos p rest :
  inert rest = true ->
  Json.scan_int_part (uint_chars (Pos.to_uint p) ++ rest)
  = Some (Pos.to_uint p, rest).
Proof.
  intros Hr.
  pose proof (pos_to_uint_unorm p) as Hn.
  pose proof (DecimalPos.Unsigned.to_uint_nonzero p) as Hz.
  pose proof (DecimalPos.Unsigned.to_uint_nonnil p) as Hl.
  destruct (Pos.to_uint p) as [|d|d|d|d|d|d|d|d|d|d] eqn:E;
    try congruence;
    try (unfold Json.scan_int_part; simpl;
         rewrite (scan_uint_chars d rest Hr); reflexivity).
  exfalso. rewrite DecimalFacts.unorm_D0 in Hn.
  unfold Decimal.unorm in Hn.
  destruct (Decimal.nzhead d) eqn:En;
    try (apply (DecimalFacts.nzhead_nonzero d d); congruence).
Qed.

Lemma scan_frac_inert rest :
  inert rest = true -> Json.scan_frac rest = (Decimal.Nil, rest).
Proof.
  intros Hr. exact (scan_frac_app [] _ _ rest eq_refl Hr).
Qed.

Lemma scan_exp_inert rest :
  inert rest = true -> Json.scan_exp rest = (None, rest).
Proof.
  intros Hr. exact (scan_exp_app [] _ _ rest eq_refl Hr).
Qed.

Lemma uint_chars_head d :
  d <> Decimal.Nil ->
  exists c r, uint_chars d = c :: r /\ (c =? 45)%N = false.
Proof.
  destruct d; try congruence; intros _; simpl; eauto.
Qed.

Lemma of_uint_pos p : Z.of_uint (Pos.to_uint p) = Z.pos p.
Proof.
  unfold Z.of_uint. now rewrite DecimalPos.Unsigned.of_to.
Qed.

Lemma match_number_unsigned p rest neg :
  inert rest = true ->
  match Json.scan_int_part (uint_chars (Pos.to_uint p) ++ rest) with
  | Some (ip, s2) =>
      let '(fp, s3) := Json.scan_frac s2 in
      let '(ex, s4) := Json.scan_exp s3 in
      match fp, ex with
      | Decimal.Nil, None =>
          Some (PInt (if neg then - Z.of_uint ip else Z.of_uint ip), s4)
      | _, _ =>
          let e10 := match ex with Some e => e | None => 0 end in
          Some (PFloat (PyFloat.of_decimal neg
                          (Z.of_uint (Decimal.app ip fp))
                          (Json.uint_len ip + Json.uint_len fp)
                          (e10 - Json.uint_len fp)), s4)
      end
  | None => None
  end = Some (PInt (if neg then Z.neg p else Z.pos p), rest).
Proof.
  intros Hr. rewrite (scan_int_part_pos p rest Hr).
  rewrite (scan_frac_inert rest Hr), (scan_exp_inert rest Hr).
  rewrite of_uint_pos. now destruct neg.
Qed.

(** [json.loads] reads the decimal form of an integer back. *)
Lemma match_number_int z rest :
  inert rest = true ->
  Json.match_number (int_repr z ++ rest) = Some (PInt z, rest).
Proof.
  intros Hr. destruct z as [|p|p]; unfold int_repr; simpl Z.to_int.
  - simpl. unfold Json.match_number. simpl.
    now rewrite (scan_frac_inert rest Hr), (scan_exp_inert rest Hr).
  - destruct (uint_chars_head (Pos.to_uint p)
                (DecimalPos.Unsigned.to_uint_nonnil p)) as (c & r & E & Hc).
    unfold Json.match_number. rewrite E at 1.
    change ((c :: r) ++ rest) with (c :: r ++ rest). chars.
    cbv beta iota. rewrite Hc. cbv beta iota.
    apply (match_number_unsigned p rest false Hr).
  - unfold Json.match_number. chars.
    change ((45%N :: uint_chars (Pos.to_uint p)) ++ rest)
      with (45%N :: uint_chars (Pos.to_uint p) ++ rest).
    cbv beta iota. change (45 =? 45)%N with true. cbv beta iota.
    apply (match_number_unsigned p rest true Hr).
Qed.

(** ** Text: what [json.dumps] escapes, [json.loads] decodes *)

Lemma hex_val_digit k :
  (k < 16)%N -> Json.hex_val (JsonEnc.hex_digit k) = Some k.
Proof.
  intros H.
  assert (K : In k [0;1;2;3;4;5;6;7;8;9;10;11;12;13;14;15]%N).
  { simpl. lia. }
  simpl in K.
  repeat (destruct K as [<-|K]; [reflexivity|]). destruct K.
Qed.

Lemma hex4_chars_read n :
  (n < 65536)%N ->
  exists a b c d,
    JsonEnc.hex4_chars n = [a; b; c; d] /\ Json.hex4 a b c d = Some n.
Proof.
  intros H. unfold JsonEnc.hex4_chars. do 4 eexists. split; [reflexivity|].
  unfold Json.hex4.
  rewrite !hex_val_digit by (apply N.mod_upper_bound; discriminate).
  f_equal.
  pose proof (N.div_mod n 16 ltac:(discriminate)).
  pose proof (N.div_mod (n / 16) 16 ltac:(discriminate)).
  pose proof (N.div_mod (n / 16 / 16) 16 ltac:(discriminate)).
  rewrite (N.Div0.div_div n 16 16) in *.
  rewrite (N.Div0.div_div n (16 * 16) 16) in *.
  change (16 * 16)%N with 256%N in *. change (256 * 16)%N with 4096%N in *.
  assert (n / 4096 < 16)%N.
  { apply N.Div0.div_lt_upper_bound. exact H. }
  rewrite (N.mod_small (n / 4096) 16) by assumption.
  lia.
Qed.

Lemma consc_some c t rest r :
  r = Some (t, rest) -> Json.consc c r = Some (c :: t, rest).
Proof.
  now intros ->.
Qed.

(** The decoder on a [\uXXXX] escape that is not the first half of a
    surrogate pair. *)
Lemma scanstring_uescape h1 h2 h3 h4 c1 r2 :
  Json.hex4 h1 h2 h3 h4 = Some c1 ->
  r2 <> [] ->
  (Json.is_high_surrogate c1 = true ->
   forall g1 g2 g3 g4 r3,
     r2 = 92%N :: 117%N :: g1 :: g2 :: g3 :: g4 :: r3 ->
     exists c2, Json.hex4 g1 g2 g3 g4 = Some c2
                /\ Json.is_low_surrogate c2 = false) ->
  Json.scanstring (92%N :: 117%N :: h1 :: h2 :: h3 :: h4 :: r2)
  = Json.consc c1 (Json.scanstring r2).
Proof.
  intros Hh Hne Hp.
  change (Json.scanstring (92%N :: 117%N :: h1 :: h2 :: h3 :: h4 :: r2))
    with (match Json.hex4 h1 h2 h3 h4 with
          | None => None
          | Some c1 =>
              match r2 with
              | [] => None
              | b :: u' :: g1 :: g2 :: g3 :: g4 :: r3 =>
                  if Json.is_high_surrogate c1 && (b =? bslash)%N
                     && (u' =? ch "u")%N
                     && negb (Nat.eqb (List.length r3) 0)
                  then
                    match Json.hex4 g1 g2 g3 g4 with
                    | None => None
                    | Some c2 =>
                        if Json.is_low_surrogate c2
                        then Json.consc (Json.join_surrogates c1 c2)
                                        (Json.scanstring r3)
                        else Json.consc c1 (Json.scanstring r2)
                    end
                  else Json.consc c1 (Json.scanstring r2)
              | _ => Json.consc c1 (Json.scanstring r2)
              end
          end).
  rewrite Hh.
  destruct r2 as [|b [|u' [|g1 [|g2 [|g3 [|g4 r3]]]]]];
    try reflexivity; try congruence.
  destruct (Json.is_high_surrogate c1) eqn:Ehi; [|reflexivity].
  chars.
  destruct (b =? 92)%N eqn:Eb; [|reflexivity].
  destruct (u' =? 117)%N eqn:Eu; [|reflexivity].
  apply N.eqb_eq in Eb, Eu. subst b u'.
  destruct (Hp eq_refl _ _ _ _ _ eq_refl) as (c2 & -> & ->).
  cbn [andb]. now destruct (negb _).
Qed.

(** The decoder on a surrogate pair. *)
Lemma scanstring_pair h1 h2 h3 h4 g1 g2 g3 g4 hi lo r3 :
  Json.hex4 h1 h2 h3 h4 = Some hi -> Json.is_high_surrogate hi = true ->
  Json.hex4 g1 g2 g3 g4 = Some lo -> Json.is_low_surrogate lo = true ->
  r3 <> [] ->
  Json.scanstring (92%N :: 117%N :: h1 :: h2 :: h3 :: h4 ::
                   92%N :: 117%N :: g1 :: g2 :: g3 :: g4 :: r3)
  = Json.consc (Json.join_surrogates hi lo) (Json.scanstring r3).
Proof.
  intros Hh Hhi Hg Hlo Hne.
  cbn [Json.scanstring]. chars. cbn [N.eqb Pos.eqb].
  rewrite Hh, Hhi, Hg, Hlo.
  destruct r3; [congruence | reflexivity].
Qed.

Lemma land_shiftl_small a b k :
  (b < 2 ^ k)%N -> N.land (N.shiftl a k) b = 0%N.
Proof.
  intros Hb. apply N.bits_inj. intros i.
  rewrite N.land_spec, N.bits_0.
  destruct (N.lt_ge_cases i k) as [Hi|Hi].
  - now rewrite N.shiftl_spec_low.
  - destruct (N.eq_dec b 0) as [->|Hz].
    + now rewrite N.bits_0, andb_false_r.
    + rewrite (N.bits_above_log2 b i), andb_false_r; [reflexivity|].
      apply N.log2_lt_pow2; [lia|].
      apply N.lt_le_trans with (2 ^ k)%N; [exact Hb|].
      apply N.pow_le_mono_r; [discriminate | exact Hi].
Qed.

Lemma lor_shiftl_small a b k :
  (b < 2 ^ k)%N -> N.lor (N.shiftl a k) b = (a * 2 ^ k + b)%N.
Proof.
  intros Hb. rewrite <- N.lxor_lor by now apply land_shiftl_small.
  rewrite <- N.add_nocarry_lxor by now apply land_shiftl_small.
  now rewrite N.shiftl_mul_pow2.
Qed.

(** The two halves [json.dumps] writes for a code point above the basic
    plane are a high and a low surrogate, and joining them gives the
    code point back. *)
Lemma surrogate_halves c :
  (65536 <= c)%N -> (c <= 1114111)%N ->
  let n := (c - 65536)%N in
  let hi := N.lor 55296 (N.land (N.shiftr n 10) 1023) in
  let lo := N.lor 56320 (N.land n 1023) in
  (hi < 65536)%N /\ (lo < 65536)%N
  /\ Json.is_high_surrogate hi = true /\ Json.is_low_surrogate lo = true
  /\ Json.join_surrogates hi lo = c.
Proof.
  intros H1 H2 n hi lo.
  assert (Hn : (n < 1048576)%N) by (unfold n; lia).
  assert (Ea : N.land (N.shiftr n 10) 1023 = (n / 1024)%N).
  { change 1023%N with (N.ones 10). rewrite N.land_ones, N.shiftr_div_pow2.
    change (2 ^ 10)%N with 1024%N. apply N.mod_small.
    apply N.Div0.div_lt_upper_bound. exact Hn. }
  assert (Eb : N.land n 1023 = (n mod 1024)%N).
  { change 1023%N with (N.ones 10). now rewrite N.land_ones. }
  assert (Ha : (n / 1024 < 1024)%N).
  { apply N.Div0.div_lt_upper_bound. exact Hn. }
  assert (Hb : (n mod 1024 < 1024)%N) by (apply N.mod_upper_bound; discriminate).
  assert (Ehi : hi = (55296 + n / 1024)%N).
  { unfold hi. rewrite Ea. change 55296%N with (N.shiftl 54 10).
    rewrite lor_shiftl_small by exact Ha. reflexivity. }
  assert (Elo : lo = (56320 + n mod 1024)%N).
  { unfold lo. rewrite Eb. change 56320%N with (N.shiftl 55 10).
    rewrite lor_shiftl_small by exact Hb. reflexivity. }
  unfold Json.is_high_surrogate, Json.is_low_surrogate, Json.join_surrogates.
  rewrite Ehi, Elo.
  replace (55296 + n / 1024 - 55296)%N with (n / 1024)%N by lia.
  replace (56320 + n mod 1024 - 56320)%N with (n mod 1024)%N by lia.
  rewrite lor_shiftl_small by exact Hb.
  change (2 ^ 10)%N with 1024%N.
  pose proof (N.div_mod n 1024 ltac:(discriminate)) as Hd.
  rewrite !andb_true_iff, !N.leb_le. clearbody hi lo. unfold n in *. lia.
Qed.

Lemma high_not_low c :
  Json.is_high_surrogate c = true -> Json.is_low_surrogate c = false.
Proof.
  unfold Json.is_high_surrogate, Json.is_low_surrogate.
  rewrite andb_true_iff, andb_false_iff, !N.leb_le, !N.leb_gt. lia.
Qed.

(** What the encoding of a character that is not a low surrogate can
    look like to the decoder's look-ahead for a second half. *)
Lemma escape_char_ahead c tail g1 g2 g3 g4 r3 :
  (c <= 1114111)%N -> Json.is_low_surrogate c = false ->
  JsonEnc.escape_char c ++ tail = 92%N :: 117%N :: g1 :: g2 :: g3 :: g4 :: r3 ->
  exists c2, Json.hex4 g1 g2 g3 g4 = Some c2
             /\ Json.is_low_surrogate c2 = false.
Proof.
  intros Hc Hlow. unfold JsonEnc.escape_char. chars.
  destruct (c =? 34)%N; [discriminate|].
  destruct (c =? 92)%N eqn:E92; [discriminate|].
  destruct (c =? 10)%N; [discriminate|].
  destruct (c =? 13)%N; [discriminate|].
  destruct (c =? 9)%N; [discriminate|].
  destruct (c =? 8)%N; [discriminate|].
  destruct (c =? 12)%N; [discriminate|].
  destruct ((32 <=? c) && (c <=? 126))%N.
  { intros [= -> _]. discriminate. }
  destruct (c <? 65536)%N eqn:E.
  - apply N.ltb_lt in E.
    destruct (hex4_chars_read c E) as (a & b & x & d & Eh & Hh).
    unfold JsonEnc.uescape. rewrite Eh. intros [= <- <- <- <- _].
    eauto.
  - apply N.ltb_ge in E.
    destruct (surrogate_halves c E Hc) as (Hhi & _ & Hsur & _).
    cbv zeta in Hhi, Hsur.
    destruct (hex4_chars_read _ Hhi) as (a & b & x & d & Eh & Hh).
    unfold JsonEnc.uescape. rewrite Eh. intros [= <- <- <- <- _].
    eexists; split; [exact Hh|]. now apply high_not_low.
Qed.

Lemma text_ok_cons c r :
  text_ok (c :: r) = true ->
  (c <= 1114111)%N /\ text_ok r = true
  /\ (Json.is_high_surrogate c = true ->
      match r with
      | c' :: _ => Json.is_low_surrogate c' = false
      | [] => True
      end).
Proof.
  cbn [text_ok]. rewrite !andb_true_iff, negb_true_iff, N.leb_le.
  intros [[H1 H2] H3]. repeat split; auto.
  intros Hhi. rewrite Hhi in H2. destruct r; [exact I|exact H2].
Qed.

(** [json.loads] decodes what [json.dumps] escapes. *)
Lemma scanstring_encode s rest :
  text_ok s = true ->
  Json.scanstring (flat_map JsonEnc.escape_char s ++ 34%N :: rest)
  = Some (s, rest).
Proof.
  induction s as [|c r IH]; intros Hok; [reflexivity|].
  destruct (text_ok_cons c r Hok) as (Hc & Hr & Hpair).
  specialize (IH Hr).
  cbn [flat_map]. rewrite <- app_assoc.
  set (tail := flat_map JsonEnc.escape_char r ++ 34%N :: rest) in *.
  assert (Htail : tail <> []).
  { unfold tail. intros E. apply app_eq_nil in E. destruct E. discriminate. }
  unfold JsonEnc.escape_char. chars.
  destruct (c =? 34)%N eqn:E34.
  { apply N.eqb_eq in E34. subst c. cbn. now rewrite IH. }
  destruct (c =? 92)%N eqn:E92.
  { apply N.eqb_eq in E92. subst c. cbn. now rewrite IH. }
  destruct (c =? 10)%N eqn:E10.
  { apply N.eqb_eq in E10. subst c. cbn. now rewrite IH. }
  destruct (c =? 13)%N eqn:E13.
  { apply N.eqb_eq in E13. subst c. cbn. now rewrite IH. }
  destruct (c =? 9)%N eqn:E9.
  { apply N.eqb_eq in E9. subst c. cbn. now rewrite IH. }
  destruct (c =? 8)%N eqn:E8.
  { apply N.eqb_eq in E8. subst c. cbn. now rewrite IH. }
  destruct (c =? 12)%N eqn:E12.
  { apply N.eqb_eq in E12. subst c. cbn. now rewrite IH. }
  destruct ((32 <=? c) && (c <=? 126))%N eqn:Eprint.
  { apply andb_true_iff in Eprint. destruct Eprint as [Hlo _].
    apply N.leb_le in Hlo.
    cbn [app Json.scanstring]. chars. rewrite E34, E92.
    replace (c <=? 31)%N with false by (symmetry; apply N.leb_gt; lia).
    now rewrite IH. }
  destruct (c <? 65536)%N eqn:Ebmp.
  - apply N.ltb_lt in Ebmp.
    destruct (hex4_chars_read c Ebmp) as (a & b & x & d & Eh & Hh).
    unfold JsonEnc.uescape. rewrite Eh. cbn [app]. chars.
    transitivity (Json.consc c (Json.scanstring tail));
      [apply (scanstring_uescape a b x d c tail Hh Htail) | now rewrite IH].
    intros Hhi g1 g2 g3 g4 r3 Et. specialize (Hpair Hhi).
      destruct r as [|c' r']; [discriminate Et|].
      destruct (text_ok_cons c' r' Hr) as (Hc' & _ & _).
      unfold tail in Et. cbn [flat_map] in Et. rewrite <- app_assoc in Et.
      exact (escape_char_ahead c' _ _ _ _ _ _ Hc' Hpair Et).
  - apply N.ltb_ge in Ebmp.
    destruct (surrogate_halves c Ebmp Hc) as (Hhi & Hlo & Shi & Slo & Ej).
    cbv zeta in Hhi, Hlo, Shi, Slo, Ej.
    destruct (hex4_chars_read _ Hhi) as (a & b & x & d & Eh & Hh).
    destruct (hex4_chars_read _ Hlo) as (a' & b' & x' & d' & Eh' & Hh').
    unfold JsonEnc.uescape. rewrite Eh, Eh'. cbn [app]. chars.
    etransitivity;
      [apply (scanstring_pair _ _ _ _ _ _ _ _ _ _ tail Hh Shi Hh' Slo Htail)|].
    now rewrite Ej, IH.
Qed.

Lemma scanstring_encode_str s rest :
  text_ok s = true ->
  exists body,
    JsonEnc.encode_str s ++ rest = 34%N :: body
    /\ Json.scanstring body = Some (s, rest).
Proof.
  intros Hok. unfold JsonEnc.encode_str. chars.
  exists (flat_map JsonEnc.escape_char s ++ 34%N :: rest). split.
  - cbn [app]. now rewrite <- app_assoc.
  - now apply scanstring_encode.
Qed.

(** ** Terms: [json.loads] reads back what [json.dumps] writes *)

Lemma digit_of_range c D :
  Json.digit_of c = Some D -> (48 <= c <= 57)%N.
Proof.
  unfold Json.digit_of.
  repeat match goal with
         | |- context [(c =? ?k)%N] =>
             destruct (N.eqb_spec c k); [intros _; lia|]
         end.
  discriminate.
Qed.

Lemma scan_int_part_head s d s' :
  Json.scan_int_part s = Some (d, s') ->
  exists c r, s = c :: r /\ (48 <= c <= 57)%N.
Proof.
  destruct s as [|c r]; [discriminate|]. unfold Json.scan_int_part.
  intros H. exists c, r. split; [reflexivity|].
  destruct (N.eqb_spec c 48); [lia|].
  cbn [Json.scan_uint] in H.
  destruct (Json.digit_of c) eqn:E; [exact (digit_of_range _ _ E)|].
  discriminate.
Qed.

(** A number starts with a digit, or with a minus sign and a digit. *)
Lemma match_number_head s v s' :
  Json.match_number s = Some (v, s') ->
  exists c r, s = c :: r
    /\ ((48 <= c <= 57)%N
        \/ (c = 45%N /\ exists c' r', r = c' :: r' /\ (48 <= c' <= 57)%N)).
Proof.
  unfold Json.match_number. destruct s as [|c r]; [discriminate|]. chars.
  intros H. exists c, r. split; [reflexivity|].
  destruct (N.eqb_spec c 45) as [->|Hc].
  - right. split; [reflexivity|].
    destruct (Json.scan_int_part r) as [[ip s2]|] eqn:E; [|discriminate].
    destruct (scan_int_part_head _ _ _ E) as (c' & r' & -> & Hd). eauto.
  - left.
    destruct (Json.scan_int_part (c :: r)) as [[ip s2]|] eqn:E; [|discriminate].
    destruct (scan_int_part_head _ _ _ E) as (c' & r' & [= <- <-] & Hd).
    exact Hd.
Qed.

(** Replace every ASCII literal by its list of code points. *)
Ltac texts :=
  repeat match goal with
         | |- context [u ?a] =>
             let v := eval compute in (u a) in change (u a) with v
         end.

Lemma strip_prefix_ne a p c r :
  a <> c -> Json.strip_prefix (a :: p) (c :: r) = None.
Proof.
  intros H. cbn [Json.strip_prefix]. now destruct (N.eqb_spec a c).
Qed.

Lemma strip_prefix_same a p r :
  Json.strip_prefix (a :: p) (a :: r) = Json.strip_prefix p r.
Proof.
  cbn [Json.strip_prefix]. now rewrite N.eqb_refl.
Qed.

Lemma literal_digit c r :
  (48 <= c <= 57)%N -> Json.literal (c :: r) = None.
Proof.
  intros H. unfold Json.literal. texts.
  rewrite !strip_prefix_ne by lia. reflexivity.
Qed.

Lemma literal_minus_digit c r :
  (48 <= c <= 57)%N -> Json.literal (45%N :: c :: r) = None.
Proof.
  intros H. unfold Json.literal. texts.
  rewrite !(strip_prefix_ne _ _ 45%N) by lia.
  rewrite strip_prefix_same, strip_prefix_ne by lia. reflexivity.
Qed.

(** The scanner reads a number wherever one starts. *)
Lemma scan_once_number fuel s v s' :
  Json.match_number s = Some (v, s') ->
  Json.scan_once (S fuel) s = Some (v, s').
Proof.
  intros H. destruct (match_number_head _ _ _ H) as (c & r & -> & Hc).
  cbn [Json.scan_once]. chars.
  destruct Hc as [Hc|(-> & c' & r' & -> & Hc')].
  - destruct (N.eqb_spec c 34); [lia|].
    destruct (N.eqb_spec c 123); [lia|].
    destruct (N.eqb_spec c 91); [lia|].
    now rewrite (literal_digit c r Hc).
  - cbn [N.eqb Pos.eqb]. now rewrite (literal_minus_digit c' r' Hc').
Qed.

Lemma closes_inert rest : closes rest = true -> inert rest = true.
Proof.
  destruct rest as [|c rest]; [reflexivity|]. unfold closes, inert. chars.
  rewrite !orb_true_iff, !N.eqb_eq. intros [[->| ->]| ->]; reflexivity.
Qed.

Lemma float_ok_reads x :
  float_ok x = true ->
  match x with
  | PyFloat.nan | PyFloat.inf _ => True
  | _ => Json.match_number (PyFloat.repr x) = Some (PFloat x, [])
  end.
Proof.
  unfold float_ok. destruct x; auto;
    destruct (Json.match_number _) as [[[] [|]]|]; try discriminate;
    intros H; apply float_eqb_eq in H; now subst.
Qed.

(** The first character of an encoded term: not white space and not a
    closing bracket. *)
Definition starts_term (s : str) : Prop :=
  exists c r, s = c :: r /\ Json.is_ws c = false
              /\ (c =? 93)%N = false /\ (c =? 125)%N = false.

Lemma starts_term_number s v s' :
  Json.match_number s = Some (v, s') -> starts_term s.
Proof.
  intros H. destruct (match_number_head _ _ _ H) as (c & r & -> & Hc).
  exists c, r. split; [reflexivity|]. unfold Json.is_ws. chars.
  destruct Hc as [Hc|(-> & _)]; [|auto].
  rewrite !orb_false_iff, !N.eqb_neq. repeat split; lia.
Qed.

Lemma starts_term_dumps v : json_value v = true -> starts_term (JsonEnc.dumps v).
Proof.
  intros Hv. destruct v as [|[]|z|x|s|[|? ?]|[|? ?]];
    try (do 2 eexists; split; [reflexivity|]; repeat split; reflexivity).
  - apply (starts_term_number _ (PInt z) []).
    pose proof (match_number_int z [] eq_refl) as H.
    rewrite List.app_nil_r in H. exact H.
  - pose proof (float_ok_reads x Hv) as H.
    destruct x as [|[]|[]|];
      try (do 2 eexists; split; [reflexivity|]; repeat split; reflexivity).
    exact (starts_term_number _ _ _ H).
Qed.

Lemma skip_ws_term s rest : starts_term s -> Json.skip_ws (s ++ rest) = s ++ rest.
Proof.
  intros (c & r & -> & Hw & _). cbn [app Json.skip_ws]. now rewrite Hw.
Qed.

(** Scanning the encoding of [v] gives [v] back, with enough fuel and in
    front of anything that closes a term. *)
Definition reads_back (v : pyval) : Prop :=
  forall fuel rest,
    (weight v <= fuel)%nat -> closes rest = true ->
    Json.scan_once fuel (JsonEnc.dumps v ++ rest) = Some (v, rest).

Lemma skip_ws_nonws c s :
  Json.is_ws c = false -> Json.skip_ws (c :: s) = c :: s.
Proof.
  intros H. cbn [Json.skip_ws]. now rewrite H.
Qed.

Lemma skip_ws_space s : Json.skip_ws (32%N :: s) = Json.skip_ws s.
Proof. reflexivity. Qed.

Lemma join_cons2 sep p q l :
  join sep (p :: q :: l) = p ++ sep ++ join sep (q :: l).
Proof. reflexivity. Qed.

Lemma starts_term_join_dumps x l :
  json_value x = true ->
  exists c r, join (u ", ") (map JsonEnc.dumps (x :: l)) = c :: r
              /\ Json.is_ws c = false /\ (c =? 93)%N = false.
Proof.
  intros Hx. destruct (starts_term_dumps x Hx) as (c & r & E & Hw & Hb & _).
  destruct l as [|y l]; cbn [map].
  - exists c, r. cbn [join]. auto.
  - rewrite join_cons2, E. cbn [app]. eauto.
Qed.

Lemma parse_elems_dumps l :
  l <> [] -> Forall reads_back l -> forallb json_value l = true ->
  forall fuel rest,
    (list_sum (map (fun x => S (weight x)) l) <= fuel)%nat ->
    Json.parse_elems fuel (join (u ", ") (map JsonEnc.dumps l) ++ 93%N :: rest)
    = Some (l, rest).
Proof.
  intros Hne HF. induction HF as [|x l Hx HF IH]; [congruence|].
  intros Hj fuel rest Hfuel. cbn [forallb] in Hj.
  apply andb_true_iff in Hj. destruct Hj as [Hjx Hjl].
  cbn [map list_sum fold_right] in Hfuel.
  destruct fuel as [|f]; [lia|]. cbn [Json.parse_elems].
  destruct l as [|y l'].
  - cbn [map join].
    rewrite (Hx f (93%N :: rest)) by (try lia; reflexivity).
    reflexivity.
  - cbn [map]. rewrite join_cons2, <- !app_assoc.
    rewrite (Hx f) by (try lia; reflexivity).
    assert (Hy : json_value y = true).
    { cbn [forallb] in Hjl. now apply andb_true_iff in Hjl. }
    destruct (starts_term_join_dumps y l' Hy) as (c & r & E & Hw & _).
    change (JsonEnc.dumps y :: map JsonEnc.dumps l')
      with (map JsonEnc.dumps (y :: l')).
    change (u ", " ++ ?t) with (44%N :: 32%N :: t).
    rewrite (skip_ws_nonws 44) by reflexivity. cbv beta iota. chars.
    cbn [N.eqb Pos.eqb]. rewrite skip_ws_space.
    rewrite E at 1. cbn [app]. rewrite (skip_ws_nonws c) by exact Hw.
    change (c :: r ++ 93%N :: rest) with ((c :: r) ++ 93%N :: rest).
    rewrite <- E.
    rewrite IH; [reflexivity | congruence | exact Hjl |].
    cbn [map list_sum fold_right] in *. lia.
Qed.

Lemma dict_set_fresh acc k v :
  ~ In k (map fst acc) -> dict_set acc k v = acc ++ [(k, v)].
Proof.
  induction acc as [|[k' v'] acc IH]; intros Hk; [reflexivity|].
  cbn [dict_set]. cbn [map fst In] in Hk.
  destruct (str_eqb k' k) eqn:E.
  - apply str_eqb_eq in E. tauto.
  - cbn [app]. rewrite IH by tauto. reflexivity.
Qed.

Lemma distinct_NoDup l : distinct l = true -> NoDup l.
Proof.
  induction l as [|k l IH]; [constructor|]. cbn [distinct].
  rewrite andb_true_iff, negb_true_iff. intros [Hk Hl].
  constructor; [|auto]. intros Hin.
  assert (existsb (str_eqb k) l = true); [|congruence].
  apply existsb_exists. exists k. split; [exact Hin|]. now apply str_eqb_eq.
Qed.

(** One member of an object: key, colon, value, and what follows. *)
Lemma parse_member_step f k v acc tail :
  text_ok k = true -> json_value v = true -> reads_back v ->
  (weight v <= f)%nat -> closes tail = true -> ~ In k (map fst acc) ->
  Json.parse_members (S f)
    (JsonEnc.encode_str k ++ u ": " ++ JsonEnc.dumps v ++ tail) acc
  = match Json.skip_ws tail with
    | [] => None
    | c :: r4 =>
        if (c =? 125)%N then Some (acc ++ [(k, v)], r4)
        else if (c =? 44)%N
             then Json.parse_members f (Json.skip_ws r4) (acc ++ [(k, v)])
             else None
    end.
Proof.
  intros Hk Hv Hrb Hf Ht Hfresh.
  destruct (scanstring_encode_str k (u ": " ++ JsonEnc.dumps v ++ tail) Hk)
    as (body & -> & Hs).
  cbn [Json.parse_members]. chars. cbn [N.eqb Pos.eqb]. rewrite Hs.
  change (u ": " ++ ?t) with (58%N :: 32%N :: t).
  rewrite (skip_ws_nonws 58) by reflexivity. cbv beta iota.
  cbn [N.eqb Pos.eqb]. rewrite skip_ws_space.
  rewrite (skip_ws_term _ _ (starts_term_dumps v Hv)).
  rewrite (Hrb f tail Hf Ht).
  now rewrite (dict_set_fresh acc k v Hfresh).
Qed.

Lemma parse_members_dumps d :
  d <> [] -> Forall (fun kv => reads_back (snd kv)) d ->
  forallb (fun kv => text_ok (fst kv) && json_value (snd kv)) d = true ->
  forall fuel rest acc,
    NoDup (map fst (acc ++ d)) ->
    (list_sum (map (fun kv => S (weight (snd kv))) d) <= fuel)%nat ->
    Json.parse_members fuel
      (join (u ", ")
         (map (fun kv => JsonEnc.encode_str (fst kv) ++ u ": "
                         ++ JsonEnc.dumps (snd kv)) d)
       ++ 125%N :: rest) acc
    = Some (acc ++ d, rest).
Proof.
  intros Hne HF. induction HF as [|[k v] d Hx HF IH]; [congruence|].
  intros Hj fuel rest acc Hnd Hfuel. cbn [forallb fst snd] in Hj, Hx.
  apply andb_true_iff in Hj. destruct Hj as [Hjx Hjd].
  apply andb_true_iff in Hjx. destruct Hjx as [Hk Hv].
  cbn [map list_sum fold_right snd] in Hfuel.
  destruct fuel as [|f]; [lia|].
  assert (Hfresh : ~ In k (map fst acc)).
  { rewrite map_app in Hnd. cbn [map fst] in Hnd.
    apply NoDup_remove_2 in Hnd. intros Hin. apply Hnd.
    apply in_or_app. now left. }
  destruct d as [|[k2 v2] d'].
  - cbn [map join fst snd]. rewrite <- !app_assoc.
    rewrite (parse_member_step f k v acc (125%N :: rest) Hk Hv Hx);
      [reflexivity | lia | reflexivity | exact Hfresh].
  - cbn [map fst snd]. rewrite join_cons2, <- !app_assoc.
    change (u ", " ++ ?t) with (44%N :: 32%N :: t).
    rewrite (parse_member_step f k v acc _ Hk Hv Hx);
      [| lia | reflexivity | exact Hfresh].
    rewrite (skip_ws_nonws 44) by reflexivity. cbv beta iota.
    cbn [N.eqb Pos.eqb]. rewrite skip_ws_space.
    change ((JsonEnc.encode_str k2 ++ u ": " ++ JsonEnc.dumps v2)
            :: map (fun kv => JsonEnc.encode_str (fst kv) ++ u ": "
                              ++ JsonEnc.dumps (snd kv)) d')
      with (map (fun kv => JsonEnc.encode_str (fst kv) ++ u ": "
                           ++ JsonEnc.dumps (snd kv)) ((k2, v2) :: d')).
    assert (Es : forall t,
               Json.skip_ws
                 (join (u ", ")
                    (map (fun kv => JsonEnc.encode_str (fst kv) ++ u ": "
                                    ++ JsonEnc.dumps (snd kv))
                       ((k2, v2) :: d')) ++ t)
               = join (u ", ")
                   (map (fun kv => JsonEnc.encode_str (fst kv) ++ u ": "
                                   ++ JsonEnc.dumps (snd kv))
                      ((k2, v2) :: d')) ++ t).
    { intros t. apply skip_ws_term. exists 34%N.
      destruct d'; cbn [map join fst snd]; eexists;
        (split; [reflexivity|]); repeat split; reflexivity. }
    rewrite Es.
    rewrite IH; [| congruence | exact Hjd | | ].
    + now rewrite <- app_assoc.
    + now rewrite <- app_assoc.
    + cbn [map list_sum fold_right snd] in *. lia.
Qed.

Lemma Forall_reads_back (l : list pyval) :
  Forall (fun x => json_value x = true -> reads_back x) l ->
  forallb json_value l = true -> Forall reads_back l.
Proof.
  induction 1 as [|x l Hx _ IH]; intros Hj; [constructor|].
  cbn [forallb] in Hj. apply andb_true_iff in Hj. destruct Hj.
  constructor; auto.
Qed.

Lemma Forall_reads_back_members (d : list (list N * pyval)) :
  Forall (fun kv => json_value (snd kv) = true -> reads_back (snd kv)) d ->
  forallb (fun kv => text_ok (fst kv) && json_value (snd kv)) d = true ->
  Forall (fun kv => reads_back (snd kv)) d.
Proof.
  induction 1 as [|x l Hx _ IH]; intros Hj; [constructor|].
  cbn [forallb] in Hj. apply andb_true_iff in Hj. destruct Hj as [Hj ?].
  apply andb_true_iff in Hj. destruct Hj. constructor; auto.
Qed.

Lemma scan_once_array f r :
  Json.scan_once (S f) (91%N :: r)
  = match Json.skip_ws r with
    | [] => None
    | c' :: r' =>
        if (c' =? 93)%N then Some (PList [], r')
        else match Json.parse_elems f (c' :: r') with
             | Some (l, rest) => Some (PList l, rest)
             | None => None
             end
    end.
Proof. reflexivity. Qed.

Lemma scan_once_object f r :
  Json.scan_once (S f) (123%N :: r)
  = match Json.skip_ws r with
    | [] => None
    | c' :: r' =>
        if (c' =? 125)%N then Some (PDict [], r')
        else match Json.parse_members f (c' :: r') [] with
             | Some (d, rest) => Some (PDict d, rest)
             | None => None
             end
    end.
Proof. reflexivity. Qed.

Lemma scan_once_string f r :
  Json.scan_once (S f) (34%N :: r)
  = match Json.scanstring r with
    | Some (t, rest) => Some (PStr t, rest)
    | None => None
    end.
Proof. reflexivity. Qed.

(** The scanner reads every JSON value back from its encoding. *)
Lemma reads_back_all v : json_value v = true -> reads_back v.
Proof.
  induction v using pyval_nested_ind; intros Hv fuel rest Hf Hc;
    (destruct fuel as [|f]; [cbn in Hf; lia|]).
  - reflexivity.
  - destruct b; reflexivity.
  - apply scan_once_number, match_number_int, closes_inert, Hc.
  - pose proof (float_ok_reads x Hv) as H.
    destruct x as [|[]|[]|]; try reflexivity;
      apply scan_once_number;
      apply (match_number_app _ _ [] rest H), closes_inert, Hc.
  - cbn [JsonEnc.dumps].
    destruct (scanstring_encode_str s rest Hv) as (body & -> & Hs).
    now rewrite scan_once_string, Hs.
  - cbn [json_value] in Hv. pose proof (Forall_reads_back l H Hv) as HF.
    destruct l as [|x l]; [reflexivity|].
    cbn [JsonEnc.dumps]. chars. rewrite <- app_comm_cons, <- app_assoc.
    cbn [app]. rewrite scan_once_array.
    assert (Hx : json_value x = true).
    { cbn [forallb] in Hv. now apply andb_true_iff in Hv. }
    destruct (starts_term_join_dumps x l Hx) as (c & r & E & Hw & Hb).
    rewrite E at 1. cbn [app]. rewrite (skip_ws_nonws c) by exact Hw.
    rewrite Hb.
    change (c :: r ++ 93%N :: rest) with ((c :: r) ++ 93%N :: rest).
    rewrite <- E, parse_elems_dumps; auto; [congruence|].
    cbn [weight] in Hf. lia.
  - cbn [json_value] in Hv. apply andb_true_iff in Hv.
    destruct Hv as [Hd Hv].
    pose proof (Forall_reads_back_members d H Hv) as HF.
    destruct d as [|[k x] d]; [reflexivity|].
    cbn [JsonEnc.dumps]. chars. rewrite <- app_comm_cons, <- app_assoc.
    cbn [app]. rewrite scan_once_object.
    set (J := join (u ", ")
                (map (fun kv => JsonEnc.encode_str (fst kv) ++ u ": "
                                ++ JsonEnc.dumps (snd kv)) ((k, x) :: d))).
    assert (E : exists r, J = 34%N :: r).
    { unfold J. destruct d; cbn [map join fst snd]; eexists; reflexivity. }
    destruct E as (r & E).
    rewrite E at 1. cbn [app]. rewrite (skip_ws_nonws 34) by reflexivity.
    cbn [N.eqb Pos.eqb].
    change (34%N :: r ++ 125%N :: rest) with ((34%N :: r) ++ 125%N :: rest).
    rewrite <- E. unfold J.
    rewrite (parse_members_dumps ((k, x) :: d) ltac:(discriminate)
               HF Hv f rest []);
      [reflexivity | now apply distinct_NoDup |].
    cbn [weight] in Hf. lia.
Qed.

Lemma weight_le_length v :
  json_value v = true -> (weight v <= List.length (JsonEnc.dumps v))%nat.
Proof.
  induction v using pyval_nested_ind; intros Hv;
    try (destruct (starts_term_dumps _ Hv) as (c & r & -> & _);
         cbn; lia).
  - destruct l as [|x l]; [cbn; lia|].
    cbn [JsonEnc.dumps weight]. rewrite length_cons, length_app, join_length.
    rewrite !length_map. cbn [List.length Nat.pred].
    cbn [json_value] in Hv.
    assert (K : (list_sum (map (fun x => S (weight x)) (x :: l))
                 <= list_sum (map (@List.length _)
                                (map JsonEnc.dumps (x :: l)))
                    + List.length (x :: l))%nat).
    { clear -H Hv. induction H as [|y l' Hy _ IH]; [cbn; lia|].
      cbn [forallb] in Hv. apply andb_true_iff in Hv. destruct Hv as [H1 H2].
      specialize (Hy H1). specialize (IH H2).
      unfold list_sum in *. cbn [map fold_right List.length] in *. lia. }
    cbn [List.length] in K. change (List.length (u ", ")) with 2%nat. lia.
  - destruct d as [|kv d]; [cbn; lia|].
    cbn [JsonEnc.dumps weight]. rewrite length_cons, length_app, join_length.
    rewrite !length_map. cbn [List.length Nat.pred].
    cbn [json_value] in Hv. apply andb_true_iff in Hv. destruct Hv as [_ Hv].
    assert (K : (list_sum (map (fun kv => S (weight (snd kv))) (kv :: d))
                 <= list_sum
                      (map (@List.length _)
                         (map (fun kv => JsonEnc.encode_str (fst kv) ++ u ": "
                                         ++ JsonEnc.dumps (snd kv)) (kv :: d)))
                    + List.length (kv :: d))%nat).
    { clear -H Hv. induction H as [|y l' Hy _ IH]; [cbn; lia|].
      cbn [forallb] in Hv. apply andb_true_iff in Hv. destruct Hv as [H1 H2].
      apply andb_true_iff in H1. destruct H1 as [_ H1].
      specialize (Hy H1). specialize (IH H2).
      unfold list_sum in *. cbn [map fold_right List.length] in *.
      rewrite !length_app. lia. }
    cbn [List.length] in K. change (List.length (u ", ")) with 2%nat. lia.
Qed.

(** [json.loads(json.dumps(v))] returns [v]. *)
Lemma loads_dumps v :
  json_value v = true -> Json.loads (JsonEnc.dumps v) = Return v.
Proof.
  intros Hv. unfold Json.loads, Json.decode.
  pose proof (skip_ws_term _ [] (starts_term_dumps v Hv)) as Hs.
  rewrite List.app_nil_r in Hs. rewrite Hs.
  pose proof (reads_back_all v Hv (2 * List.length (JsonEnc.dumps v) + 2)%nat []) as H.
  rewrite List.app_nil_r in H. rewrite H; [reflexivity | | reflexivity].
  pose proof (weight_le_length v Hv). lia.
Qed.

(** ** The canonicalizer *)

Lemma canon_elems_rec l :
  Forall (fun x => canon_text x (rec x)) l -> canon_elems l (map rec l).
Proof.
  induction 1; simpl; constructor; auto.
Qed.

Lemma canon_pairs_rec d :
  Forall (fun kv => canon_text (snd kv) (rec (snd kv))) d ->
  canon_pairs d (map (fun kv => fst kv ++ ch ":" :: rec (snd kv)) d).
Proof.
  induction 1 as [|[k x] d H _ IH]; simpl; constructor; auto.
Qed.

Lemma rec_canon_text x : canon_text x (rec x).
Proof.
  induction x using pyval_nested_ind;
    try (apply CT_scalar; reflexivity).
  - simpl. apply CT_array. now apply canon_elems_rec.
  - simpl. apply CT_object. now apply canon_pairs_rec.
Qed.

Lemma canon_text_rec x t : canon_text x t -> rec x = t.
Proof.
  intros H.
  induction H using canon_text_mut
    with (P0 := fun l ts _ => map rec l = ts)
         (P1 := fun d ts _ =>
                  map (fun kv => fst kv ++ ch ":" :: rec (snd kv)) d = ts);
    simpl in *; try reflexivity; try congruence.
  destruct x; simpl in *; congruence.
Qed.

Lemma flatten_rule_structured x :
  is_text x = false -> flatten_rule x = Return (rec x).
Proof.
  destruct x; simpl; congruence.
Qed.

Lemma rec_plug p v : rec (plug p v) = render p (rec v).
Proof.
  induction p as [|pre p IH post|pre k p IH post]; simpl.
  - reflexivity.
  - now rewrite map_app, <- IH.
  - rewrite map_app. simpl. now rewrite <- IH.
Qed.

Lemma canon_text_fun x t t' : canon_text x t -> canon_text x t' -> t = t'.
Proof.
  intros H H'. apply canon_text_rec in H, H'. congruence.
Qed.

(** ** Decimal numerals *)

Lemma digits_value_acc d p :
  digits_value (uint_chars d) (Z.pos p) = Some (Z.pos (Pos.of_uint_acc d p)).
Proof.
  revert p. induction d; intros p; cbn [uint_chars digits_value Pos.of_uint_acc];
    try reflexivity;
    match goal with
    | |- context [(48 <=? ?c)%N] =>
        change ((48 <=? c) && (c <=? 57))%N with true; cbv iota
    end;
    match goal with
    | |- digits_value _ ?acc = Some (Z.pos (Pos.of_uint_acc _ ?q)) =>
        replace acc with (Z.pos q) by (cbn [Z.of_N]; lia); apply IHd
    end.
Qed.

Lemma digits_value_uint d :
  digits_value (uint_chars d) 0 = Some (Z.of_N (Pos.of_uint d)).
Proof.
  induction d; cbn [uint_chars digits_value Pos.of_uint]; try reflexivity;
    match goal with
    | |- context [(48 <=? ?c)%N] =>
        change ((48 <=? c) && (c <=? 57))%N with true; cbv iota
    end;
    [exact IHd | ..];
    match goal with
    | |- digits_value _ ?k = Some (Z.of_N (N.pos (Pos.of_uint_acc _ ?p))) =>
        change k with (Z.pos p); apply digits_value_acc
    end.
Qed.

Lemma uint_chars_first d :
  match uint_chars d with
  | [] => d = Decimal.Nil
  | c :: _ => (48 <= c <= 57)%N /\ (c = 48%N <-> exists l, d = Decimal.D0 l)
  end.
Proof.
  destruct d; cbn [uint_chars]; try reflexivity;
    (split; [lia|]); split; intros H; try discriminate;
    try (destruct H as (l & H); discriminate); eauto.
Qed.

Lemma pos_to_uint_head p :
  match uint_chars (Pos.to_uint p) with
  | [] => False
  | c :: _ => (48 < c <= 57)%N
  end.
Proof.
  pose proof (uint_chars_first (Pos.to_uint p)) as H.
  destruct (uint_chars (Pos.to_uint p)) as [|c r].
  - exact (DecimalPos.Unsigned.to_uint_nonnil p H).
  - destruct H as [Hc Hz]. split; [|lia].
    destruct (N.eq_dec c 48) as [E|E]; [|lia]. exfalso.
    apply Hz in E. destruct E as (l & E).
    pose proof (pos_to_uint_unorm p) as U. rewrite E in U.
    unfold Decimal.unorm in U. cbn [Decimal.nzhead] in U.
    pose proof (DecimalPos.Unsigned.of_to p) as O. rewrite E in O.
    destruct (Decimal.nzhead l) eqn:El; try discriminate U.
    + injection U as <-. discriminate O.
    + exact (DecimalFacts.nzhead_nonzero _ _ El).
Qed.

(** [str] of an [int] is its decimal numeral: read digit by digit it
    gives the number back, and it has no redundant zero and no [-0]. *)
Lemma int_repr_numeral z :
  numeral_value (int_repr z) = Some z
  /\ numeral_canonical (int_repr z) = true.
Proof.
  unfold int_repr. destruct z as [|p|p]; cbn [Z.to_int].
  - split; reflexivity.
  - pose proof (pos_to_uint_head p) as H.
    pose proof (digits_value_uint (Pos.to_uint p)) as D.
    rewrite DecimalPos.Unsigned.of_to in D.
    destruct (uint_chars (Pos.to_uint p)) as [|c r]; [contradiction|].
    unfold numeral_value, numeral_canonical.
    destruct (N.eqb_spec c 45); [lia|]. split; [exact D|].
    destruct r; [reflexivity|].
    destruct (N.eqb_spec c 48); [lia | reflexivity].
  - pose proof (pos_to_uint_head p) as H.
    pose proof (digits_value_uint (Pos.to_uint p)) as D.
    rewrite DecimalPos.Unsigned.of_to in D.
    destruct (uint_chars (Pos.to_uint p)) as [|c r]; [contradiction|].
    change (ch "-") with 45%N.
    unfold numeral_value, numeral_canonical. cbn [N.eqb Pos.eqb].
    rewrite D. split; [reflexivity|].
    destruct (N.eqb_spec c 48); [lia | reflexivity].
Qed.

(** ** The canonicalizer under limits *)

Lemma traverse_map {A B} (f : A -> outcome B) (g : A -> B) (l : list A) :
  (forall x, In x l -> f x = Return (g x)) ->
  traverse f l = Return (map g l).
Proof.
  induction l as [|x l IH]; intros H; [reflexivity|].
  cbn [traverse map]. rewrite (H x (or_introl eq_refl)).
  fold (traverse f l). rewrite IH; [reflexivity|].
  intros y Hy. apply H. now right.
Qed.

Lemma traverse_Return {A B} (f : A -> outcome B) (l : list A) ys :
  traverse f l = Return ys -> Forall2 (fun x y => f x = Return y) l ys.
Proof.
  revert ys. induction l as [|x l IH]; intros ys H; cbn [traverse] in H.
  - injection H as <-. constructor.
  - destruct (f x) as [y|e] eqn:Ex; [|discriminate].
    fold (traverse f l) in H.
    destruct (traverse f l) as [ys'|e]; [|discriminate].
    injection H as <-. constructor; [exact Ex | now apply IH].
Qed.

Lemma traverse_Raise {A B} (f : A -> outcome B) (l : list A) e :
  traverse f l = Raise e -> exists x, In x l /\ f x = Raise e.
Proof.
  induction l as [|x l IH]; intros H; cbn [traverse] in H; [discriminate|].
  destruct (f x) as [y|e'] eqn:Ex.
  - fold (traverse f l) in H.
    destruct (traverse f l) as [ys'|e'']; [discriminate|].
    injection H as ->. destruct (IH eq_refl) as (x' & Hx' & E).
    exists x'. split; [now right | exact E].
  - injection H as ->. exists x. split; [now left | exact Ex].
Qed.

Lemma traverse_cons {A B} (f : A -> outcome B) (x : A) (l : list A) :
  traverse f (x :: l)
  = match f x with
    | Raise e => Raise e
    | Return y =>
        match traverse f l with
        | Raise e => Raise e
        | Return ys => Return (y :: ys)
        end
    end.
Proof. reflexivity. Qed.

Lemma rec_in_list L a l :
  rec_in L (S a) (PList l)
  = if Nat.ltb a (S (call_cost L)) then Raise RecursionError
    else match traverse (rec_in L (a - S (call_cost L))) l with
         | Return parts => Return (join (u " ") parts)
         | Raise e => Raise e
         end.
Proof. reflexivity. Qed.

Lemma rec_in_dict L a d :
  rec_in L (S a) (PDict d)
  = if Nat.ltb a (S (call_cost L)) then Raise RecursionError
    else match traverse
                 (fun kv =>
                    match rec_in L (a - S (call_cost L)) (snd kv) with
                    | Return t => Return (fst kv ++ ch ":" :: t)
                    | Raise e => Raise e
                    end) d with
         | Return parts => Return (join (u " ") parts)
         | Raise e => Raise e
         end.
Proof. reflexivity. Qed.

Lemma rec_in_zero L x : rec_in L 0 x = Raise RecursionError.
Proof. now destruct x. Qed.

Lemma fits_zero L x : fits L 0 x = false.
Proof. now destruct x. Qed.

Lemma fits_list L a l :
  fits L (S a) (PList l)
  = Nat.leb (S (call_cost L)) a
    && forallb (fits L (a - S (call_cost L))) l.
Proof. reflexivity. Qed.

Lemma fits_dict L a d :
  fits L (S a) (PDict d)
  = Nat.leb (S (call_cost L)) a
    && forallb (fun kv => fits L (a - S (call_cost L)) (snd kv)) d.
Proof. reflexivity. Qed.

(** Within the limits [rec] gives the canonical text. *)
Lemma rec_in_fits L x :
  forall a, fits L a x = true -> rec_in L a x = Return (rec x).
Proof.
  induction x as [| b | z | f | s | l IH | d IH] using pyval_nested_ind;
    intros [|a] H; try (rewrite fits_zero in H; discriminate).
  - cbn [fits] in H. apply Nat.leb_le in H. cbn [rec_in str_in rec].
    destruct (Nat.ltb_spec a (call_cost L)); [lia | reflexivity].
  - cbn [fits] in H. apply Nat.leb_le in H. cbn [rec_in str_in rec].
    destruct (Nat.ltb_spec a (call_cost L)); [lia | reflexivity].
  - cbn [fits] in H. apply andb_true_iff in H. destruct H as [H1 H2].
    apply Nat.leb_le in H1. apply negb_true_iff in H2.
    cbn [rec_in str_in rec]. rewrite H2.
    destruct (Nat.ltb_spec a (call_cost L)); [lia | reflexivity].
  - cbn [fits] in H. apply Nat.leb_le in H. cbn [rec_in str_in rec].
    destruct (Nat.ltb_spec a (call_cost L)); [lia | reflexivity].
  - reflexivity.
  - rewrite fits_list in H. apply andb_true_iff in H. destruct H as [H1 H2].
    apply Nat.leb_le in H1. rewrite rec_in_list.
    destruct (Nat.ltb_spec a (S (call_cost L))); [lia|].
    rewrite (traverse_map _ rec); [reflexivity|].
    intros x Hx. rewrite Forall_forall in IH. apply IH; [exact Hx|].
    rewrite forallb_forall in H2. now apply H2.
  - rewrite fits_dict in H. apply andb_true_iff in H. destruct H as [H1 H2].
    apply Nat.leb_le in H1. rewrite rec_in_dict.
    destruct (Nat.ltb_spec a (S (call_cost L))); [lia|].
    rewrite (traverse_map _ (fun kv => fst kv ++ ch ":" :: rec (snd kv)));
      [reflexivity|].
    intros kv Hkv. rewrite Forall_forall in IH. rewrite (IH kv Hkv);
      [reflexivity|].
    rewrite forallb_forall in H2. now apply H2.
Qed.

(** Outside them it raises, for want of frames or for an [int] that is
    too long. *)
Lemma rec_in_unfit L x :
  forall a, fits L a x = false ->
            exists e, rec_in L a x = Raise e
                      /\ (e = RecursionError \/ e = ValueError).
Proof.
  induction x as [| b | z | f | s | l IH | d IH] using pyval_nested_ind;
    intros [|a] H;
    try (exists RecursionError; split; [apply rec_in_zero | now left]).
  - cbn [fits] in H. apply Nat.leb_gt in H. cbn [rec_in str_in].
    destruct (Nat.ltb_spec a (call_cost L)); [|lia]. eauto.
  - cbn [fits] in H. apply Nat.leb_gt in H. cbn [rec_in str_in].
    destruct (Nat.ltb_spec a (call_cost L)); [|lia]. eauto.
  - cbn [fits] in H. cbn [rec_in str_in].
    destruct (Nat.ltb_spec a (call_cost L)); [eauto|].
    destruct (Nat.leb_spec (call_cost L) a); [|lia]. cbn [andb] in H.
    apply negb_false_iff in H. rewrite H. eauto.
  - cbn [fits] in H. apply Nat.leb_gt in H. cbn [rec_in str_in].
    destruct (Nat.ltb_spec a (call_cost L)); [|lia]. eauto.
  - discriminate.
  - rewrite fits_list in H. rewrite rec_in_list.
    destruct (Nat.ltb_spec a (S (call_cost L))); [eauto|].
    destruct (Nat.leb_spec (S (call_cost L)) a); [|lia]. cbn [andb] in H.
    assert (K : exists x, In x l /\ fits L (a - S (call_cost L)) x = false).
    { clear -H. induction l as [|x l IHl]; [discriminate|].
      cbn [forallb] in H. destruct (fits L _ x) eqn:Ex.
      - destruct (IHl H) as (y & Hy & Ey). exists y. split; [now right|auto].
      - exists x. split; [now left | exact Ex]. }
    clear H. revert K IH. generalize (a - S (call_cost L))%nat as a'.
    intros a'. induction l as [|x l IHl]; intros (y & Hy & Ey) IH;
      [contradiction|].
    apply Forall_cons_iff in IH. destruct IH as [IHx IHr].
    rewrite traverse_cons.
    destruct (fits L a' x) eqn:Ex.
    + rewrite (rec_in_fits L x a' Ex).
      destruct Hy as [->|Hy]; [congruence|].
      destruct (IHl (ex_intro _ y (conj Hy Ey)) IHr) as (e & He & Hk).
      destruct (traverse (rec_in L a') l); [discriminate|].
      injection He as ->. eauto.
    + destruct (IHx a' Ex) as (e & -> & Hk). eauto.
  - rewrite fits_dict in H. rewrite rec_in_dict.
    destruct (Nat.ltb_spec a (S (call_cost L))); [eauto|].
    destruct (Nat.leb_spec (S (call_cost L)) a); [|lia]. cbn [andb] in H.
    assert (K : exists kv, In kv d
                           /\ fits L (a - S (call_cost L)) (snd kv) = false).
    { clear -H. induction d as [|x d IHd]; [discriminate|].
      cbn [forallb] in H. destruct (fits L _ (snd x)) eqn:Ex.
      - destruct (IHd H) as (y & Hy & Ey). exists y. split; [now right|auto].
      - exists x. split; [now left | exact Ex]. }
    clear H. revert K IH. generalize (a - S (call_cost L))%nat as a'.
    intros a'. induction d as [|x d IHd]; intros (y & Hy & Ey) IH;
      [contradiction|].
    apply Forall_cons_iff in IH. destruct IH as [IHx IHr].
    rewrite traverse_cons.
    destruct (fits L a' (snd x)) eqn:Ex.
    + rewrite (rec_in_fits L (snd x) a' Ex).
      destruct Hy as [->|Hy]; [congruence|].
      destruct (IHd (ex_intro _ y (conj Hy Ey)) IHr) as (e & He & Hk).
      destruct (traverse _ d); [discriminate|].
      injection He as ->. eauto.
    + destruct (IHx a' Ex) as (e & -> & Hk). eauto.
Qed.

(** [rec] returns exactly within the limits, and then the canonical
    text. *)
Lemma rec_in_spec L a x t :
  rec_in L a x = Return t <-> fits L a x = true /\ t = rec x.
Proof.
  split.
  - intros H. destruct (fits L a x) eqn:E.
    + rewrite (rec_in_fits L x a E) in H. injection H as <-. auto.
    + destruct (rec_in_unfit L x a E) as (e & He & _). congruence.
  - intros [H ->]. now apply rec_in_fits.
Qed.

Lemma rec_in_raises L a x e :
  rec_in L a x = Raise e -> e = RecursionError \/ e = ValueError.
Proof.
  intros H. destruct (fits L a x) eqn:E.
  - rewrite (rec_in_fits L x a E) in H. discriminate.
  - destruct (rec_in_unfit L x a E) as (e' & He & Hk). congruence.
Qed.



Lemma flatten_rule_total x : exists t, flatten_rule x = Return t.
Proof.
  destruct x; try (eexists; reflexivity).
  unfold flatten_rule. simpl. destruct (Json.loads s); eexists; reflexivity.
Qed.

(** C5 (as amended).  [flatten_rule] raises only for want of
    interpreter resources.  On a rule that is not a string it returns
    exactly when the rule fits the limits, and then the canonical text;
    otherwise [rec], which runs outside the [try], raises
    [RecursionError] (nesting deeper than the frames left) or
    [ValueError] (an [int] with more digits than the interpreter
    converts).  On a string it returns the string itself whenever
    [json.loads] raises, whatever the exception; when [json.loads]
    returns, the parsed value is canonicalized under the same limits.
    ["{bad json"] does not parse and comes back unchanged under all
    limits. *)
Theorem flatten_rule_raises_only_at_limits (L : limits)
  (loads : list N -> outcome pyval) :
  (forall x t, is_text x = false ->
     (flatten_rule_in L loads x = Return t
      <-> fits L (py_frames L) x = true /\ t = rec x))
  /\ (forall s e, loads s = Raise e ->
        flatten_rule_in L loads (PStr s) = Return s)
  /\ (forall s parsed t, loads s = Return parsed ->
        (flatten_rule_in L loads (PStr s) = Return t
         <-> fits L (py_frames L) parsed = true /\ t = rec parsed))
  /\ (forall x e, flatten_rule_in L loads x = Raise e ->
                  e = RecursionError \/ e = ValueError)
  /\ Json.loads (u "{bad json") = Raise JSONDecodeError
  /\ flatten_rule_in L Json.loads (PStr (u "{bad json"))
     = Return (u "{bad json").
Proof.
  split; [|split; [|split; [|split; [|split]]]].
  - intros x t Hx. rewrite <- rec_in_spec. now destruct x.
  - intros s e H. cbn [flatten_rule_in]. now rewrite H.
  - intros s parsed t H. cbn [flatten_rule_in]. rewrite H.
    apply rec_in_spec.
  - intros x e H.
    destruct x; cbn [flatten_rule_in] in H;
      try exact (rec_in_raises _ _ _ _ H).
    destruct (loads s); [exact (rec_in_raises _ _ _ _ H) | discriminate].
  - vm_compute. reflexivity.
  - assert (E : Json.loads (u "{bad json") = Raise JSONDecodeError)
      by (vm_compute; reflexivity).
    cbn [flatten_rule_in]. now rewrite E.
Qed.

Lemma flatten_rule_raises_only_at_limits_witness :
  flatten_rule_in cpython_311 Json.loads
    (PStr (u "age > 18"))
  = Return (u "age > 18").
Proof.
  destruct (flatten_rule_raises_only_at_limits cpython_311 Json.loads)
    as (_ & H & _).
  apply (H _ JSONDecodeError). vm_compute. reflexivity.
Defined.

(** C5 as stated fails: [rec] and [str] run outside the [try].  Under
    CPython's default limits the integer [10 ** 4300], which has 4301
    digits, raises [ValueError], and a list nested a thousand deep
    raises [RecursionError]; neither is a string, so no parser is
    involved. *)
Lemma flatten_rule_raises_on_long_int :
  (forall loads,
      flatten_rule_in cpython_311 loads (PInt (10 ^ 4300)) = Raise ValueError)
  /\ (forall loads,
        flatten_rule_in cpython_311 loads
          (Nat.iter 1000 (fun v => PList [v]) PNone)
        = Raise RecursionError).
Proof.
  split; intros loads; vm_compute; reflexivity.
Qed.

(** C10.  Only a top-level string is parsed.  On an object or array the
    result does not depend on the JSON parser at all, and a string at any
    position inside it appears verbatim in the text, also when it is
    valid JSON: ["[1,2]"] inside an array stays ["[1,2]"], while as the
    top-level argument it is parsed and becomes ["1 2"]. *)
Theorem flatten_rule_parses_top_level_only (p : path) (Hp : is_here p = false) :
  (forall loads s,
      flatten_rule_with loads (plug p (PStr s)) = Return (render p s))
  /\ (forall s, flatten_rule (plug p (PStr s)) = Return (render p s))
  /\ flatten_rule (PList [PStr (u "[1,2]")]) = Return (u "[1,2]")
  /\ flatten_rule (PDict [(u "k", PStr (u "[1,2]"))]) = Return (u "k:[1,2]")
  /\ Json.loads (u "[1,2]") = Return (PList [PInt 1; PInt 2])
  /\ flatten_rule (PStr (u "[1,2]")) = Return (u "1 2").
Proof.
  assert (H : forall loads s,
             flatten_rule_with loads (plug p (PStr s)) = Return (render p s)).
  { intros loads s. pose proof (rec_plug p (PStr s)) as E.
    simpl in E. rewrite <- E.
    destruct p; [discriminate| |]; reflexivity. }
  split; [exact H|]. split; [intros s; apply H|].
  repeat split; vm_compute; reflexivity.
Qed.

Lemma flatten_rule_parses_top_level_only_witness :
  is_here (Elem [PInt 7] Here []) = false
  /\ flatten_rule (plug (Elem [PInt 7] Here []) (PStr (u "[true]")))
     = Return (u "7 [true]").
Proof.
  split; [reflexivity|].
  exact (proj1 (proj2
    (flatten_rule_parses_top_level_only (Elem [PInt 7] Here []) eq_refl))
    (u "[true]")).
Defined.




(** ** Selecting and sorting rows *)

Local Open Scope nat_scope.

Lemma take_rows_cons {A} (i : nat) (p : list nat) (l : list A) :
  take_rows (i :: p) l
  = match nth_error l i with Some x => [x] | None => [] end ++ take_rows p l.
Proof. reflexivity. Qed.

Lemma take_rows_app {A} (p q : list nat) (l : list A) :
  take_rows (p ++ q) l = take_rows p l ++ take_rows q l.
Proof. apply flat_map_app. Qed.

Lemma flat_map_ext_on {A B} (f g : A -> list B) (l : list A) :
  (forall x, In x l -> f x = g x) -> flat_map f l = flat_map g l.
Proof.
  induction l as [|x l IH]; intros H; [reflexivity|].
  cbn [flat_map]. rewrite (H x (or_introl eq_refl)), IH; [reflexivity|].
  intros y Hy. apply H. now right.
Qed.

Lemma take_rows_seq {A} (l : list A) :
  take_rows (seq 0 (List.length l)) l = l.
Proof.
  induction l as [|x l IH] using rev_ind; [reflexivity|].
  rewrite length_app, Nat.add_comm. cbn [List.length Nat.add].
  rewrite seq_S, take_rows_app. cbn [Nat.add]. f_equal.
  - transitivity (take_rows (seq 0 (List.length l)) l); [|exact IH].
    unfold take_rows. apply flat_map_ext_on.
    intros i Hi. apply in_seq in Hi. now rewrite nth_error_app1 by lia.
  - cbn. rewrite nth_error_app2, Nat.sub_diag by lia. reflexivity.
Qed.

Lemma take_rows_map {A B} (f : A -> B) (p : list nat) (l : list A) :
  map f (take_rows p l) = take_rows p (map f l).
Proof.
  induction p as [|i p IH]; [reflexivity|].
  rewrite !take_rows_cons, map_app, IH, nth_error_map.
  now destruct (nth_error l i).
Qed.

Lemma take_rows_rev {A} (p : list nat) (l : list A) :
  take_rows (rev p) l = rev (take_rows p l).
Proof.
  induction p as [|i p IH]; [reflexivity|].
  cbn [rev]. rewrite take_rows_app, IH, !take_rows_cons.
  cbn [take_rows flat_map]. rewrite rev_app_distr, List.app_nil_r.
  now destruct (nth_error l i).
Qed.

Lemma take_rows_perm {A} (p q : list nat) (l : list A) :
  Permutation p q -> Permutation (take_rows p l) (take_rows q l).
Proof.
  intros H. unfold take_rows. now apply Permutation_flat_map.
Qed.

Lemma nth_error_rev_seq n i :
  nth_error (rev (seq 0 n)) i = if i <? n then Some (n - 1 - i) else None.
Proof.
  destruct (Nat.ltb_spec i n) as [H|H].
  - rewrite nth_error_rev, length_seq. replace (i <? n) with true
      by (symmetry; now apply Nat.ltb_lt).
    rewrite nth_error_seq. replace (n - S i <? n) with true
      by (symmetry; apply Nat.ltb_lt; lia). f_equal. lia.
  - apply nth_error_None. rewrite length_rev, length_seq. exact H.
Qed.

(** Selecting through the reversed positions is selecting from the
    reversed list. *)
Lemma take_rows_reversed {A} (p : list nat) (l : list A) :
  take_rows (take_rows p (rev (seq 0 (List.length l)))) l = take_rows p (rev l).
Proof.
  induction p as [|i p IH]; [reflexivity|].
  rewrite !take_rows_cons, take_rows_app, IH. f_equal.
  rewrite nth_error_rev_seq.
  destruct (Nat.ltb_spec i (List.length l)) as [H|H].
  - rewrite take_rows_cons. cbn [take_rows flat_map]. rewrite List.app_nil_r.
    rewrite (nth_error_rev i l).
    replace (i <? List.length l) with true by (symmetry; now apply Nat.ltb_lt).
    replace (List.length l - 1 - i) with (List.length l - S i) by lia.
    reflexivity.
  - replace (nth_error (rev l) i) with (@None A); [reflexivity|].
    symmetry. apply nth_error_None. now rewrite length_rev.
Qed.

Lemma StronglySorted_map_inv {A B} (R : B -> B -> Prop) (f : A -> B) l :
  StronglySorted R (map f l) ->
  StronglySorted (fun x y => R (f x) (f y)) l.
Proof.
  induction l as [|x l IH]; intros H; [constructor|].
  cbn [map] in H. inversion H as [|? ? Hl Hx]; subst.
  constructor; [now apply IH|]. now rewrite Forall_map in Hx.
Qed.

Lemma StronglySorted_snoc {A} (R : A -> A -> Prop) (l : list A) (x : A) :
  StronglySorted R l -> Forall (fun y => R y x) l ->
  StronglySorted R (l ++ [x]).
Proof.
  induction 1 as [|a t Ht IH Ha]; intros Hx.
  - repeat constructor.
  - inversion Hx as [|? ? Hax Htx]; subst. cbn [app]. constructor.
    + now apply IH.
    + apply Forall_app. split; [exact Ha | now repeat constructor].
Qed.

Lemma StronglySorted_rev {A} (R : A -> A -> Prop) (l : list A) :
  StronglySorted R l -> StronglySorted (fun x y => R y x) (rev l).
Proof.
  induction 1 as [|x l Hl IH Hx]; [constructor|].
  cbn [rev]. apply StronglySorted_snoc; [exact IH|].
  now apply Forall_rev.
Qed.

(** [sort_values(ascending=False)] keeps exactly the rows and puts them
    in non-increasing key order, whatever sort meets numpy's contract. *)
Lemma sort_values_desc_spec {A score} (leb : score -> score -> bool)
  (argsort : list score -> list nat) (key : A -> score) (rows : list A) :
  sorts leb argsort ->
  Permutation (sort_values_desc argsort key rows) rows
  /\ StronglySorted (fun x y => leb (key y) (key x) = true)
       (sort_values_desc argsort key rows).
Proof.
  intros Hs. unfold sort_values_desc, nargsort_desc.
  rewrite take_rows_rev, length_map, take_rows_reversed.
  destruct (Hs (rev (map key rows))) as [Hp Hsorted].
  split.
  - rewrite <- Permutation_rev.
    transitivity (rev rows); [|symmetry; apply Permutation_rev].
    rewrite <- (take_rows_seq (rev rows)) at 2.
    apply take_rows_perm.
    rewrite length_rev, length_map in Hp. now rewrite length_rev.
  - apply (StronglySorted_rev (fun x y => leb (key x) (key y) = true)).
    rewrite <- map_rev, <- take_rows_map in Hsorted.
    rewrite <- map_rev.
    exact (StronglySorted_map_inv (fun x y => leb x y = true) key _ Hsorted).
Qed.

(** ** Insertion sorts meet numpy's contract *)

Section InsertionSorts.
Context {A : Type} (leb : A -> A -> bool) (Hord : total_order leb).
Variable before : list A -> nat -> nat -> bool.
Variable a : list A.

#[warnings="-notation-for-abbreviation"]
Local Notation key_le := (key_le leb a).

Hypothesis before_le :
  forall i j, i < List.length a -> j < List.length a ->
              before a i j = true -> key_le i j.
Hypothesis before_total :
  forall i j, i < List.length a -> j < List.length a ->
              before a i j = false -> key_le j i.

Lemma key_le_trans i j k : key_le i j -> key_le j k -> key_le i k.
Proof.
  intros (x & y & Hx & Hy & Hxy) (y' & z & Hy' & Hz & Hyz).
  rewrite Hy in Hy'. injection Hy' as <-.
  exists x, z. repeat split; auto. exact (proj2 Hord x y z Hxy Hyz).
Qed.

Lemma insert_by_perm i l : Permutation (insert_by (before a) i l) (i :: l).
Proof.
  induction l as [|j r IH]; [reflexivity|]. cbn [insert_by].
  destruct (before a i j); [reflexivity|].
  rewrite IH. apply perm_swap.
Qed.

Lemma insert_by_sorted i l :
  i < List.length a -> Forall (fun j => j < List.length a) l ->
  StronglySorted key_le l -> StronglySorted key_le (insert_by (before a) i l).
Proof.
  intros Hi Hv Hs. induction Hs as [|j r Hr IH Hj]; cbn [insert_by].
  - repeat constructor.
  - inversion Hv as [|? ? Hjv Hrv]; subst.
    destruct (before a i j) eqn:E.
    + constructor; [now constructor|].
      pose proof (before_le i j Hi Hjv E) as Hij.
      constructor; [exact Hij|].
      eapply Forall_impl; [|exact Hj]. intros k. now apply key_le_trans.
    + constructor; [now apply IH|].
      pose proof (before_total i j Hi Hjv E) as Hji.
      apply (Permutation_Forall (Permutation_sym (insert_by_perm i r))).
      now constructor.
Qed.

Lemma argsort_by_perm : Permutation (argsort_by before a) (seq 0 (List.length a)).
Proof.
  unfold argsort_by. induction (seq 0 (List.length a)) as [|i l IH];
    [reflexivity|].
  cbn [fold_right]. rewrite insert_by_perm. now constructor.
Qed.

Lemma argsort_by_index_sorted : StronglySorted key_le (argsort_by before a).
Proof.
  unfold argsort_by.
  assert (Hv : Forall (fun j => j < List.length a) (seq 0 (List.length a))).
  { apply Forall_forall. intros j Hj. apply in_seq in Hj. lia. }
  induction (seq 0 (List.length a)) as [|i l IH]; [constructor|].
  inversion Hv as [|? ? Hi Hl]; subst. cbn [fold_right].
  apply insert_by_sorted; [exact Hi | | now apply IH].
  clear IH. induction l as [|j l IHl]; [constructor|].
  inversion Hl; subst. cbn [fold_right].
  apply (Permutation_Forall (Permutation_sym (insert_by_perm _ _))). auto.
Qed.

Lemma take_rows_key_sorted p :
  StronglySorted key_le p ->
  StronglySorted (fun x y => leb x y = true) (take_rows p a).
Proof.
  induction 1 as [|i p Hp IH Hi]; [constructor|].
  rewrite take_rows_cons. destruct (nth_error a i) as [x|] eqn:Ex; [|exact IH].
  cbn [app]. constructor; [exact IH|].
  clear -Hi Ex. induction Hi as [|j p Hj _ IH]; [constructor|].
  rewrite take_rows_cons. destruct Hj as (x' & y & Hx' & Hy & Hxy).
  rewrite Hy. cbn [app]. constructor; [|exact IH]. congruence.
Qed.

End InsertionSorts.

Lemma key_cases {A} (leb : A -> A -> bool) (a : list A) i j :
  total_order leb -> i < List.length a -> j < List.length a ->
  (key_ltb leb a i j = true -> key_le leb a i j)
  /\ (key_leb leb a i j = true -> key_le leb a i j)
  /\ (key_ltb leb a i j = false -> key_le leb a j i)
  /\ (key_leb leb a i j = false -> key_ltb leb a j i = true).
Proof.
  intros [Htot _] Hi Hj. unfold key_ltb, key_leb, key_le.
  destruct (nth_error a i) as [x|] eqn:Ex;
    [|apply nth_error_None in Ex; lia].
  destruct (nth_error a j) as [y|] eqn:Ey;
    [|apply nth_error_None in Ey; lia].
  repeat split.
  - rewrite negb_true_iff. intros H. exists x, y. repeat split; auto.
    destruct (Htot x y); congruence.
  - intros H. exists x, y. auto.
  - rewrite negb_false_iff. intros H. exists y, x. auto.
  - intros H. now rewrite H.
Qed.

(** The stable insertion sort is an admissible [argsort]. *)
Lemma argsort_stable_sorts {A} (leb : A -> A -> bool) :
  total_order leb -> sorts leb (argsort_stable leb).
Proof.
  intros Hord a. unfold argsort_stable. split.
  - apply argsort_by_perm.
  - apply (take_rows_key_sorted leb), (argsort_by_index_sorted leb Hord).
    + intros i j Hi Hj H.
      destruct (key_cases leb a i j Hord Hi Hj) as (H1 & H2 & _).
      apply orb_true_iff in H. destruct H as [H|H]; [auto|].
      apply andb_true_iff in H. tauto.
    + intros i j Hi Hj H.
      destruct (key_cases leb a i j Hord Hi Hj) as (_ & _ & H3 & _).
      apply orb_false_iff in H. tauto.
Qed.

(** ** The duplicate filter *)

(** On a table with rows the filter returns exactly the rows at or above
    the threshold, in non-increasing order of similarity. *)
Lemma duplicates_df_spec {label score} (leb : score -> score -> bool)
  (argsort : list score -> list nat)
  (report_df : list (neighbor label score)) (t : score) :
  sorts leb argsort -> report_df <> [] ->
  exists out,
    duplicates_df leb argsort report_df t = Return out
    /\ Permutation out
         (filter (fun r => leb t (similarity r)) report_df)
    /\ (forall r, In r out <-> In r report_df /\ leb t (similarity r) = true)
    /\ StronglySorted
         (fun x y => leb (similarity y) (similarity x) = true) out.
Proof.
  intros Hs Hne. destruct report_df as [|r0 rest]; [congruence|].
  eexists. split; [reflexivity|].
  destruct (sort_values_desc_spec leb argsort similarity
              (filter (fun r => leb t (similarity r)) (r0 :: rest)) Hs)
    as [Hp Hsorted].
  split; [exact Hp|]. split; [|exact Hsorted].
  intros r. split; intros H.
  - apply (Permutation_in _ Hp) in H. apply filter_In in H. exact H.
  - apply (Permutation_in _ (Permutation_sym Hp)). apply filter_In. exact H.
Qed.

Lemma Qle_bool_total_order : total_order Qle_bool.
Proof.
  split.
  - intros x y. rewrite !Qle_bool_iff.
    destruct (Qlt_le_dec x y) as [H|H]; [left; now apply Qlt_le_weak | now right].
  - intros x y z. rewrite !Qle_bool_iff. apply Qle_trans.
Qed.

(** Scenario C: similarities 0.95, 0.88, 0.99 at threshold 0.9. *)
Lemma duplicates_df_scenario_c
  (argsort : list Q -> list nat) (a b c a' b' c' : list N) :
  sorts Qle_bool argsort ->
  duplicates_df Qle_bool argsort
    [Build_neighbor a a' (95 # 100)%Q; Build_neighbor b b' (88 # 100)%Q;
     Build_neighbor c c' (99 # 100)%Q] (9 # 10)%Q
  = Return [Build_neighbor c c' (99 # 100)%Q; Build_neighbor a a' (95 # 100)%Q].
Proof.
  intros Hs.
  destruct (duplicates_df_spec Qle_bool argsort
              [Build_neighbor a a' (95 # 100)%Q; Build_neighbor b b' (88 # 100)%Q;
               Build_neighbor c c' (99 # 100)%Q] (9 # 10)%Q Hs ltac:(discriminate))
    as (out & -> & Hp & _ & Hsorted).
  f_equal. cbn in Hp. apply Permutation_sym in Hp.
  apply Permutation_length_2_inv in Hp. destruct Hp as [->| ->]; [|reflexivity].
  exfalso. inversion Hsorted as [|? ? _ H]; subst.
  inversion H as [|? ? H1 _]; subst. cbn in H1. discriminate.
Qed.

(** C9, at the failing input.  The neighbour table of a data set with a
    single rule is [pd.DataFrame([])]: no rows and no columns.  The filter
    looks up its [similarity] column and raises [KeyError], where the
    claim has it return the (empty) set of rows at or above the
    threshold. *)
Theorem duplicates_df_empty_report :
  forall (label score : Type) (leb : score -> score -> bool)
         (argsort : list score -> list nat) (t : score),
    duplicates_df (label := label) leb argsort [] t = Raise KeyError.
Proof. reflexivity. Qed.

(** ** The neighbour table *)

Lemma head_nonneg {A} (k : Z) (l : list A) :
  (0 <= k)%Z -> head k l = firstn (Z.to_nat k) l.
Proof.
  intros H. unfold head. now destruct (Z.leb_spec 0 k); [|lia].
Qed.

Lemma map_fst_combine_same {A B} (l : list A) (m : list B) :
  List.length m = List.length l -> map fst (combine l m) = l.
Proof.
  revert m. induction l as [|x l IH]; intros [|y m] H; try discriminate;
    [reflexivity|].
  cbn. f_equal. apply IH. now injection H.
Qed.

Lemma take_rows_nil {A} (p : list nat) : take_rows p (@nil A) = [].
Proof.
  induction p as [|i p IH]; [reflexivity|].
  rewrite take_rows_cons, IH. now destruct i.
Qed.

Section ReportProps.
Context {label score vec : Type}.
Variable label_eqb : label -> label -> bool.
Hypothesis label_eqb_spec : forall x y, label_eqb x y = true <-> x = y.
Variable leb : score -> score -> bool.
Variable argsort : list score -> list nat.
Variable round3 : score -> score.
Variable cosine_similarity : list vec -> list (list score).
Hypothesis Hsorts : sorts leb argsort.
Hypothesis cosine_square :
  forall E, square (List.length E) (cosine_similarity E) = true.

Lemma label_eqb_refl x : label_eqb x x = true.
Proof. now apply label_eqb_spec. Qed.

Lemma label_eqb_neq x y : x <> y -> label_eqb x y = false.
Proof.
  intros H. destruct (label_eqb x y) eqn:E; [|reflexivity].
  now apply label_eqb_spec in E.
Qed.

Lemma unique_NoDup l : NoDup l -> unique label_eqb l = true.
Proof.
  induction 1 as [|x l Hx _ IH]; [reflexivity|]. cbn [unique].
  rewrite IH, andb_true_r, negb_true_iff.
  destruct (existsb (label_eqb x) l) eqn:E; [|reflexivity].
  apply existsb_exists in E. destruct E as (y & Hy & Hxy).
  apply label_eqb_spec in Hxy. now subst.
Qed.

Lemma index_of_In x l :
  In x l -> exists i, index_of label_eqb x l = Some i /\ i < List.length l.
Proof.
  induction l as [|y l IH]; [contradiction|]. intros H. cbn [index_of].
  destruct (label_eqb y x) eqn:E.
  - exists 0. cbn. split; [reflexivity | lia].
  - destruct H as [->|H]; [now rewrite label_eqb_refl in E|].
    destruct (IH H) as (i & -> & Hi). exists (S i). cbn. split; [reflexivity|lia].
Qed.

(** The row of a rule that is in the index: one entry per column. *)
Lemma loc_row (names : list label) (sim : list (list score)) r :
  In r names -> square (List.length names) sim = true ->
  map fst (loc label_eqb names sim r) = names.
Proof.
  intros Hin Hsq. unfold loc.
  destruct (index_of_In r names Hin) as (i & -> & Hi).
  apply map_fst_combine_same.
  unfold square in Hsq. apply andb_true_iff in Hsq. destruct Hsq as [Hn Hrows].
  apply Nat.eqb_eq in Hn. rewrite forallb_forall in Hrows.
  apply Nat.eqb_eq, Hrows, nth_In. lia.
Qed.

Lemma drop_labels r (s : list (label * score)) :
  map fst (drop label_eqb r s)
  = filter (fun o => negb (label_eqb o r)) (map fst s).
Proof.
  induction s as [|[o x] s IH]; [reflexivity|]. cbn [drop filter map fst].
  destruct (label_eqb o r); cbn [negb map fst]; [exact IH|].
  f_equal. exact IH.
Qed.

Lemma others_NoDup r names :
  NoDup names ->
  NoDup (filter (fun o => negb (label_eqb o r)) names)
  /\ ~ In r (filter (fun o => negb (label_eqb o r)) names).
Proof.
  intros H. split.
  - now apply NoDup_filter.
  - intros Hin. apply filter_In in Hin. destruct Hin as [_ Hin].
    now rewrite label_eqb_refl in Hin.
Qed.

Lemma others_length r names :
  NoDup names -> In r names ->
  List.length (filter (fun o => negb (label_eqb o r)) names)
  = List.length names - 1.
Proof.
  induction 1 as [|x l Hx Hl IH]; [contradiction|]. intros Hin.
  cbn [filter List.length]. destruct (label_eqb x r) eqn:E.
  - apply label_eqb_spec in E. subst x. cbn [negb].
    replace (filter (fun o => negb (label_eqb o r)) l) with l; [lia|].
    symmetry. apply forallb_filter_id. apply forallb_forall. intros y Hy.
    rewrite label_eqb_neq; [reflexivity|]. intros ->. contradiction.
  - destruct Hin as [->|Hin]; [now rewrite label_eqb_refl in E|].
    cbn [negb List.length]. rewrite (IH Hin).
    destruct l; [contradiction | cbn [List.length]; lia].
Qed.

(** The rows of the whole table that belong to rule [r] are the rows the
    loop body appends for [r]. *)
Lemma rows_of_rule (names : list label) (sim : list (list score)) k r l :
  NoDup l -> In r l ->
  filter (fun x => label_eqb (rule x) r)
    (flat_map (neighbors_of label_eqb argsort round3 names sim k) l)
  = neighbors_of label_eqb argsort round3 names sim k r.
Proof.
  assert (Hsame : forall r',
    filter (fun x => label_eqb (rule x) r')
      (neighbors_of label_eqb argsort round3 names sim k r')
    = neighbors_of label_eqb argsort round3 names sim k r').
  { intros r'. apply forallb_filter_id. unfold neighbors_of.
    apply forallb_forall. intros x Hx. apply in_map_iff in Hx.
    destruct Hx as (e & <- & _). apply label_eqb_refl. }
  assert (Hother : forall r', r' <> r ->
    filter (fun x => label_eqb (rule x) r)
      (neighbors_of label_eqb argsort round3 names sim k r') = []).
  { intros r' Hne. unfold neighbors_of.
    induction (head k _) as [|e t IH]; [reflexivity|].
    cbn [map filter rule]. now rewrite (label_eqb_neq r' r Hne). }
  induction 1 as [|x l Hx Hl IH]; [contradiction|]. intros Hin.
  cbn [flat_map]. rewrite filter_app.
  destruct Hin as [->|Hin].
  - rewrite Hsame.
    replace (filter _ (flat_map _ l)) with (@nil (neighbor label score));
      [apply List.app_nil_r|].
    symmetry. clear IH Hl. induction l as [|y l IHl]; [reflexivity|].
    cbn [flat_map]. rewrite filter_app, Hother, IHl; [reflexivity| |].
    + intros Hy. apply Hx. now right.
    + intros ->. apply Hx. now left.
  - rewrite Hother, (IH Hin); [reflexivity|]. intros ->. contradiction.
Qed.

Lemma NoDup_firstn_of {A} (n : nat) (l : list A) :
  NoDup l -> NoDup (firstn n l).
Proof.
  intros H. rewrite <- (firstn_skipn n l) in H.
  now apply NoDup_app_remove_r in H.
Qed.

Lemma In_firstn_of {A} (n : nat) (l : list A) (x : A) :
  In x (firstn n l) -> In x l.
Proof.
  intros H. rewrite <- (firstn_skipn n l). apply in_or_app. now left.
Qed.

(** The rows appended for one rule: the other rules ranked by
    similarity, cut after [k], with the similarity rounded. *)
Lemma neighbors_of_spec (names : list label) (sim : list (list score))
  (k : Z) (r : label) :
  NoDup names -> In r names -> square (List.length names) sim = true ->
  (0 <= k)%Z ->
  exists ranked,
    Permutation ranked (drop label_eqb r (loc label_eqb names sim r))
    /\ map fst (drop label_eqb r (loc label_eqb names sim r))
       = filter (fun o => negb (label_eqb o r)) names
    /\ StronglySorted (fun x y => leb (snd y) (snd x) = true) ranked
    /\ neighbors_of label_eqb argsort round3 names sim k r
       = map (fun e => Build_neighbor r (fst e) (round3 (snd e)))
           (firstn (Z.to_nat k) ranked)
    /\ List.length ranked = List.length names - 1
    /\ NoDup (map fst ranked)
    /\ Forall (fun o => o <> r /\ In o names) (map fst ranked).
Proof.
  intros Hnd Hin Hsq Hk.
  set (others := drop label_eqb r (loc label_eqb names sim r)).
  destruct (sort_values_desc_spec leb argsort snd others Hsorts) as [Hp Hs].
  assert (Ho : map fst others = filter (fun o => negb (label_eqb o r)) names).
  { unfold others. now rewrite drop_labels, loc_row. }
  assert (Hpf : Permutation (map fst (sort_values_desc argsort snd others))
                  (filter (fun o => negb (label_eqb o r)) names)).
  { rewrite <- Ho. now apply Permutation_map. }
  exists (sort_values_desc argsort snd others).
  split; [exact Hp|]. split; [exact Ho|]. split; [exact Hs|].
  split; [unfold neighbors_of; now rewrite head_nonneg|].
  split; [|split].
  - rewrite <- (length_map fst), (Permutation_length Hpf).
    now apply others_length.
  - apply (Permutation_NoDup (Permutation_sym Hpf)).
    now apply others_NoDup.
  - apply (Permutation_Forall (Permutation_sym Hpf)).
    apply Forall_forall. intros o Ho'. apply filter_In in Ho'.
    destruct Ho' as [Hon Hor]. split; [|exact Hon].
    intros ->. now rewrite label_eqb_refl in Hor.
Qed.

End ReportProps.

Lemma cosine_unit_square (E : list (list Q)) :
  square (List.length E) (cosine_unit E) = true.
Proof.
  unfold square, cosine_unit. rewrite length_map, Nat.eqb_refl.
  apply forallb_forall. intros row Hrow. apply in_map_iff in Hrow.
  destruct Hrow as (x & <- & _). rewrite length_map. apply Nat.eqb_refl.
Qed.

Lemma str_eqb_refl x : str_eqb x x = true.
Proof. now apply str_eqb_eq. Qed.

Lemma str_eqb_neq x y : x <> y -> str_eqb x y = false.
Proof.
  intros H. destruct (str_eqb x y) eqn:E; [|reflexivity].
  now apply str_eqb_eq in E.
Qed.

Lemma lookup_set_same c vals cols :
  lookup_column c (set_column c vals cols) = Some vals.
Proof.
  induction cols as [|[c' old] cols IH]; cbn [set_column lookup_column].
  - now rewrite str_eqb_refl.
  - destruct (str_eqb c' c) eqn:E; cbn [lookup_column]; now rewrite E.
Qed.

Lemma lookup_set_other c c0 vals cols :
  c0 <> c -> lookup_column c0 (set_column c vals cols) = lookup_column c0 cols.
Proof.
  intros Hne. induction cols as [|[c' old] cols IH];
    cbn [set_column lookup_column].
  - rewrite str_eqb_neq; [reflexivity | congruence].
  - destruct (str_eqb c' c) eqn:E; cbn [lookup_column].
    + apply str_eqb_eq in E. subst c'.
      rewrite str_eqb_neq; [reflexivity | congruence].
    + now rewrite IH.
Qed.

Lemma set_column_names c vals cols :
  map fst (set_column c vals cols) = add_name c (map fst cols).
Proof.
  unfold add_name. induction cols as [|[c' old] cols IH];
    cbn [set_column map fst existsb]; [reflexivity|].
  destruct (str_eqb c' c) eqn:E; cbn [map fst orb]; [reflexivity|].
  rewrite IH. now destruct (existsb _ (map fst cols)).
Qed.

Lemma getitem_setitem_same df c vals :
  getitem (setitem_series df c vals) c = Return vals.
Proof.
  unfold getitem, setitem_series. cbn [columns]. now rewrite lookup_set_same.
Qed.

Lemma getitem_setitem_other df c c0 vals :
  c0 <> c -> getitem (setitem_series df c vals) c0 = getitem df c0.
Proof.
  intros H. unfold getitem, setitem_series. cbn [columns].
  now rewrite lookup_set_other.
Qed.

Lemma setitem_array_other df c vals df' c0 :
  setitem_array df c vals = Return df' -> c0 <> c ->
  getitem df' c0 = getitem df c0.
Proof.
  unfold setitem_array. intros H Hne.
  destruct (columns df) as [|col cols] eqn:Ec.
  - destruct (nrows df) eqn:En.
    + injection H as <-. unfold getitem. cbn [columns lookup_column].
      rewrite Ec. cbn [lookup_column].
      rewrite str_eqb_neq; [reflexivity | congruence].
    + destruct (Nat.eqb _ _); [|discriminate]. injection H as <-.
      now apply getitem_setitem_other.
  - destruct (nrows df); (destruct (Nat.eqb _ _); [|discriminate]);
      injection H as <-; now apply getitem_setitem_other.
Qed.

Lemma setitem_array_same df c vals df' :
  setitem_array df c vals = Return df' -> getitem df' c = Return vals.
Proof.
  unfold setitem_array. intros H.
  destruct (columns df) as [|col cols] eqn:Ec; destruct (nrows df) eqn:En;
    try (destruct (Nat.eqb _ _); [|discriminate]);
    injection H as <-; try apply getitem_setitem_same.
  unfold getitem. cbn [columns lookup_column]. now rewrite str_eqb_refl.
Qed.

(** When the frame has a column already, an array that is set has as
    many cells as the frame has rows, and the rows stay. *)
Lemma setitem_array_shape df c vals df' c1 vals1 :
  setitem_array df c vals = Return df' -> getitem df c1 = Return vals1 ->
  nrows df' = nrows df
  /\ map fst (columns df') = add_name c (map fst (columns df)).
Proof.
  unfold setitem_array, getitem. intros H H1.
  destruct (columns df) as [|col cols] eqn:Ec; [discriminate|].
  assert (K : (if Nat.eqb (List.length vals) (nrows df)
               then Return (setitem_series df c vals)
               else Raise ValueError) = Return df').
  { now destruct (nrows df). }
  destruct (Nat.eqb _ _); [|discriminate]. injection K as <-.
  cbn [nrows columns setitem_series]. rewrite Ec.
  split; [reflexivity | apply set_column_names].
Qed.

Lemma apply_flatten_rule_returns cells :
  exists texts, apply_cells flatten_rule cells = Return texts
                /\ List.length texts = List.length cells.
Proof.
  induction cells as [|x cells (texts & IH & Hl)].
  - exists []. split; reflexivity.
  - destruct (flatten_rule_total x) as (t & Ht).
    exists (t :: texts). cbn [apply_cells]. rewrite Ht, IH.
    split; [reflexivity | cbn; now rewrite Hl].
Qed.

(** C8 (as amended).  Each stage only sets its own columns.
    [compute_embeddings] sets [text_rule] to the canonical texts and
    [cluster_rules] sets [cluster_id] and [cluster_label]: a column of
    that name is added last when the table has none and overwritten in
    place when it has one.  Every other column keeps its cells in their
    order, also when the stage raises, and the number of rows stays as
    it was. *)
Theorem stages_annotate_only {mdl vec : Type} (L : limits)
  (loads : list N -> outcome pyval) (load_model : outcome mdl)
  (encode : mdl -> list (list N) -> outcome (list vec))
  (near : vec -> vec -> bool) (analyzer : list N -> list (list N))
  (argsort : list Z -> list nat) (df : frame) (E : list vec) :
  (let after := fst (compute_embeddings L loads load_model encode df) in
   nrows after = nrows df
   /\ (forall c, c <> u "text_rule" -> getitem after c = getitem df c)
   /\ (after = df
       \/ exists rules texts,
            getitem df (u "rule_json") = Return rules
            /\ apply_cells (flatten_rule_in L loads) rules = Return texts
            /\ map fst (columns after)
               = add_name (u "text_rule") (map fst (columns df))
            /\ getitem after (u "text_rule") = Return (map PStr texts))
   /\ (forall emb,
         snd (compute_embeddings L loads load_model encode df) = Return emb ->
         exists model rules texts,
           load_model = Return model
           /\ getitem df (u "rule_json") = Return rules
           /\ apply_cells (flatten_rule_in L loads) rules = Return texts
           /\ map fst (columns after)
              = add_name (u "text_rule") (map fst (columns df))
           /\ getitem after (u "text_rule") = Return (map PStr texts)
           /\ encode model texts = Return emb))
  /\ (let after := fst (cluster_rules near analyzer argsort df E) in
      (forall c, c <> u "cluster_id" -> c <> u "cluster_label" ->
                 getitem after c = getitem df c)
      /\ match snd (cluster_rules near analyzer argsort df E) with
         | Return cluster_labels =>
             nrows after = nrows df
             /\ map fst (columns after)
                = add_name (u "cluster_label")
                    (add_name (u "cluster_id") (map fst (columns df)))
             /\ exists labels,
                  fit_predict near E = Return labels
                  /\ getitem after (u "cluster_id") = Return (map PInt labels)
         | Raise _ => True
         end).
Proof.
  split.
  - cbv zeta. unfold compute_embeddings.
    destruct load_model as [model|e];
      [|cbn [fst snd]; repeat split; auto; discriminate].
    destruct (getitem df (u "rule_json")) as [rules|e] eqn:Er;
      [|cbn [fst snd]; repeat split; auto; discriminate].
    destruct (apply_cells (flatten_rule_in L loads) rules) as [texts|e] eqn:Et;
      [|cbn [fst snd]; repeat split; auto; discriminate].
    cbn [fst snd]. split; [reflexivity|]. split.
    + intros c Hc. now apply getitem_setitem_other.
    + split.
      * right. exists rules, texts. split; [reflexivity|].
        split; [exact Et|]. split; [apply set_column_names|].
        apply getitem_setitem_same.
      * intros emb He. exists model, rules, texts.
        split; [reflexivity|]. split; [reflexivity|]. split; [exact Et|].
        split; [apply set_column_names|].
        split; [apply getitem_setitem_same | exact He].
  - cbv zeta. unfold cluster_rules.
    destruct (fit_predict near E) as [labels|e]; [|cbn [fst snd]; auto].
    destruct (setitem_array df (u "cluster_id") (map PInt labels))
      as [df1|e] eqn:E1; [|cbn [fst snd]; auto].
    assert (H1 : forall c, c <> u "cluster_id" -> getitem df1 c = getitem df c).
    { intros c Hc. exact (setitem_array_other _ _ _ _ c E1 Hc). }
    destruct (getitem df1 (u "text_rule")) as [cells|e] eqn:E2;
      [|cbn [fst snd]; auto].
    destruct (apply_cells as_text cells) as [texts|e];
      [|cbn [fst snd]; auto].
    destruct (vocabulary analyzer texts) as [|f features];
      [cbn [fst snd]; auto|].
    cbn [fst snd]. split.
    + intros c Hc1 Hc2. rewrite getitem_setitem_other by exact Hc2. auto.
    + rewrite H1 in E2 by discriminate.
      destruct (setitem_array_shape _ _ _ _ _ _ E1 E2) as [Hn Hc].
      split; [exact Hn|]. split.
      * cbn [setitem_series columns]. now rewrite set_column_names, Hc.
      * exists labels. split; [reflexivity|].
        rewrite getitem_setitem_other by discriminate.
        exact (setitem_array_same _ _ _ _ E1).
Qed.

(** ** DBSCAN *)

Lemma set_label_length labels i c :
  List.length (set_label labels i c) = List.length labels.
Proof.
  revert i. induction labels as [|l labels IH]; intros [|i]; cbn; auto.
Qed.

Lemma get_set_same labels i c :
  i < List.length labels -> get_label (set_label labels i c) i = c.
Proof.
  revert i. induction labels as [|l labels IH]; intros [|i] H; cbn in *;
    try lia; try reflexivity. apply IH. lia.
Qed.

Lemma get_set_other labels i j c :
  j <> i -> get_label (set_label labels i c) j = get_label labels j.
Proof.
  revert i j. induction labels as [|l labels IH]; intros [|i] [|j] H; cbn;
    try reflexivity; try congruence.
  apply IH. congruence.
Qed.

Lemma unlabelled_set labels i c :
  i < List.length labels -> get_label labels i = NOISE -> c <> NOISE ->
  S (unlabelled (set_label labels i c)) = unlabelled labels.
Proof.
  unfold unlabelled.
  revert i. induction labels as [|l labels IH]; intros [|i] Hi Hg Hc;
    cbn in Hi; try lia.
  - cbn in Hg. subst l. cbn [set_label filter].
    destruct (Z.eqb_spec c NOISE); [contradiction|].
    now rewrite Z.eqb_refl.
  - cbn [set_label filter].
    specialize (IH i ltac:(lia) Hg Hc).
    destruct (l =? NOISE)%Z; cbn [List.length]; lia.
Qed.

Lemma unlabelled_le labels : unlabelled labels <= List.length labels.
Proof. apply filter_length_le. Qed.

Lemma push_unlabelled_spec labels nb stack n :
  Forall (fun j => j < n) nb -> Forall (fun j => j < n) stack ->
  Forall (fun j => j < n) (push_unlabelled labels nb stack)
  /\ List.length (push_unlabelled labels nb stack)
     <= List.length nb + List.length stack.
Proof.
  unfold push_unlabelled. revert stack.
  induction nb as [|v nb IH]; intros stack Hnb Hst; cbn [fold_left].
  - split; [exact Hst | cbn; lia].
  - inversion Hnb as [|? ? Hv Hnb']; subst.
    destruct (get_label labels v =? NOISE)%Z.
    + destruct (IH (v :: stack) Hnb' ltac:(now constructor)) as [H1 H2].
      split; [exact H1 | cbn in *; lia].
    + destruct (IH stack Hnb' Hst) as [H1 H2].
      split; [exact H1 | cbn; lia].
Qed.

Section DbscanProps.
Variable n : nat.
Variable is_core : list bool.
Variable nbrs : list (list nat).
Hypothesis nbrs_valid : forall i, Forall (fun j => j < n) (nth i nbrs []).
Hypothesis nbrs_short : forall i, List.length (nth i nbrs []) <= n.

(** The search that grows one cluster ends within its fuel; it only
    gives the new label to points without one. *)
Lemma expand_spec (label_num : Z) :
  label_num <> NOISE ->
  forall fuel labels stack i,
    List.length labels = n -> i < n -> Forall (fun j => j < n) stack ->
    S n * unlabelled labels + List.length stack < fuel ->
    exists labels',
      expand fuel is_core nbrs label_num labels stack i = Some labels'
      /\ List.length labels' = n
      /\ (forall j, get_label labels j <> NOISE ->
                    get_label labels' j = get_label labels j)
      /\ (forall j, get_label labels' j = get_label labels j
                    \/ get_label labels' j = label_num)
      /\ get_label labels' i <> NOISE.
Proof.
  intros Hnum. induction fuel as [|f IH]; intros labels stack i Hlen Hi Hst Hfuel;
    [lia|].
  cbn [expand].
  destruct (Z.eqb_spec (get_label labels i) NOISE) as [Hfresh|Hold].
  - set (labels1 := set_label labels i label_num).
    assert (Hlen1 : List.length labels1 = n).
    { unfold labels1. now rewrite set_label_length. }
    assert (HU : S (unlabelled labels1) = unlabelled labels).
    { apply unlabelled_set; [lia | exact Hfresh | exact Hnum]. }
    assert (Hi1 : get_label labels1 i = label_num).
    { apply get_set_same. lia. }
    assert (Hkeep : forall j, get_label labels j <> NOISE ->
                              get_label labels1 j = get_label labels j).
    { intros j Hj. apply get_set_other. congruence. }
    assert (Hnew : forall j, get_label labels1 j = get_label labels j
                             \/ get_label labels1 j = label_num).
    { intros j. destruct (Nat.eq_dec j i) as [->|Hne]; [now right|].
      left. now apply get_set_other. }
    clearbody labels1. cbn [andb].
    set (stack1 := if nth i is_core false
                   then push_unlabelled labels1 (nth i nbrs []) stack
                   else stack).
    assert (Hst1 : Forall (fun j => j < n) stack1
                   /\ List.length stack1 <= n + List.length stack).
    { unfold stack1. destruct (nth i is_core false).
      - destruct (push_unlabelled_spec labels1 (nth i nbrs []) stack n
                    (nbrs_valid i) Hst) as [H1 H2].
        split; [exact H1|]. pose proof (nbrs_short i). lia.
      - split; [exact Hst | lia]. }
    destruct Hst1 as [Hv1 Hl1]. clearbody stack1.
    destruct stack1 as [|j stack2].
    + exists labels1. repeat split; auto. congruence.
    + apply Forall_cons_iff in Hv1. destruct Hv1 as [Hj Hv2].
      destruct (IH labels1 stack2 j Hlen1 Hj Hv2) as (labels' & He & Hl' & Hk' & Hn' & _).
      { cbn [List.length] in Hl1. nia. }
      exists labels'. split; [exact He|]. split; [exact Hl'|].
      split; [|split].
      * intros j0 Hj0. rewrite Hk'; [now apply Hkeep|].
        rewrite Hkeep by exact Hj0. exact Hj0.
      * intros j0. destruct (Hn' j0) as [E|E]; [|now right].
        rewrite E. apply Hnew.
      * rewrite Hk'; congruence.
  - cbn [andb].
    destruct stack as [|j stack2].
    + exists labels. repeat split; auto.
    + apply Forall_cons_iff in Hst. destruct Hst as [Hj Hv2].
      destruct (IH labels stack2 j Hlen Hj Hv2) as (labels' & He & Hl' & Hk' & Hn' & _).
      { cbn [List.length] in Hfuel. lia. }
      exists labels'. repeat split; auto. now rewrite Hk'.
Qed.

Hypothesis all_core : forall i, i < n -> nth i is_core false = true.

(** The outer loop: every point it visits ends with a label, and every
    label given is a cluster number from 0 on. *)
Lemma dbscan_inner_spec :
  forall todo label_num labels,
    List.length labels = n -> Forall (fun j => j < n) todo ->
    (0 <= label_num)%Z ->
    (forall j, get_label labels j = NOISE \/ (0 <= get_label labels j)%Z) ->
    exists labels',
      dbscan_inner (S (S n * n)) is_core nbrs todo label_num labels
      = Some labels'
      /\ List.length labels' = n
      /\ (forall j, get_label labels j <> NOISE ->
                    get_label labels' j = get_label labels j)
      /\ (forall j, In j todo -> get_label labels' j <> NOISE)
      /\ (forall j, get_label labels' j = NOISE
                    \/ (0 <= get_label labels' j)%Z).
Proof.
  induction todo as [|i todo IH]; intros label_num labels Hlen Hv Hnum Hinv.
  - exists labels. cbn. repeat split; auto.
  - apply Forall_cons_iff in Hv. destruct Hv as [Hi Hv'].
    cbn [dbscan_inner].
    rewrite (all_core i Hi). cbn [negb]. rewrite orb_false_r.
    destruct (Z.eqb_spec (get_label labels i) NOISE) as [Hfresh|Hold];
      cbn [negb].
    + destruct (expand_spec label_num ltac:(unfold NOISE; lia)
                  (S (S n * n)) labels [] i Hlen Hi (Forall_nil _))
        as (labels1 & -> & Hl1 & Hk1 & Hn1 & Hi1).
      { pose proof (unlabelled_le labels). cbn [List.length]. nia. }
      destruct (IH (label_num + 1)%Z labels1 Hl1 Hv' ltac:(lia))
        as (labels' & -> & Hl' & Hk' & Ht' & Hinv').
      { intros j. destruct (Hn1 j) as [E|E]; rewrite E; [apply Hinv|].
        right. exact Hnum. }
      exists labels'. split; [reflexivity|]. split; [exact Hl'|].
      split; [|split; [|exact Hinv']].
      * intros j Hj. rewrite Hk'; [now apply Hk1|].
        rewrite Hk1 by exact Hj. exact Hj.
      * intros j [<-|Hj]; [|now apply Ht'].
        rewrite Hk'; exact Hi1.
    + destruct (IH label_num labels Hlen Hv' Hnum Hinv)
        as (labels' & -> & Hl' & Hk' & Ht' & Hinv').
      exists labels'. split; [reflexivity|]. split; [exact Hl'|].
      split; [exact Hk'|]. split; [|exact Hinv'].
      intros j [<-|Hj]; [|now apply Ht']. now rewrite Hk'.
Qed.

End DbscanProps.

(** * Further properties of the code *)

(** ** The duplicate filter of [app.py] *)

Lemma filter_length_mono {A} (p q : A -> bool) (l : list A) :
  (forall x, p x = true -> q x = true) ->
  List.length (filter p l) <= List.length (filter q l).
Proof.
  intros H. induction l as [|x l IH]; [reflexivity|]. cbn [filter].
  destruct (p x) eqn:Ep.
  - rewrite (H x Ep). cbn [List.length]. lia.
  - destruct (q x); cbn [List.length]; lia.
Qed.

(** X1.  On a neighbour table that has rows, the duplicate filter
    returns exactly the rows whose similarity is at least the threshold,
    each as often as it occurs in the table, ordered by non-increasing
    similarity. *)
Theorem duplicates_df_rows_at_or_above {label score : Type}
  (leb : score -> score -> bool) (argsort : list score -> list nat)
  (report_df : list (neighbor label score)) (t : score) :
  sorts leb argsort -> report_df <> [] ->
  exists out,
    duplicates_df leb argsort report_df t = Return out
    /\ Permutation out (filter (fun r => leb t (similarity r)) report_df)
    /\ (forall r, In r out <-> In r report_df /\ leb t (similarity r) = true)
    /\ StronglySorted
         (fun x y => leb (similarity y) (similarity x) = true) out.
Proof.
  intros Hs Hne. exact (duplicates_df_spec leb argsort report_df t Hs Hne).
Qed.

Lemma duplicates_df_rows_at_or_above_witness :
  sorts Qle_bool (argsort_stable Qle_bool)
  /\ [Build_neighbor (u "R1") (u "R2") (95 # 100)%Q;
      Build_neighbor (u "R2") (u "R1") (95 # 100)%Q;
      Build_neighbor (u "R3") (u "R1") (40 # 100)%Q] <> []
  /\ exists out,
       duplicates_df Qle_bool (argsort_stable Qle_bool)
         [Build_neighbor (u "R1") (u "R2") (95 # 100)%Q;
          Build_neighbor (u "R2") (u "R1") (95 # 100)%Q;
          Build_neighbor (u "R3") (u "R1") (40 # 100)%Q] (9 # 10)%Q
       = Return out
       /\ List.length out = 2.
Proof.
  split; [exact (argsort_stable_sorts Qle_bool Qle_bool_total_order)|].
  split; [discriminate|].
  destruct (duplicates_df_rows_at_or_above Qle_bool (argsort_stable Qle_bool)
              [Build_neighbor (u "R1") (u "R2") (95 # 100)%Q;
               Build_neighbor (u "R2") (u "R1") (95 # 100)%Q;
               Build_neighbor (u "R3") (u "R1") (40 # 100)%Q] (9 # 10)%Q
              (argsort_stable_sorts Qle_bool Qle_bool_total_order)
              ltac:(discriminate))
    as (out & Hrun & Hp & _).
  exists out. split; [exact Hrun|].
  rewrite (Permutation_length Hp). reflexivity.
Defined.

(** X2.  Raising the threshold never adds a duplicate: every row kept at
    the higher threshold is kept at the lower one, so the number of
    possible duplicates the sidebar shows can only go down. *)
Theorem duplicates_df_antitone {label score : Type}
  (leb : score -> score -> bool) (argsort : list score -> list nat)
  (report_df : list (neighbor label score)) (t t' : score) :
  sorts leb argsort -> total_order leb -> report_df <> [] ->
  leb t t' = true ->
  exists low high,
    duplicates_df leb argsort report_df t = Return low
    /\ duplicates_df leb argsort report_df t' = Return high
    /\ (forall r, In r high -> In r low)
    /\ List.length high <= List.length low.
Proof.
  intros Hs [_ Htrans] Hne Htt.
  destruct (duplicates_df_spec leb argsort report_df t Hs Hne)
    as (low & Hl & Hpl & Hil & _).
  destruct (duplicates_df_spec leb argsort report_df t' Hs Hne)
    as (high & Hh & Hph & Hih & _).
  exists low, high. split; [exact Hl|]. split; [exact Hh|]. split.
  - intros r Hr. apply Hih in Hr. destruct Hr as [Hin Hr].
    apply Hil. split; [exact Hin|]. exact (Htrans _ _ _ Htt Hr).
  - rewrite (Permutation_length Hpl), (Permutation_length Hph).
    apply filter_length_mono. intros x Hx. exact (Htrans _ _ _ Htt Hx).
Qed.

Lemma duplicates_df_antitone_witness :
  Qle_bool (5 # 10) (9 # 10) = true
  /\ exists low high,
       duplicates_df Qle_bool (argsort_stable Qle_bool)
         [Build_neighbor (u "R1") (u "R2") (95 # 100)%Q;
          Build_neighbor (u "R3") (u "R1") (60 # 100)%Q] (5 # 10)%Q
       = Return low
       /\ duplicates_df Qle_bool (argsort_stable Qle_bool)
            [Build_neighbor (u "R1") (u "R2") (95 # 100)%Q;
             Build_neighbor (u "R3") (u "R1") (60 # 100)%Q] (9 # 10)%Q
          = Return high
       /\ List.length high <= List.length low.
Proof.
  split; [reflexivity|].
  destruct (duplicates_df_antitone Qle_bool (argsort_stable Qle_bool)
              [Build_neighbor (u "R1") (u "R2") (95 # 100)%Q;
               Build_neighbor (u "R3") (u "R1") (60 # 100)%Q]
              (5 # 10)%Q (9 # 10)%Q
              (argsort_stable_sorts Qle_bool Qle_bool_total_order)
              Qle_bool_total_order ltac:(discriminate) eq_refl)
    as (low & high & H1 & H2 & _ & H4).
  exists low, high. auto.
Defined.

(** ** More on the neighbour table *)

Lemma StronglySorted_app_cross {A} (R : A -> A -> Prop) (l1 l2 : list A) :
  StronglySorted R (l1 ++ l2) ->
  forall x y, In x l1 -> In y l2 -> R x y.
Proof.
  induction l1 as [|a l1 IH]; intros H x y Hx Hy; [contradiction|].
  cbn [app] in H. inversion H as [|? ? Hs Ha]; subst.
  destruct Hx as [<-|Hx].
  - rewrite Forall_forall in Ha. apply Ha. apply in_or_app. now right.
  - now apply IH.
Qed.

Lemma flat_map_length_const {A B} (f : A -> list B) (l : list A) (m : nat) :
  (forall x, In x l -> List.length (f x) = m) ->
  List.length (flat_map f l) = List.length l * m.
Proof.
  induction l as [|x l IH]; intros H; [reflexivity|].
  cbn [flat_map List.length]. rewrite length_app, H, IH; [lia| |now left].
  intros y Hy. apply H. now right.
Qed.

Section ReportMore.
Context {label score vec : Type}.
Variable label_eqb : label -> label -> bool.
Hypothesis label_eqb_spec : forall x y, label_eqb x y = true <-> x = y.
Variable leb : score -> score -> bool.
Variable argsort : list score -> list nat.
Variable round3 : score -> score.
Variable cosine_similarity : list vec -> list (list score).
Hypothesis Hsorts : sorts leb argsort.
Hypothesis cosine_square :
  forall E, square (List.length E) (cosine_similarity E) = true.

(** The rows of one rule for any [top_k], negative ones included. *)
Lemma neighbors_of_head (names : list label) (sim : list (list score))
  (k : Z) (r : label) :
  NoDup names -> In r names -> square (List.length names) sim = true ->
  exists ranked,
    Permutation ranked (drop label_eqb r (loc label_eqb names sim r))
    /\ StronglySorted (fun x y => leb (snd y) (snd x) = true) ranked
    /\ neighbors_of label_eqb argsort round3 names sim k r
       = map (fun e => Build_neighbor r (fst e) (round3 (snd e)))
           (head k ranked)
    /\ List.length ranked = List.length names - 1.
Proof.
  intros Hnd Hin Hsq.
  destruct (neighbors_of_spec label_eqb label_eqb_spec leb argsort round3
              Hsorts names sim 0 r Hnd Hin Hsq ltac:(lia))
    as (ranked & H1 & _ & H3 & _ & H5 & _).
  set (others := drop label_eqb r (loc label_eqb names sim r)) in *.
  destruct (sort_values_desc_spec leb argsort snd others Hsorts) as [Hp Hs].
  exists (sort_values_desc argsort snd others).
  split; [exact Hp|]. split; [exact Hs|]. split; [reflexivity|].
  rewrite (Permutation_length Hp), <- (Permutation_length H1). exact H5.
Qed.

Lemma run_report (names : list label) (E : list vec) (k : Z) :
  names <> [] -> NoDup names -> List.length E = List.length names ->
  compute_similarity_report label_eqb argsort round3 cosine_similarity
    names E k
  = Return (names, cosine_similarity E,
            flat_map (neighbors_of label_eqb argsort round3 names
                        (cosine_similarity E) k) names)
  /\ square (List.length names) (cosine_similarity E) = true.
Proof.
  intros Hne Hnd Hlen.
  assert (Hsq : square (List.length names) (cosine_similarity E) = true).
  { rewrite <- Hlen. apply cosine_square. }
  split; [|exact Hsq]. unfold compute_similarity_report.
  destruct E as [|x E'].
  - destruct names; [contradiction | discriminate].
  - now rewrite Hsq, (unique_NoDup label_eqb label_eqb_spec names Hnd).
Qed.

Lemma In_not_nil {A} (x : A) (l : list A) : In x l -> l <> [].
Proof. intros H ->. contradiction. Qed.

(** X3.  The rules listed for a rule are its most similar ones: every
    other rule that is left out is at most as similar to it as every
    rule that is listed. *)
Theorem neighbors_are_the_most_similar (names : list label) (E : list vec)
  (k : Z) (r : label) :
  NoDup names -> List.length E = List.length names -> (0 <= k)%Z ->
  In r names ->
  exists sim table listed left_out,
    compute_similarity_report label_eqb argsort round3 cosine_similarity
      names E k = Return (names, sim, table)
    /\ Permutation (listed ++ left_out)
         (drop label_eqb r (loc label_eqb names sim r))
    /\ filter (fun x => label_eqb (rule x) r) table
       = map (fun e => Build_neighbor r (fst e) (round3 (snd e))) listed
    /\ forall e e', In e listed -> In e' left_out ->
                    leb (snd e') (snd e) = true.
Proof.
  intros Hnd Hlen Hk Hr.
  destruct (run_report names E k (In_not_nil _ _ Hr) Hnd Hlen) as [Hrun Hsq].
  destruct (neighbors_of_spec label_eqb label_eqb_spec leb argsort round3
              Hsorts names (cosine_similarity E) k r Hnd Hr Hsq Hk)
    as (ranked & H1 & _ & H3 & H4 & _).
  exists (cosine_similarity E). eexists.
  exists (firstn (Z.to_nat k) ranked), (skipn (Z.to_nat k) ranked).
  split; [exact Hrun|]. rewrite firstn_skipn. split; [exact H1|].
  split.
  - rewrite (rows_of_rule label_eqb label_eqb_spec argsort round3 names _ k r
               names Hnd Hr). exact H4.
  - intros e e' He He'.
    rewrite <- (firstn_skipn (Z.to_nat k) ranked) in H3.
    exact (StronglySorted_app_cross _ _ _ H3 e e' He He').
Qed.

(** X4.  For [n >= 1] rules the neighbour table has [n * min(k, n - 1)]
    rows. *)
Theorem neighbor_table_size (names : list label) (E : list vec) (k : Z) :
  names <> [] ->
  NoDup names -> List.length E = List.length names -> (0 <= k)%Z ->
  exists sim table,
    compute_similarity_report label_eqb argsort round3 cosine_similarity
      names E k = Return (names, sim, table)
    /\ List.length table
       = List.length names * Nat.min (Z.to_nat k) (List.length names - 1).
Proof.
  intros Hne Hnd Hlen Hk.
  destruct (run_report names E k Hne Hnd Hlen) as [Hrun Hsq].
  do 2 eexists. split; [exact Hrun|].
  apply flat_map_length_const. intros r Hr.
  destruct (neighbors_of_spec label_eqb label_eqb_spec leb argsort round3
              Hsorts names (cosine_similarity E) k r Hnd Hr Hsq Hk)
    as (ranked & _ & _ & _ & H4 & H5 & _).
  now rewrite H4, length_map, length_firstn, H5.
Qed.

(** X5.  A negative [top_k] is accepted: [head] then drops the [-k]
    least similar of the other rules, so each rule gets
    [n - 1 - (-k)] rows (none when that is negative), still the most
    similar ones first. *)
Theorem negative_top_k (names : list label) (E : list vec) (k : Z) (r : label) :
  NoDup names -> List.length E = List.length names -> (k < 0)%Z ->
  In r names ->
  exists sim table ranked,
    compute_similarity_report label_eqb argsort round3 cosine_similarity
      names E k = Return (names, sim, table)
    /\ Permutation ranked (drop label_eqb r (loc label_eqb names sim r))
    /\ StronglySorted (fun x y => leb (snd y) (snd x) = true) ranked
    /\ filter (fun x => label_eqb (rule x) r) table
       = map (fun e => Build_neighbor r (fst e) (round3 (snd e)))
           (firstn (List.length names - 1 - Z.to_nat (- k)) ranked)
    /\ List.length (filter (fun x => label_eqb (rule x) r) table)
       = List.length names - 1 - Z.to_nat (- k).
Proof.
  intros Hnd Hlen Hk Hr.
  destruct (run_report names E k (In_not_nil _ _ Hr) Hnd Hlen) as [Hrun Hsq].
  destruct (neighbors_of_head names (cosine_similarity E) k r Hnd Hr Hsq)
    as (ranked & H1 & H2 & H3 & H4).
  exists (cosine_similarity E). eexists. exists ranked.
  split; [exact Hrun|]. split; [exact H1|]. split; [exact H2|].
  rewrite (rows_of_rule label_eqb label_eqb_spec argsort round3 names _ k r
             names Hnd Hr), H3.
  unfold head. destruct (Z.leb_spec 0 k) as [?|_]; [lia|]. rewrite H4.
  split; [reflexivity|]. rewrite length_map, length_firstn, H4. lia.
Qed.

End ReportMore.

Lemma neighbors_are_the_most_similar_witness :
  exists sim table (listed left_out : list (list N * Q)),
    compute_similarity_report str_eqb (argsort_stable Qle_bool) round3_q
      cosine_unit [u "R1"; u "R2"; u "R3"]
      [[1; 0]; [3 # 5; 4 # 5]; [0; 1]]%Q 1
    = Return ([u "R1"; u "R2"; u "R3"], sim, table)
    /\ filter (fun x => str_eqb (rule x) (u "R1")) table
       = map (fun e => Build_neighbor (u "R1") (fst e) (round3_q (snd e)))
           listed
    /\ forall e e', In e listed -> In e' left_out ->
                    Qle_bool (snd e') (snd e) = true.
Proof.
  assert (Hnd : NoDup [u "R1"; u "R2"; u "R3"]).
  { repeat constructor; cbn; intuition discriminate. }
  destruct (neighbors_are_the_most_similar str_eqb str_eqb_eq Qle_bool
              (argsort_stable Qle_bool) round3_q cosine_unit
              (argsort_stable_sorts Qle_bool Qle_bool_total_order)
              cosine_unit_square
              [u "R1"; u "R2"; u "R3"] [[1; 0]; [3 # 5; 4 # 5]; [0; 1]]%Q 1
              (u "R1") Hnd eq_refl ltac:(lia) ltac:(now left))
    as (sim & table & listed & left_out & H1 & _ & H3 & H4).
  exists sim, table, listed, left_out. auto.
Defined.

Lemma neighbor_table_size_witness :
  exists sim table,
    compute_similarity_report str_eqb (argsort_stable Qle_bool) round3_q
      cosine_unit [u "R1"; u "R2"; u "R3"]
      [[1; 0]; [3 # 5; 4 # 5]; [0; 1]]%Q 5
    = Return ([u "R1"; u "R2"; u "R3"], sim, table)
    /\ List.length table = 6.
Proof.
  assert (Hnd : NoDup [u "R1"; u "R2"; u "R3"]).
  { repeat constructor; cbn; intuition discriminate. }
  destruct (neighbor_table_size str_eqb str_eqb_eq Qle_bool
              (argsort_stable Qle_bool) round3_q cosine_unit
              (argsort_stable_sorts Qle_bool Qle_bool_total_order)
              cosine_unit_square
              [u "R1"; u "R2"; u "R3"] [[1; 0]; [3 # 5; 4 # 5]; [0; 1]]%Q 5
              ltac:(discriminate) Hnd eq_refl ltac:(lia))
    as (sim & table & H1 & H2).
  exists sim, table. split; [exact H1|]. rewrite H2. reflexivity.
Defined.

Lemma negative_top_k_witness :
  exists sim table,
    compute_similarity_report str_eqb (argsort_stable Qle_bool) round3_q
      cosine_unit [u "R1"; u "R2"; u "R3"]
      [[1; 0]; [3 # 5; 4 # 5]; [0; 1]]%Q (-1)
    = Return ([u "R1"; u "R2"; u "R3"], sim, table)
    /\ List.length (filter (fun x => str_eqb (rule x) (u "R1")) table) = 1.
Proof.
  assert (Hnd : NoDup [u "R1"; u "R2"; u "R3"]).
  { repeat constructor; cbn; intuition discriminate. }
  destruct (negative_top_k str_eqb str_eqb_eq Qle_bool
              (argsort_stable Qle_bool) round3_q cosine_unit
              (argsort_stable_sorts Qle_bool Qle_bool_total_order)
              cosine_unit_square
              [u "R1"; u "R2"; u "R3"] [[1; 0]; [3 # 5; 4 # 5]; [0; 1]]%Q (-1)
              (u "R1") Hnd eq_refl ltac:(lia) ltac:(now left))
    as (sim & table & ranked & H1 & _ & _ & _ & H5).
  exists sim, table. split; [exact H1|]. rewrite H5. reflexivity.
Defined.

(** ** When the report raises *)

Section ReportErrors.
Context {label score vec : Type}.
Variable label_eqb : label -> label -> bool.
Hypothesis label_eqb_spec : forall x y, label_eqb x y = true <-> x = y.
Variable argsort : list score -> list nat.
Variable round3 : score -> score.
Variable cosine_similarity : list vec -> list (list score).
Hypothesis cosine_square :
  forall E, square (List.length E) (cosine_similarity E) = true.

Lemma unique_true_NoDup (l : list label) : unique label_eqb l = true -> NoDup l.
Proof.
  induction l as [|x l IH]; intros H; [constructor|].
  cbn [unique] in H. apply andb_true_iff in H. destruct H as [Hx Hl].
  constructor; [|now apply IH].
  intros Hin. apply negb_true_iff in Hx.
  assert (K : existsb (label_eqb x) l = true).
  { apply existsb_exists. exists x. split; [exact Hin|].
    now apply label_eqb_spec. }
  congruence.
Qed.

Lemma square_length (n : nat) (m : list (list score)) :
  square n m = true -> List.length m = n.
Proof.
  unfold square. intros H. apply andb_true_iff in H.
  now apply Nat.eqb_eq.
Qed.

End ReportErrors.

(** ** More on [compute_embeddings] *)

Lemma apply_cells_Forall2 {B} (f : pyval -> outcome B) cells ys :
  apply_cells f cells = Return ys ->
  Forall2 (fun x y => f x = Return y) cells ys.
Proof.
  revert ys. induction cells as [|x cells IH]; intros ys H; cbn [apply_cells] in H.
  - injection H as <-. constructor.
  - destruct (f x) as [y|e] eqn:Ex; [|discriminate].
    destruct (apply_cells f cells) as [ys'|e]; [|discriminate].
    injection H as <-. constructor; [exact Ex | now apply IH].
Qed.

Lemma set_column_twice c v w cols :
  set_column c v (set_column c w cols) = set_column c v cols.
Proof.
  induction cols as [|[c' old] cols IH]; cbn [set_column].
  - now rewrite str_eqb_refl.
  - destruct (str_eqb c' c) eqn:E; cbn [set_column]; rewrite E;
      [reflexivity | now rewrite IH].
Qed.

Lemma rectangular_set_column df c vals :
  rectangular df = true -> List.length vals = nrows df ->
  rectangular (setitem_series df c vals) = true.
Proof.
  unfold rectangular, setitem_series. cbn [nrows columns].
  intros H Hl. induction (columns df) as [|[c' old] cols IH];
    cbn [set_column forallb snd] in *.
  - rewrite Hl, Nat.eqb_refl. reflexivity.
  - apply andb_true_iff in H. destruct H as [H1 H2].
    destruct (str_eqb c' c); cbn [forallb snd].
    + now rewrite Hl, Nat.eqb_refl, H2.
    + now rewrite H1, IH.
Qed.

Lemma rectangular_getitem df c vals :
  rectangular df = true -> getitem df c = Return vals ->
  List.length vals = nrows df.
Proof.
  unfold rectangular, getitem. intros H.
  induction (columns df) as [|[c' old] cols IH]; cbn [lookup_column forallb snd] in *;
    [discriminate|].
  apply andb_true_iff in H. destruct H as [H1 H2].
  destruct (str_eqb c' c).
  - intros K. injection K as <-. now apply Nat.eqb_eq.
  - now apply IH.
Qed.

(** X8.  Running [compute_embeddings] again on the table it left behind
    gives the same table and the same result: the [rule_json] cells are
    not touched, and [text_rule] is set to the same texts in the same
    place. *)
Theorem compute_embeddings_idempotent {mdl vec : Type} (L : limits)
  (loads : list N -> outcome pyval) (load_model : outcome mdl)
  (encode : mdl -> list (list N) -> outcome (list vec)) (df : frame) :
  compute_embeddings L loads load_model encode
    (fst (compute_embeddings L loads load_model encode df))
  = compute_embeddings L loads load_model encode df.
Proof.
  unfold compute_embeddings at 2 3.
  destruct load_model as [model|e].
  - destruct (getitem df (u "rule_json")) as [rules|e] eqn:Er.
    + destruct (apply_cells (flatten_rule_in L loads) rules)
        as [texts|e] eqn:Et.
      * cbn [fst]. unfold compute_embeddings.
        rewrite getitem_setitem_other by discriminate. rewrite Er, Et.
        unfold setitem_series. cbn [nrows columns].
        now rewrite set_column_twice.
      * cbn [fst]. unfold compute_embeddings. now rewrite Er, Et.
    + cbn [fst]. unfold compute_embeddings. now rewrite Er.
  - reflexivity.
Qed.

(** ** More on the clustering *)

Lemma expand_length fuel is_core nbrs label_num :
  forall labels stack i labels',
    expand fuel is_core nbrs label_num labels stack i = Some labels' ->
    List.length labels' = List.length labels.
Proof.
  induction fuel as [|f IH]; intros labels stack i labels' H;
    cbn [expand] in H; [discriminate|].
  set (labels1 := if (get_label labels i =? NOISE)%Z
                  then set_label labels i label_num else labels) in *.
  assert (Hl : List.length labels1 = List.length labels).
  { unfold labels1. destruct (get_label labels i =? NOISE)%Z;
      [apply set_label_length | reflexivity]. }
  clearbody labels1.
  match type of H with
  | match ?s with [] => _ | _ :: _ => _ end = _ => destruct s as [|j stack2]
  end.
  - injection H as <-. exact Hl.
  - apply IH in H. congruence.
Qed.

Lemma dbscan_inner_length fuel is_core nbrs :
  forall todo label_num labels labels',
    dbscan_inner fuel is_core nbrs todo label_num labels = Some labels' ->
    List.length labels' = List.length labels.
Proof.
  induction todo as [|i todo IH]; intros label_num labels labels' H;
    cbn [dbscan_inner] in H.
  - now injection H as <-.
  - destruct (_ || _).
    + now apply IH in H.
    + destruct (expand fuel is_core nbrs label_num labels [] i)
        as [labels1|] eqn:E1; [|discriminate].
      apply IH in H. apply expand_length in E1. congruence.
Qed.

(** On a matrix with rows the clustering returns one id per row. *)
Lemma fit_predict_returns {vec} (near : vec -> vec -> bool) (X : list vec) :
  X <> [] ->
  exists labels, fit_predict near X = Return labels
                 /\ List.length labels = List.length X.
Proof.
  intros Hne. unfold fit_predict. destruct X as [|x X']; [contradiction|].
  set (X := x :: X') in *.
  destruct (dbscan_inner _ _ _ _ _ _) as [labels|] eqn:E.
  - exists labels. split; [reflexivity|].
    apply dbscan_inner_length in E. now rewrite E, repeat_length.
  - exists (repeat NOISE (List.length X)). split; [reflexivity|].
    apply repeat_length.
Qed.

Lemma neighborhoods_length {vec} (near : vec -> vec -> bool) (X : list vec) :
  List.length (neighborhoods near X) = List.length X.
Proof. unfold neighborhoods. apply length_map. Qed.

Lemma neighborhoods_valid {vec} (near : vec -> vec -> bool) (X : list vec) i :
  Forall (fun j => j < List.length X) (nth i (neighborhoods near X) [])
  /\ List.length (nth i (neighborhoods near X) []) <= List.length X.
Proof.
  destruct (Nat.lt_ge_cases i (List.length (neighborhoods near X))) as [Hi|Hi].
  - unfold neighborhoods in *. rewrite length_map in Hi.
    destruct (nth_error X i) as [x|] eqn:Ex;
      [|apply nth_error_None in Ex; lia].
    rewrite (nth_error_nth _ _ _ (map_nth_error _ _ _ Ex)). split.
    + apply Forall_forall. intros j Hj. apply filter_In in Hj.
      destruct Hj as [Hj _]. apply in_seq in Hj. lia.
    + etransitivity; [apply filter_length_le|]. now rewrite length_seq.
  - rewrite nth_overflow by exact Hi. split; [constructor | cbn; lia].
Qed.

Lemma neighborhoods_In {vec} (near : vec -> vec -> bool) (X : list vec) i j x y :
  nth_error X i = Some x -> nth_error X j = Some y ->
  In j (nth i (neighborhoods near X) []) <-> near x y = true.
Proof.
  intros Ex Ey. unfold neighborhoods.
  rewrite (nth_error_nth _ _ _ (map_nth_error _ _ _ Ex)).
  rewrite filter_In, Ey, in_seq. split; [tauto|].
  intros H. split; [|exact H].
  assert (j < List.length X) by (apply nth_error_Some; congruence). lia.
Qed.

Lemma all_core_reflexive {vec} (near : vec -> vec -> bool) (X : list vec) :
  (forall x, In x X -> near x x = true) ->
  forall i, i < List.length X ->
            nth i (core_samples (neighborhoods near X)) false = true.
Proof.
  intros Hrefl i Hi.
  destruct (nth_error X i) as [x|] eqn:Ex; [|apply nth_error_None in Ex; lia].
  assert (Hin : In i (nth i (neighborhoods near X) [])).
  { apply (neighborhoods_In near X i i x x Ex Ex). apply Hrefl.
    now apply nth_error_In in Ex. }
  unfold core_samples.
  assert (Hn : nth_error (neighborhoods near X) i
               = Some (nth i (neighborhoods near X) [])).
  { apply nth_error_nth'. now rewrite neighborhoods_length. }
  rewrite (nth_error_nth _ _ _ (map_nth_error _ _ _ Hn)).
  destruct (nth i (neighborhoods near X) []); [contradiction|reflexivity].
Qed.

(** X9.  With [min_samples = 1] no rule is left as noise.  When every
    row is within [eps] of itself, the clustering of a matrix with rows
    returns one cluster id per row and every id is non-negative. *)
Theorem fit_predict_no_noise {vec : Type} (near : vec -> vec -> bool)
  (X : list vec) :
  X <> [] -> (forall x, In x X -> near x x = true) ->
  exists labels,
    fit_predict near X = Return labels
    /\ List.length labels = List.length X
    /\ Forall (fun c => (0 <= c)%Z) labels.
Proof.
  intros Hne Hrefl. unfold fit_predict.
  destruct X as [|x0 X']; [contradiction|]. set (X := x0 :: X') in *.
  set (n := List.length X).
  destruct (dbscan_inner_spec n (core_samples (neighborhoods near X))
              (neighborhoods near X)
              (fun i => proj1 (neighborhoods_valid near X i))
              (fun i => proj2 (neighborhoods_valid near X i))
              (all_core_reflexive near X Hrefl)
              (seq 0 n) 0%Z (repeat NOISE n))
    as (labels & -> & Hl & _ & Hall & Hinv).
  - apply repeat_length.
  - apply Forall_forall. intros j Hj. apply in_seq in Hj. lia.
  - lia.
  - intros j. left. unfold get_label.
    destruct (Nat.lt_ge_cases j n) as [Hj|Hj].
    + now rewrite nth_repeat_lt.
    + rewrite nth_overflow; [reflexivity | now rewrite repeat_length].
  - exists labels. split; [reflexivity|]. split; [exact Hl|].
    apply Forall_forall. intros c Hc.
    apply (In_nth _ _ NOISE) in Hc. destruct Hc as (j & Hj & <-).
    fold (get_label labels j).
    destruct (Hinv j) as [K|K]; [|exact K].
    exfalso. apply (Hall j); [|exact K]. apply in_seq. lia.
Qed.

Lemma fit_predict_no_noise_witness :
  exists labels,
    fit_predict (fun x y : Z => (Z.abs (x - y) <=? 1)%Z) [0; 1; 5; 2]%Z
    = Return labels
    /\ List.length labels = 4
    /\ Forall (fun c => (0 <= c)%Z) labels.
Proof.
  apply fit_predict_no_noise; [discriminate|].
  intros x _. apply Z.leb_le. lia.
Defined.

(** *** Clusters are the components of the neighbourhood graph *)

Lemma push_unlabelled_In labels nb stack q :
  In q (push_unlabelled labels nb stack)
  <-> In q stack \/ (In q nb /\ get_label labels q = NOISE).
Proof.
  unfold push_unlabelled. revert stack.
  induction nb as [|v nb IH]; intros stack; cbn [fold_left].
  - cbn. tauto.
  - rewrite IH.
    destruct (Z.eqb_spec (get_label labels v) NOISE) as [E|E]; cbn [In].
    + split.
      * intros [[<-|H]|[H1 H2]]; auto.
      * intros [H|[[<-|H1] H2]]; auto.
    + split.
      * intros [H|[H1 H2]]; auto.
      * intros [H|[[<-|H1] H2]]; auto. contradiction.
Qed.

Lemma get_label_lt labels p :
  get_label labels p <> NOISE -> p < List.length labels.
Proof.
  intros H. destruct (Nat.lt_ge_cases p (List.length labels)) as [K|K];
    [exact K|].
  unfold get_label in H. now rewrite nth_overflow in H.
Qed.

Section DbscanComponents.
Variable n : nat.
Variable is_core : list bool.
Variable nbrs : list (list nat).
Hypothesis nbrs_valid : forall i, Forall (fun j => j < n) (nth i nbrs []).
Hypothesis nbrs_short : forall i, List.length (nth i nbrs []) <= n.
Hypothesis all_core : forall i, i < n -> nth i is_core false = true.
Hypothesis nbrs_sym :
  forall i j, i < n -> In j (nth i nbrs []) -> In i (nth j nbrs []).

Lemma edge_lt p q : edge nbrs p q -> q < n.
Proof.
  unfold edge. intros H. pose proof (nbrs_valid p) as K.
  rewrite Forall_forall in K. now apply K.
Qed.

(** One turn of the loop of [dbscan_inner] keeps the invariant. *)
Lemma pending_step seed L labels stack i :
  L <> NOISE -> List.length labels = n ->
  pending_inv n nbrs seed L labels (i :: stack) ->
  pending_inv n nbrs seed L
    (if (get_label labels i =? NOISE)%Z then set_label labels i L else labels)
    (if (get_label labels i =? NOISE)%Z && nth i is_core false
     then push_unlabelled
            (if (get_label labels i =? NOISE)%Z
             then set_label labels i L else labels)
            (nth i nbrs []) stack
     else stack).
Proof.
  intros HL Hlen (Hv & H3 & Hcl & Hc1 & Hc2).
  apply Forall_cons_iff in Hv. destruct Hv as [Hi Hv].
  destruct (Z.eqb_spec (get_label labels i) NOISE) as [Hf|Hf].
  - rewrite (all_core i Hi). cbn [andb].
    assert (G1 : get_label (set_label labels i L) i = L).
    { apply get_set_same. lia. }
    assert (G2 : forall j, j <> i ->
                   get_label (set_label labels i L) j = get_label labels j).
    { intros j Hj. now apply get_set_other. }
    set (labels1 := set_label labels i L) in *. clearbody labels1.
    assert (Hseed : clos_refl_sym_trans nat (edge nbrs) seed i).
    { apply Hc2. now left. }
    unfold pending_inv. split; [|split; [|split; [|split]]].
    + exact (proj1 (push_unlabelled_spec labels1 (nth i nbrs []) stack n
                      (nbrs_valid i) Hv)).
    + intros q Hq. apply push_unlabelled_In in Hq.
      destruct Hq as [Hq|[_ Hq]]; [|now left].
      destruct (Nat.eq_dec q i) as [->|Hne]; [now right|].
      rewrite (G2 q Hne). apply H3. now right.
    + intros p q Hp Hpq.
      destruct (Nat.eq_dec p i) as [->|Hpi].
      * rewrite G1.
        destruct (Z.eq_dec (get_label labels1 q) NOISE) as [Hq|Hq].
        { right. split; [reflexivity|]. apply push_unlabelled_In.
          right. split; [exact Hpq | exact Hq]. }
        left. destruct (Nat.eq_dec q i) as [->|Hqi]; [exact G1|].
        rewrite (G2 q Hqi) in *.
        assert (Hqn : q < n) by exact (edge_lt _ _ Hpq).
        destruct (Hcl q i Hq (nbrs_sym i q Hi Hpq)) as [K|[K _]];
          [congruence | exact K].
      * rewrite (G2 p Hpi) in *.
        destruct (Hcl p q Hp Hpq) as [K|[K1 [<-|K2]]].
        { left. destruct (Nat.eq_dec q i) as [->|Hqi]; [congruence|].
          now rewrite (G2 q Hqi). }
        { left. congruence. }
        { right. split; [exact K1|]. apply push_unlabelled_In. now left. }
    + intros p Hp. destruct (Nat.eq_dec p i) as [->|Hpi]; [exact Hseed|].
      apply Hc1. now rewrite <- (G2 p Hpi).
    + intros q Hq. apply push_unlabelled_In in Hq.
      destruct Hq as [Hq|[Hq _]]; [apply Hc2; now right|].
      apply rst_trans with i; [exact Hseed|]. now apply rst_step.
  - cbn [andb]. unfold pending_inv. split; [|split; [|split; [|split]]].
    + exact Hv.
    + intros q Hq. apply H3. now right.
    + intros p q Hp Hpq.
      destruct (Hcl p q Hp Hpq) as [K|[K1 [<-|K2]]]; [now left| |now right].
      left. destruct (H3 i ltac:(now left)) as [K|K]; congruence.
    + exact Hc1.
    + intros q Hq. apply Hc2. now right.
Qed.

(** When the search for cluster [L] ends, every neighbour of a labelled
    row has that row's label, and the rows labelled [L] are joined to
    the row the search started from. *)
Lemma expand_components seed L :
  L <> NOISE ->
  forall fuel labels stack i labels',
    List.length labels = n ->
    pending_inv n nbrs seed L labels (i :: stack) ->
    expand fuel is_core nbrs L labels stack i = Some labels' ->
    closed_labels nbrs labels'
    /\ (forall p, get_label labels' p = L ->
                  clos_refl_sym_trans nat (edge nbrs) seed p).
Proof.
  intros HL. induction fuel as [|f IH]; intros labels stack i labels' Hlen Hinv H;
    cbn [expand] in H; [discriminate|].
  pose proof (pending_step seed L labels stack i HL Hlen Hinv) as Hs.
  assert (Hl1 : List.length
                  (if (get_label labels i =? NOISE)%Z
                   then set_label labels i L else labels) = n).
  { destruct (get_label labels i =? NOISE)%Z;
      [now rewrite set_label_length | exact Hlen]. }
  set (labels1 := if (get_label labels i =? NOISE)%Z
                  then set_label labels i L else labels) in *.
  clearbody labels1.
  set (stack1 := if (get_label labels i =? NOISE)%Z && nth i is_core false
                 then push_unlabelled labels1 (nth i nbrs []) stack
                 else stack) in *.
  clearbody stack1. destruct stack1 as [|j stack2].
  - injection H as <-. destruct Hs as (_ & _ & Hcl & Hc1 & _). split.
    + intros p q Hp Hpq. destruct (Hcl p q Hp Hpq) as [K|[_ []]]. exact K.
    + exact Hc1.
  - exact (IH labels1 stack2 j labels' Hl1 Hs H).
Qed.

(** The outer loop from any state in which the labelled rows are whole
    components. *)
Lemma dbscan_inner_components :
  forall todo label_num labels,
    List.length labels = n -> Forall (fun j => j < n) todo ->
    (0 <= label_num)%Z ->
    (forall j, (NOISE <= get_label labels j < label_num)%Z) ->
    closed_labels nbrs labels -> same_linked nbrs labels ->
    exists labels',
      dbscan_inner (S (S n * n)) is_core nbrs todo label_num labels
      = Some labels'
      /\ List.length labels' = n
      /\ (forall j, get_label labels j <> NOISE ->
                    get_label labels' j = get_label labels j)
      /\ (forall j, In j todo -> get_label labels' j <> NOISE)
      /\ closed_labels nbrs labels' /\ same_linked nbrs labels'.
Proof.
  induction todo as [|i todo IH];
    intros label_num labels Hlen Hv Hnum Hb Hcl Hsl.
  - exists labels. cbn. repeat split; auto.
  - apply Forall_cons_iff in Hv. destruct Hv as [Hi Hv'].
    cbn [dbscan_inner].
    rewrite (all_core i Hi). cbn [negb]. rewrite orb_false_r.
    destruct (Z.eqb_spec (get_label labels i) NOISE) as [Hfresh|Hold];
      cbn [negb].
    + assert (HL : label_num <> NOISE) by (unfold NOISE; lia).
      destruct (expand_spec n is_core nbrs nbrs_valid nbrs_short label_num HL
                  (S (S n * n)) labels [] i Hlen Hi (Forall_nil _))
        as (labels1 & He & Hl1 & Hk1 & Hn1 & Hi1).
      { pose proof (unlabelled_le labels). cbn [List.length]. nia. }
      rewrite He.
      assert (Hinv : pending_inv n nbrs i label_num labels [i]).
      { unfold pending_inv. split; [|split; [|split; [|split]]].
        - now constructor.
        - intros q [<-|[]]. now left.
        - intros p q Hp Hpq. left. now apply Hcl.
        - intros p Hp. pose proof (Hb p). lia.
        - intros q [<-|[]]. apply rst_refl. }
      destruct (expand_components i label_num HL _ _ _ _ _ Hlen Hinv He)
        as [Hcl1 Hc1].
      destruct (IH (label_num + 1)%Z labels1 Hl1 Hv' ltac:(lia))
        as (labels' & -> & Hl' & Hk' & Ht' & Hcl' & Hsl').
      * intros j. destruct (Hn1 j) as [E|E]; rewrite E;
          [pose proof (Hb j) | unfold NOISE]; lia.
      * exact Hcl1.
      * intros p q Hp Hpq.
        destruct (Hn1 p) as [Ep|Ep]; destruct (Hn1 q) as [Eq|Eq].
        { apply Hsl; congruence. }
        { pose proof (Hb p). lia. }
        { pose proof (Hb q). lia. }
        { apply rst_trans with i; [apply rst_sym|]; now apply Hc1. }
      * exists labels'. split; [reflexivity|]. split; [exact Hl'|].
        split; [|split; [|split; [exact Hcl' | exact Hsl']]].
        { intros j Hj. rewrite Hk'; [now apply Hk1|].
          rewrite Hk1 by exact Hj. exact Hj. }
        { intros j [<-|Hj]; [|now apply Ht']. rewrite Hk'; exact Hi1. }
    + destruct (IH label_num labels Hlen Hv' Hnum Hb Hcl Hsl)
        as (labels' & -> & Hl' & Hk' & Ht' & Hcl' & Hsl').
      exists labels'. split; [reflexivity|]. split; [exact Hl'|].
      split; [exact Hk'|]. split; [|split; [exact Hcl' | exact Hsl']].
      intros j [<-|Hj]; [|now apply Ht']. now rewrite Hk'.
Qed.

End DbscanComponents.

Lemma edge_within {vec} (near : vec -> vec -> bool) (X : list vec) a b :
  edge (neighborhoods near X) a b <-> within near X a b.
Proof.
  unfold edge, within. split.
  - intros H.
    assert (Ha : a < List.length X).
    { destruct (Nat.lt_ge_cases a (List.length X)) as [K|K]; [exact K|].
      rewrite nth_overflow in H; [contradiction|].
      now rewrite neighborhoods_length. }
    assert (Hb : b < List.length X).
    { pose proof (proj1 (neighborhoods_valid near X a)) as K.
      rewrite Forall_forall in K. now apply K. }
    destruct (nth_error X a) as [x|] eqn:Ex;
      [|apply nth_error_None in Ex; lia].
    destruct (nth_error X b) as [y|] eqn:Ey;
      [|apply nth_error_None in Ey; lia].
    exists x, y. split; [reflexivity|]. split; [reflexivity|].
    now apply (neighborhoods_In near X a b x y Ex Ey).
  - intros (x & y & Ex & Ey & H).
    now apply (neighborhoods_In near X a b x y Ex Ey).
Qed.

(** X10.  With [min_samples = 1] the clusters are the connected
    components of the [eps]-neighbourhood graph.  When being within
    [eps] is reflexive and symmetric on the rows, two rows get the same
    cluster id exactly when a chain of rows, each within [eps] of the
    next, joins them. *)
Theorem fit_predict_components {vec : Type} (near : vec -> vec -> bool)
  (X : list vec) :
  X <> [] -> (forall x, In x X -> near x x = true) ->
  (forall x y, In x X -> In y X -> near x y = true -> near y x = true) ->
  exists labels,
    fit_predict near X = Return labels
    /\ List.length labels = List.length X
    /\ forall i j, i < List.length X -> j < List.length X ->
         (get_label labels i = get_label labels j <-> linked near X i j).
Proof.
  intros Hne Hrefl Hsym. unfold fit_predict.
  destruct X as [|x0 X']; [contradiction|]. set (X := x0 :: X') in *.
  set (n := List.length X).
  assert (Hnsym : forall i j, i < n ->
            In j (nth i (neighborhoods near X) []) ->
            In i (nth j (neighborhoods near X) [])).
  { intros i j _ H. apply (edge_within near X i j) in H.
    apply (edge_within near X j i).
    destruct H as (x & y & Ex & Ey & H). exists y, x.
    split; [exact Ey|]. split; [exact Ex|].
    apply Hsym; [now apply nth_error_In in Ex
                | now apply nth_error_In in Ey | exact H]. }
  destruct (dbscan_inner_components n (core_samples (neighborhoods near X))
              (neighborhoods near X)
              (fun i => proj1 (neighborhoods_valid near X i))
              (fun i => proj2 (neighborhoods_valid near X i))
              (all_core_reflexive near X Hrefl) Hnsym
              (seq 0 n) 0%Z (repeat NOISE n))
    as (labels & -> & Hl & _ & Hall & Hcl & Hsl).
  - apply repeat_length.
  - apply Forall_forall. intros j Hj. apply in_seq in Hj. lia.
  - lia.
  - intros j. assert (E : get_label (repeat NOISE n) j = NOISE).
    { unfold get_label. destruct (Nat.lt_ge_cases j n) as [Hj|Hj].
      - now rewrite nth_repeat_lt.
      - rewrite nth_overflow; [reflexivity | now rewrite repeat_length]. }
    rewrite E. unfold NOISE. lia.
  - intros p q Hp _. exfalso. apply Hp. unfold get_label.
    destruct (Nat.lt_ge_cases p n) as [Hj|Hj].
    + now rewrite nth_repeat_lt.
    + rewrite nth_overflow; [reflexivity | now rewrite repeat_length].
  - intros p q Hp _. exfalso. apply Hp. unfold get_label.
    destruct (Nat.lt_ge_cases p n) as [Hj|Hj].
    + now rewrite nth_repeat_lt.
    + rewrite nth_overflow; [reflexivity | now rewrite repeat_length].
  - exists labels. split; [reflexivity|]. split; [exact Hl|].
    assert (Hlab : forall j, j < n -> get_label labels j <> NOISE).
    { intros j Hj. apply Hall. apply in_seq. lia. }
    intros i j Hi Hj. split.
    + intros E. specialize (Hsl i j (Hlab i Hi) E).
      clear - Hsl. unfold linked.
      induction Hsl as [a b H| |a b _ IH|a b c _ IH1 _ IH2].
      * apply rst_step. now apply edge_within.
      * apply rst_refl.
      * now apply rst_sym.
      * now apply rst_trans with b.
    + intros H. unfold linked in H.
      assert (K : (i < n <-> j < n)
                  /\ (i < n -> get_label labels i = get_label labels j)).
      { clear Hi Hj.
        induction H as [a b H| |a b _ IH|a b c _ IH1 _ IH2].
        - assert (Ha : a < n).
          { destruct H as (x & y & Ex & _).
            apply nth_error_Some. fold X. congruence. }
          assert (Hb : b < n).
          { destruct H as (x & y & _ & Ey & _).
            apply nth_error_Some. fold X. congruence. }
          split; [tauto|]. intros _. symmetry.
          apply Hcl; [now apply Hlab | now apply edge_within].
        - split; [tauto | reflexivity].
        - destruct IH as [I1 I2]. split; [tauto|].
          intros K. symmetry. apply I2. tauto.
        - destruct IH1 as [I1 I1']. destruct IH2 as [I2 I2'].
          split; [tauto|]. intros K. etransitivity; [now apply I1'|].
          apply I2'. tauto. }
      now apply K.
Qed.

Lemma fit_predict_components_witness :
  exists labels,
    fit_predict (fun x y : Z => (Z.abs (x - y) <=? 1)%Z) [0; 1; 5; 2]%Z
    = Return labels
    /\ List.length labels = 4
    /\ forall i j, i < 4 -> j < 4 ->
         (get_label labels i = get_label labels j
          <-> linked (fun x y : Z => (Z.abs (x - y) <=? 1)%Z)
                [0; 1; 5; 2]%Z i j).
Proof.
  apply (fit_predict_components (fun x y : Z => (Z.abs (x - y) <=? 1)%Z)
           [0; 1; 5; 2]%Z).
  - discriminate.
  - intros x _. apply Z.leb_le. lia.
  - intros x y _ _ H. apply Z.leb_le in H. apply Z.leb_le. lia.
Defined.

(** ** The cluster labels *)

Lemma insert_id_In c l x : In x (insert_id c l) <-> x = c \/ In x l.
Proof.
  induction l as [|h r IH]; cbn [insert_id].
  - cbn. intuition.
  - destruct (Z.eqb_spec c h) as [->|Hne].
    + cbn [In]. intuition.
    + destruct (c <? h)%Z; cbn [In]; [intuition|].
      rewrite IH. intuition.
Qed.

Lemma insert_id_sorted c l :
  StronglySorted Z.lt l -> StronglySorted Z.lt (insert_id c l).
Proof.
  induction 1 as [|h r Hr IH Hh]; cbn [insert_id]; [repeat constructor|].
  destruct (Z.eqb_spec c h) as [->|Hne]; [now constructor|].
  destruct (Z.ltb_spec c h) as [Hlt|Hge].
  - constructor; [now constructor|]. constructor; [exact Hlt|].
    rewrite Forall_forall in *. intros x Hx. specialize (Hh x Hx). lia.
  - constructor; [exact IH|]. apply Forall_forall. intros x Hx.
    apply insert_id_In in Hx. destruct Hx as [->|Hx]; [lia|].
    rewrite Forall_forall in Hh. now apply Hh.
Qed.

Lemma sorted_ids_In ids x : In x (sorted_ids ids) <-> In x ids.
Proof.
  unfold sorted_ids. induction ids as [|c ids IH]; cbn [fold_right In];
    [tauto|].
  rewrite insert_id_In, IH. intuition.
Qed.

Lemma sorted_ids_sorted ids : StronglySorted Z.lt (sorted_ids ids).
Proof.
  unfold sorted_ids. induction ids as [|c ids IH]; cbn [fold_right];
    [constructor | now apply insert_id_sorted].
Qed.

Lemma lookup_label_map (f : Z -> list N) (ids : list Z) (c : Z) :
  In c ids -> lookup_label c (map (fun cid => (cid, f cid)) ids) = Some (f c).
Proof.
  induction ids as [|h ids IH]; intros H; [contradiction|].
  cbn [map lookup_label]. destruct (Z.eqb_spec h c) as [->|Hne];
    [reflexivity|].
  destruct H as [H|H]; [contradiction|]. now apply IH.
Qed.

Lemma apply_cells_length {B} (f : pyval -> outcome B) cells ys :
  apply_cells f cells = Return ys -> List.length ys = List.length cells.
Proof.
  intros H. apply apply_cells_Forall2 in H.
  symmetry. exact (Forall2_length H).
Qed.

Section ClusterProps.
Context {vec : Type}.
Variable near : vec -> vec -> bool.
Variable analyzer : list N -> list (list N).
Variable argsort : list Z -> list nat.

(** What a call of [cluster_rules] that returns has gone through. *)
Lemma cluster_rules_inv (df : frame) (E : list vec) df' cl :
  cluster_rules near analyzer argsort df E = (df', Return cl) ->
  exists labels df1 cells texts,
    fit_predict near E = Return labels
    /\ setitem_array df (u "cluster_id") (map PInt labels) = Return df1
    /\ getitem df1 (u "text_rule") = Return cells
    /\ apply_cells as_text cells = Return texts
    /\ vocabulary analyzer texts <> []
    /\ cl = map (fun cid =>
                   (cid, top_tokens analyzer argsort
                           (vocabulary analyzer texts) labels texts cid))
              (sorted_ids labels)
    /\ df' = setitem_series df1 (u "cluster_label")
               (map (fun cid => match lookup_label cid cl with
                                | Some l => PStr l
                                | None => PFloat PyFloat.nan
                                end) labels).
Proof.
  unfold cluster_rules. intros H.
  destruct (fit_predict near E) as [labels|e] eqn:E0; [|discriminate].
  destruct (setitem_array df (u "cluster_id") (map PInt labels))
    as [df1|e] eqn:E1; [|discriminate].
  destruct (getitem df1 (u "text_rule")) as [cells|e] eqn:E2; [|discriminate].
  destruct (apply_cells as_text cells) as [texts|e] eqn:E3; [|discriminate].
  destruct (vocabulary analyzer texts) as [|f features] eqn:Ev;
    [discriminate|].
  injection H as <- <-.
  exists labels, df1, cells, texts. rewrite Ev.
  split; [reflexivity|]. split; [exact E1|]. split; [exact E2|].
  split; [exact E3|]. split; [discriminate|].
  split; reflexivity.
Qed.

(** X11.  The dictionary of cluster labels that [cluster_rules] returns
    has one entry per cluster id that occurs among the rows, and no
    other; the entries stand in strictly ascending order of the id. *)
Theorem cluster_labels_keys (df : frame) (E : list vec) df' cl :
  cluster_rules near analyzer argsort df E = (df', Return cl) ->
  exists labels,
    fit_predict near E = Return labels
    /\ StronglySorted Z.lt (map fst cl)
    /\ forall c, In c (map fst cl) <-> In c labels.
Proof.
  intros H. apply cluster_rules_inv in H.
  destruct H as (labels & df1 & cells & texts & H1 & _ & _ & _ & _ & -> & _).
  exists labels. split; [exact H1|].
  rewrite map_map. cbn [fst]. rewrite map_id.
  split; [apply sorted_ids_sorted | apply sorted_ids_In].
Qed.

(** X12.  In the table [cluster_rules] returns the [cluster_id] column
    holds the ids the clustering gave, one per row, and every row has
    its cluster's label: the [cluster_label] cell of a row is the text
    the dictionary holds for the row's [cluster_id], never a missing
    value. *)
Theorem cluster_label_column (df : frame) (E : list vec) df' cl :
  cluster_rules near analyzer argsort df E = (df', Return cl) ->
  exists labels,
    fit_predict near E = Return labels
    /\ getitem df' (u "cluster_id") = Return (map PInt labels)
    /\ exists texts,
         getitem df' (u "cluster_label") = Return (map PStr texts)
         /\ Forall2 (fun c l => lookup_label c cl = Some l) labels texts.
Proof.
  intros H. apply cluster_rules_inv in H.
  destruct H as (labels & df1 & cells & texts & H1 & H2 & _ & _ & _ & Hcl & ->).
  exists labels. split; [exact H1|]. split.
  - rewrite getitem_setitem_other by discriminate.
    exact (setitem_array_same _ _ _ _ H2).
  - set (f := fun cid => top_tokens analyzer argsort
                           (vocabulary analyzer texts) labels texts cid) in *.
    exists (map f labels). rewrite getitem_setitem_same. split.
    + f_equal. rewrite map_map. apply map_ext_in. intros c Hc.
      rewrite Hcl, (lookup_label_map f); [reflexivity|].
      now apply sorted_ids_In.
    + rewrite Hcl. clear.
      assert (K : forall l, incl l labels ->
                Forall2 (fun c t => lookup_label c
                           (map (fun cid => (cid, f cid)) (sorted_ids labels))
                         = Some t) l (map f l)).
      { induction l as [|c l IH]; intros Hl; cbn [map]; constructor.
        - apply lookup_label_map. apply sorted_ids_In. apply Hl. now left.
        - apply IH. intros x Hx. apply Hl. now right. }
      apply K. apply incl_refl.
Qed.

End ClusterProps.

Lemma cluster_labels_keys_witness :
  exists labels,
    fit_predict (fun x y : Z => (Z.abs (x - y) <=? 1)%Z) [0; 1; 5]%Z
    = Return labels
    /\ StronglySorted Z.lt
         (map fst [(0%Z, u "age, country, income"); (1%Z, u "brazil, 500, 21")])
    /\ forall c,
         In c (map fst [(0%Z, u "age, country, income");
                        (1%Z, u "brazil, 500, 21")])
         <-> In c labels.
Proof.
  apply (cluster_labels_keys (fun x y : Z => (Z.abs (x - y) <=? 1)%Z)
           (ascii_analyzer []) (argsort_stable Z.leb)
           {| nrows := 3;
              columns := [(u "rulename",
                           [PStr (u "R1"); PStr (u "R2"); PStr (u "R3")]);
                          (u "text_rule",
                           [PStr (u "age age age country country income");
                            PStr (u "age country");
                            PStr (u "brazil brazil brazil 500 500 21")])] |}
           [0; 1; 5]%Z
           (fst (cluster_rules (fun x y : Z => (Z.abs (x - y) <=? 1)%Z)
                   (ascii_analyzer []) (argsort_stable Z.leb)
                   {| nrows := 3;
                      columns := [(u "rulename",
                                   [PStr (u "R1"); PStr (u "R2");
                                    PStr (u "R3")]);
                                  (u "text_rule",
                                   [PStr (u "age age age country country income");
                                    PStr (u "age country");
                                    PStr (u "brazil brazil brazil 500 500 21")])] |}
                   [0; 1; 5]%Z))).
  vm_compute. reflexivity.
Defined.

Lemma cluster_label_column_witness :
  exists labels,
    fit_predict (fun x y : Z => (Z.abs (x - y) <=? 1)%Z) [0; 5]%Z
    = Return labels
    /\ getitem
      (fst (cluster_rules (fun x y : Z => (Z.abs (x - y) <=? 1)%Z)
              (ascii_analyzer []) (argsort_stable Z.leb)
              {| nrows := 2;
                 columns := [(u "text_rule",
                              [PStr (u "age age age country country income");
                               PStr (u "brazil brazil brazil 500 500 21")])] |}
              [0; 5]%Z))
      (u "cluster_id") = Return (map PInt labels)
    /\ exists texts,
         getitem
           (fst (cluster_rules (fun x y : Z => (Z.abs (x - y) <=? 1)%Z)
                   (ascii_analyzer []) (argsort_stable Z.leb)
                   {| nrows := 2;
                      columns := [(u "text_rule",
                                   [PStr (u "age age age country country income");
                                    PStr (u "brazil brazil brazil 500 500 21")])] |}
                   [0; 5]%Z))
           (u "cluster_label") = Return (map PStr texts)
         /\ Forall2
              (fun c l =>
                 lookup_label c [(0%Z, u "age, country, income");
                                 (1%Z, u "brazil, 500, 21")] = Some l)
              labels texts.
Proof.
  apply (cluster_label_column (fun x y : Z => (Z.abs (x - y) <=? 1)%Z)
           (ascii_analyzer []) (argsort_stable Z.leb)
           {| nrows := 2;
              columns := [(u "text_rule",
                           [PStr (u "age age age country country income");
                            PStr (u "brazil brazil brazil 500 500 21")])] |}
           [0; 5]%Z).
  vm_compute. reflexivity.
Defined.

(** ** The top tokens of a cluster *)

Lemma take_rows_firstn {A} (k : nat) (p : list nat) (l : list A) :
  Forall (fun i => i < List.length l) p ->
  take_rows (firstn k p) l = firstn k (take_rows p l).
Proof.
  revert k. induction p as [|i p IH]; intros k Hp.
  - now destruct k.
  - apply Forall_cons_iff in Hp. destruct Hp as [Hi Hp].
    destruct k as [|k]; [reflexivity|]. cbn [firstn].
    rewrite !take_rows_cons.
    destruct (nth_error l i) as [x|] eqn:Ex;
      [|apply nth_error_None in Ex; lia].
    cbn [app firstn]. now rewrite IH.
Qed.

Lemma map_snd_combine_same {A B} (l : list A) (m : list B) :
  List.length l = List.length m -> map snd (combine l m) = m.
Proof.
  revert m. induction l as [|x l IH]; intros [|y m] H; cbn in *;
    try discriminate; [reflexivity|].
  f_equal. apply IH. lia.
Qed.

Lemma as_text_cells cells texts :
  apply_cells as_text cells = Return texts -> cells = map PStr texts.
Proof.
  intros H. apply apply_cells_Forall2 in H.
  induction H as [|x t cells texts Hx _ IH]; [reflexivity|].
  cbn [map]. rewrite <- IH. f_equal.
  destruct x; cbn [as_text] in Hx; try discriminate. now injection Hx as <-.
Qed.

Lemma cluster_texts_nonempty labels texts c :
  List.length texts = List.length labels -> In c labels ->
  cluster_texts labels texts c <> [].
Proof.
  unfold cluster_texts. revert texts.
  induction labels as [|h labels IH]; intros [|t texts] Hl Hc; cbn in Hl;
    try discriminate; [contradiction|].
  cbn [combine filter fst]. destruct (Z.eqb_spec h c) as [->|Hne].
  - cbn [map]. discriminate.
  - destruct Hc as [Hc|Hc]; [contradiction|]. apply IH; [lia | exact Hc].
Qed.

Section TopTokens.
Context {vec : Type}.
Variable near : vec -> vec -> bool.
Variable analyzer : list N -> list (list N).
Variable argsort : list Z -> list nat.
Hypothesis Hsorts : sorts Z.leb argsort.

(** The label of a cluster with members: the first three of the
    vocabulary terms ranked by non-increasing count in the members'
    texts. *)
Lemma top_tokens_ranked (features : list (list N)) (labels : list Z)
  (texts : list (list N)) (cid : Z) :
  cluster_texts labels texts cid <> [] ->
  exists ranked,
    Permutation ranked
      (combine features
         (term_counts analyzer features (cluster_texts labels texts cid)))
    /\ StronglySorted (fun x y => (snd y <= snd x)%Z) ranked
    /\ top_tokens analyzer argsort features labels texts cid
       = join (u ", ") (map fst (firstn 3 ranked)).
Proof.
  intros Hne. unfold top_tokens.
  destruct (cluster_texts labels texts cid) as [|t ts]; [contradiction|].
  set (subset := t :: ts). set (counts := term_counts analyzer features subset).
  assert (Hlen : List.length features = List.length counts).
  { unfold counts, term_counts. now rewrite length_map. }
  destruct (Hsorts counts) as [Hperm Hsorted].
  set (p := argsort counts) in *.
  assert (Hvalid : Forall (fun i => i < List.length features) (rev p)).
  { apply Forall_forall. intros i Hi. apply in_rev in Hi.
    apply (Permutation_in _ Hperm) in Hi. apply in_seq in Hi. lia. }
  exists (take_rows (rev p) (combine features counts)).
  split; [|split].
  - transitivity (take_rows (seq 0 (List.length (combine features counts)))
                    (combine features counts)).
    + apply take_rows_perm. rewrite length_combine, <- Hlen, Nat.min_id, Hlen.
      etransitivity; [apply Permutation_sym, Permutation_rev | exact Hperm].
    + now rewrite take_rows_seq.
  - apply (StronglySorted_map_inv (fun x y => (y <= x)%Z) snd).
    rewrite take_rows_map, (map_snd_combine_same _ _ Hlen), take_rows_rev.
    apply (StronglySorted_rev (fun x y => (x <= y)%Z)).
    revert Hsorted. apply StronglySorted_ind.
    + constructor.
    + intros a l _ IH Ha. constructor; [exact IH|].
      rewrite Forall_forall in *. intros x Hx. apply Z.leb_le. now apply Ha.
  - unfold top_indices. fold subset. fold counts. fold p. f_equal.
    rewrite (take_rows_firstn 3 (rev p) features Hvalid), <- firstn_map.
    f_equal. rewrite take_rows_map. f_equal. symmetry.
    now apply map_fst_combine_same.
Qed.

(** X13.  Every label in the dictionary is made of the top three
    vocabulary terms of its cluster.  When [cluster_rules] returns on a
    table whose columns all have one cell per row, each cluster id of the
    dictionary has at least one member row, and its label is the first
    three, joined by [", "], of the terms of the whole vocabulary ranked
    by non-increasing count in the texts of the member rows. *)
Theorem cluster_label_top_tokens (df : frame) (E : list vec) df' cl c l :
  rectangular df = true ->
  cluster_rules near analyzer argsort df E = (df', Return cl) ->
  In (c, l) cl ->
  exists labels texts ranked,
    fit_predict near E = Return labels
    /\ getitem df (u "text_rule") = Return (map PStr texts)
    /\ cluster_texts labels texts c <> []
    /\ Permutation ranked
         (combine (vocabulary analyzer texts)
            (term_counts analyzer (vocabulary analyzer texts)
               (cluster_texts labels texts c)))
    /\ StronglySorted (fun x y => (snd y <= snd x)%Z) ranked
    /\ l = join (u ", ") (map fst (firstn 3 ranked)).
Proof.
  intros Hrect H Hin. apply cluster_rules_inv in H.
  destruct H as (labels & df1 & cells & texts & H1 & H2 & H3 & H4 & _ & -> & _).
  apply in_map_iff in Hin. destruct Hin as (c' & Hc & Hc').
  injection Hc as -> <-. apply (proj1 (sorted_ids_In _ _)) in Hc'.
  rewrite (setitem_array_other _ _ _ _ (u "text_rule") H2) in H3
    by discriminate.
  pose proof (as_text_cells _ _ H4) as ->.
  assert (Hlen : List.length texts = List.length labels).
  { pose proof (rectangular_getitem _ _ _ Hrect H3) as K.
    rewrite length_map in K.
    unfold setitem_array in H2.
    destruct (columns df) as [|col cols] eqn:Ec.
    - unfold getitem in H3. rewrite Ec in H3. discriminate.
    - assert (K2 : Nat.eqb (List.length (map PInt labels)) (nrows df) = true).
      { destruct (nrows df);
          destruct (Nat.eqb (List.length (map PInt labels)) _);
          try reflexivity; discriminate. }
      apply Nat.eqb_eq in K2. rewrite length_map in K2. congruence. }
  pose proof (cluster_texts_nonempty labels texts c Hlen Hc') as Hne.
  destruct (top_tokens_ranked (vocabulary analyzer texts) labels texts c Hne)
    as (ranked & P1 & P2 & P3).
  exists labels, texts, ranked.
  split; [exact H1|]. split; [exact H3|]. split; [exact Hne|].
  split; [exact P1|]. split; [exact P2 | exact P3].
Qed.

End TopTokens.

Lemma Zleb_total_order : total_order Z.leb.
Proof.
  split.
  - intros x y. destruct (Z.leb_spec x y) as [H|H]; [now left|].
    right. apply Z.leb_le. lia.
  - intros x y z H1 H2. apply Z.leb_le in H1, H2. apply Z.leb_le. lia.
Qed.

Lemma cluster_label_top_tokens_witness :
  exists labels texts ranked,
    fit_predict (fun x y : Z => (Z.abs (x - y) <=? 1)%Z) [0; 5]%Z
    = Return labels
    /\ getitem {| nrows := 2;
                  columns := [(u "text_rule",
                               [PStr (u "age age age country country income");
                                PStr (u "brazil brazil brazil 500 500 21")])] |}
         (u "text_rule") = Return (map PStr texts)
    /\ cluster_texts labels texts 1%Z <> []
    /\ Permutation ranked
         (combine (vocabulary (ascii_analyzer []) texts)
            (term_counts (ascii_analyzer [])
               (vocabulary (ascii_analyzer []) texts)
               (cluster_texts labels texts 1%Z)))
    /\ StronglySorted (fun x y => (snd y <= snd x)%Z) ranked
    /\ u "brazil, 500, 21" = join (u ", ") (map fst (firstn 3 ranked)).
Proof.
  apply (cluster_label_top_tokens (fun x y : Z => (Z.abs (x - y) <=? 1)%Z)
           (ascii_analyzer []) (argsort_stable Z.leb)
           (argsort_stable_sorts Z.leb Zleb_total_order)
           {| nrows := 2;
              columns := [(u "text_rule",
                           [PStr (u "age age age country country income");
                            PStr (u "brazil brazil brazil 500 500 21")])] |}
           [0; 5]%Z
           (fst (cluster_rules (fun x y : Z => (Z.abs (x - y) <=? 1)%Z)
                   (ascii_analyzer []) (argsort_stable Z.leb)
                   {| nrows := 2;
                      columns := [(u "text_rule",
                                   [PStr (u "age age age country country income");
                                    PStr (u "brazil brazil brazil 500 500 21")])] |}
                   [0; 5]%Z))
           [(0%Z, u "age, country, income"); (1%Z, u "brazil, 500, 21")]).
  - reflexivity.
  - vm_compute. reflexivity.
  - right. left. reflexivity.
Defined.

(** ** The shape of the table, and what a failing stage leaves behind *)

Lemma rectangular_setitem_array df c vals df1 :
  rectangular df = true -> setitem_array df c vals = Return df1 ->
  rectangular df1 = true /\ List.length vals = nrows df1.
Proof.
  intros Hr H. unfold setitem_array in H.
  assert (K : (columns df = [] /\ nrows df = 0
               /\ df1 = {| nrows := List.length vals; columns := [(c, vals)] |})
              \/ (List.length vals = nrows df
                  /\ df1 = setitem_series df c vals)).
  { destruct (columns df) as [|col cols]; destruct (nrows df) as [|k] eqn:En.
    - left. injection H as <-. auto.
    - right. destruct (Nat.eqb_spec (List.length vals) (S k)); [|discriminate].
      injection H as <-. auto.
    - right. destruct (Nat.eqb_spec (List.length vals) 0); [|discriminate].
      injection H as <-. auto.
    - right. destruct (Nat.eqb_spec (List.length vals) (S k)); [|discriminate].
      injection H as <-. auto. }
  destruct K as [(_ & _ & ->)|(Hl & ->)].
  - split; [|reflexivity]. unfold rectangular. cbn [columns nrows forallb snd].
    now rewrite Nat.eqb_refl.
  - split; [now apply rectangular_set_column | exact Hl].
Qed.

(** X14.  Both stages keep the table rectangular: when every column of
    the table has one cell per row before [compute_embeddings] or
    [cluster_rules] is called, so it has afterwards, whether the call
    returns or raises. *)
Theorem stages_keep_table_rectangular {mdl vec : Type} (L : limits)
  (loads : list N -> outcome pyval) (load_model : outcome mdl)
  (encode : mdl -> list (list N) -> outcome (list vec))
  (near : vec -> vec -> bool)
  (analyzer : list N -> list (list N)) (argsort : list Z -> list nat)
  (df : frame) (E : list vec) :
  rectangular df = true ->
  rectangular (fst (compute_embeddings L loads load_model encode df)) = true
  /\ rectangular (fst (cluster_rules near analyzer argsort df E)) = true.
Proof.
  intros Hr. split.
  - unfold compute_embeddings.
    destruct load_model as [model|e]; [|exact Hr].
    destruct (getitem df (u "rule_json")) as [rules|e] eqn:Er; [|exact Hr].
    destruct (apply_cells (flatten_rule_in L loads) rules)
      as [texts|e] eqn:Et; [|exact Hr].
    cbn [fst]. apply rectangular_set_column; [exact Hr|].
    rewrite length_map, (apply_cells_length _ _ _ Et).
    exact (rectangular_getitem _ _ _ Hr Er).
  - unfold cluster_rules.
    destruct (fit_predict near E) as [labels|e]; [|exact Hr].
    destruct (setitem_array df (u "cluster_id") (map PInt labels))
      as [df1|e] eqn:E1; [|exact Hr].
    destruct (rectangular_setitem_array _ _ _ _ Hr E1) as [Hr1 Hl1].
    destruct (getitem df1 (u "text_rule")) as [cells|e]; [|exact Hr1].
    destruct (apply_cells as_text cells) as [texts|e]; [|exact Hr1].
    destruct (vocabulary analyzer texts) as [|f features]; [exact Hr1|].
    cbn [fst]. apply rectangular_set_column; [exact Hr1|].
    rewrite length_map. now rewrite length_map in Hl1.
Qed.

Lemma stages_keep_table_rectangular_witness :
  rectangular
    (fst (compute_embeddings cpython_311 Json.loads (Return tt)
            (fun _ texts => Return (map (fun _ => tt) texts))
            {| nrows := 2;
               columns := [(u "rulename", [PStr (u "R1"); PStr (u "R2")]);
                           (u "rule_json",
                            [PDict [(u "age", PStr (u ">18"))];
                             PStr (u "[1, 2]")])] |})) = true
  /\ rectangular
       (fst (cluster_rules (fun _ _ : unit => true) (ascii_analyzer [])
               (argsort_stable Z.leb)
               {| nrows := 2;
                  columns := [(u "rulename", [PStr (u "R1"); PStr (u "R2")]);
                              (u "rule_json",
                               [PDict [(u "age", PStr (u ">18"))];
                                PStr (u "[1, 2]")])] |}
               [tt; tt])) = true.
Proof.
  apply (stages_keep_table_rectangular cpython_311 Json.loads (Return tt)
           (fun _ texts => Return (map (fun _ => tt) texts))
           (fun _ _ : unit => true) (ascii_analyzer []) (argsort_stable Z.leb)
           {| nrows := 2;
              columns := [(u "rulename", [PStr (u "R1"); PStr (u "R2")]);
                          (u "rule_json",
                           [PDict [(u "age", PStr (u ">18"))];
                            PStr (u "[1, 2]")])] |}
           [tt; tt]).
  reflexivity.
Defined.

(** X15.  A failing [cluster_rules] can leave its mark.  When the table
    has no [text_rule] column ([compute_embeddings] has not run on it)
    and there is one embedding row per table row, the call raises
    [KeyError] after it has written the [cluster_id] column: the
    caller's table is changed although the call failed. *)
Theorem cluster_rules_partial_update {vec : Type} (near : vec -> vec -> bool)
  (analyzer : list N -> list (list N)) (argsort : list Z -> list nat)
  (df : frame) (E : list vec) :
  E <> [] -> List.length E = nrows df ->
  getitem df (u "text_rule") = Raise KeyError ->
  exists labels,
    fit_predict near E = Return labels
    /\ cluster_rules near analyzer argsort df E
       = (setitem_series df (u "cluster_id") (map PInt labels),
          Raise KeyError)
    /\ getitem (fst (cluster_rules near analyzer argsort df E))
         (u "cluster_id") = Return (map PInt labels).
Proof.
  intros Hne Hl Ht. unfold cluster_rules.
  destruct (fit_predict_returns near E Hne) as (labels & -> & Hlen).
  exists labels. split; [reflexivity|].
  assert (E1 : setitem_array df (u "cluster_id") (map PInt labels)
               = Return (setitem_series df (u "cluster_id")
                           (map PInt labels))).
  { unfold setitem_array. rewrite length_map, Hlen, Hl, Nat.eqb_refl.
    destruct E as [|x E']; [contradiction|]. cbn [List.length] in Hl.
    rewrite <- Hl. now destruct (columns df). }
  rewrite E1.
  rewrite getitem_setitem_other by discriminate. rewrite Ht. cbn [fst].
  split; [reflexivity | apply getitem_setitem_same].
Qed.

Lemma cluster_rules_partial_update_witness :
  exists labels,
    fit_predict (fun x y : Z => (Z.abs (x - y) <=? 1)%Z) [0; 5]%Z
    = Return labels
    /\ cluster_rules (fun x y : Z => (Z.abs (x - y) <=? 1)%Z)
         (ascii_analyzer []) (argsort_stable Z.leb)
         {| nrows := 2;
            columns := [(u "rulename", [PStr (u "R1"); PStr (u "R2")])] |}
         [0; 5]%Z
       = (setitem_series
            {| nrows := 2;
               columns := [(u "rulename", [PStr (u "R1"); PStr (u "R2")])] |}
            (u "cluster_id") (map PInt labels),
          Raise KeyError)
    /\ getitem
         (fst (cluster_rules (fun x y : Z => (Z.abs (x - y) <=? 1)%Z)
                 (ascii_analyzer []) (argsort_stable Z.leb)
                 {| nrows := 2;
                    columns := [(u "rulename",
                                 [PStr (u "R1"); PStr (u "R2")])] |}
                 [0; 5]%Z))
         (u "cluster_id") = Return (map PInt labels).
Proof.
  apply (cluster_rules_partial_update
           (fun x y : Z => (Z.abs (x - y) <=? 1)%Z)
           (ascii_analyzer []) (argsort_stable Z.leb)
           {| nrows := 2;
              columns := [(u "rulename", [PStr (u "R1"); PStr (u "R2")])] |}
           [0; 5]%Z).
  - discriminate.
  - reflexivity.
  - reflexivity.
Defined.

(** * The neighbour table on binary64 scores *)

(** ** The order of floats and [round(x, 3)] *)

Lemma float_leb_total_order : total_order PyFloat.leb.
Proof.
  split.
  - intros x y.
    destruct x as [|[|]|?|? ? ?], y as [|[|]|?|? ? ?]; cbn [PyFloat.leb];
      auto; rewrite !Z.leb_le; lia.
  - intros x y z.
    destruct x as [|[|]|?|? ? ?], y as [|[|]|?|? ? ?], z as [|[|]|?|? ? ?];
      cbn [PyFloat.leb]; intros H1 H2; try reflexivity; try discriminate;
      rewrite ?Z.leb_le in *; lia.
Qed.

Lemma rhe_bounds n d :
  (0 < d)%Z -> (0 <= n)%Z ->
  (n / d <= PyFloat.rhe n d <= n / d + 1)%Z
  /\ (2 * Z.abs (n - PyFloat.rhe n d * d) <= d)%Z.
Proof.
  intros Hd Hn. unfold PyFloat.rhe.
  pose proof (Z.div_mod n d ltac:(lia)) as E.
  pose proof (Z.mod_pos_bound n d Hd) as B.
  set (q := (n / d)%Z) in *. set (r := (n mod d)%Z) in *.
  destruct (Z.ltb_spec d (2 * r)); cbn [orb].
  - split; [lia|]. nia.
  - destruct (Z.eqb_spec d (2 * r)); cbn [andb].
    + destruct (Z.odd q); split; try lia; nia.
    + split; [lia|]. nia.
Qed.

Lemma rhe_mono n1 n2 d :
  (0 < d)%Z -> (0 <= n1 <= n2)%Z ->
  (PyFloat.rhe n1 d <= PyFloat.rhe n2 d)%Z.
Proof.
  intros Hd Hn.
  destruct (rhe_bounds n1 d Hd ltac:(lia)) as [[L1 U1] _].
  destruct (rhe_bounds n2 d Hd ltac:(lia)) as [[L2 U2] _].
  assert (Hq : (n1 / d <= n2 / d)%Z) by (apply Z.div_le_mono; lia).
  destruct (Z.eq_dec (n1 / d) (n2 / d)) as [E|E]; [|lia].
  unfold PyFloat.rhe. rewrite <- E.
  pose proof (Z.div_mod n1 d ltac:(lia)) as E1.
  pose proof (Z.div_mod n2 d ltac:(lia)) as E2. rewrite <- E in E2.
  assert (Hr : (n1 mod d <= n2 mod d)%Z) by lia.
  set (q := (n1 / d)%Z) in *.
  set (r1 := (n1 mod d)%Z) in *. set (r2 := (n2 mod d)%Z) in *.
  destruct (Z.ltb_spec d (2 * r1)); cbn [orb].
  - destruct (Z.ltb_spec d (2 * r2)); cbn [orb]; lia.
  - destruct (Z.eqb_spec d (2 * r1)); cbn [andb].
    + destruct (Z.odd q) eqn:Eo.
      * destruct (Z.ltb_spec d (2 * r2)); cbn [orb]; [lia|].
        destruct (Z.eqb_spec d (2 * r2)); cbn [andb]; lia.
      * destruct ((d <? 2 * r2)%Z || _); lia.
    + destruct ((d <? 2 * r2)%Z || _); lia.
Qed.

Lemma rhe_le n d k :
  (0 < d)%Z -> (0 <= n <= k * d)%Z -> (0 <= PyFloat.rhe n d <= k)%Z.
Proof.
  intros Hd Hn.
  destruct (rhe_bounds n d Hd ltac:(lia)) as [[L U] _].
  assert (0 <= n / d)%Z by (apply Z.div_pos; lia).
  split; [lia|].
  assert (Hq : (n / d <= k)%Z).
  { apply Z.div_le_upper_bound; lia. }
  destruct (Z.eq_dec (n / d) k) as [E|E]; [|lia].
  unfold PyFloat.rhe.
  pose proof (Z.div_mod n d ltac:(lia)) as E1.
  pose proof (Z.mod_pos_bound n d Hd) as B.
  assert (Hr : (n mod d = 0)%Z).
  { rewrite E in E1. nia. }
  rewrite Hr, E.
  destruct (Z.ltb_spec d (2 * 0)); [lia|].
  destruct (Z.eqb_spec d (2 * 0)); [lia|]. cbn. lia.
Qed.

(** The floats [z / 1000] for [0 <= z <= 2000], through their values:
    they are finite or zero, they grow with [z], and the sign only
    changes the sign. *)
Lemma thousandths_table :
  forallb (fun z =>
             PyFloat.is_finite (PyFloat.thousandths false z)
             && PyFloat.is_finite (PyFloat.thousandths true z)
             && PyFloat.small (PyFloat.thousandths false z)
             && PyFloat.small (PyFloat.thousandths true z)
             && (PyFloat.scaled (PyFloat.thousandths true z)
                 =? - PyFloat.thousandth_value z)%Z
             && (0 <=? PyFloat.thousandth_value z)%Z
             && (PyFloat.thousandth_value z <=? PyFloat.thousandth_value (z + 1))%Z)
          (map Z.of_nat (seq 0 2001)) = true.
Proof. vm_compute. reflexivity. Qed.

Lemma thousandths_facts z :
  (0 <= z <= 2000)%Z ->
  PyFloat.is_finite (PyFloat.thousandths false z) = true
  /\ PyFloat.is_finite (PyFloat.thousandths true z) = true
  /\ PyFloat.small (PyFloat.thousandths false z) = true
  /\ PyFloat.small (PyFloat.thousandths true z) = true
  /\ PyFloat.scaled (PyFloat.thousandths true z) = (- PyFloat.thousandth_value z)%Z
  /\ (0 <= PyFloat.thousandth_value z)%Z
  /\ (PyFloat.thousandth_value z <= PyFloat.thousandth_value (z + 1))%Z.
Proof.
  intros Hz. pose proof thousandths_table as T.
  rewrite forallb_forall in T.
  specialize (T z). rewrite in_map_iff in T.
  assert (K : exists n, Z.of_nat n = z /\ In n (seq 0 2001)).
  { exists (Z.to_nat z). split; [lia|]. apply in_seq. lia. }
  specialize (T K).
  repeat (apply andb_true_iff in T; destruct T as [T ?]).
  repeat split; try assumption; try (apply Z.leb_le; assumption).
  now apply Z.eqb_eq.
Qed.

Lemma thousandth_value_mono z1 z2 :
  (0 <= z1 <= z2)%Z -> (z2 <= 2000)%Z ->
  (PyFloat.thousandth_value z1 <= PyFloat.thousandth_value z2)%Z.
Proof.
  intros H1 H2.
  replace z2 with (z1 + Z.of_nat (Z.to_nat (z2 - z1)))%Z by lia.
  assert (Hk : (z1 + Z.of_nat (Z.to_nat (z2 - z1)) <= 2000)%Z) by lia.
  revert Hk. generalize (Z.to_nat (z2 - z1)) as k.
  induction k as [|k IH]; intros Hk.
  - rewrite Z.add_0_r. lia.
  - etransitivity; [apply IH; lia|].
    replace (z1 + Z.of_nat (S k))%Z with (z1 + Z.of_nat k + 1)%Z by lia.
    apply (thousandths_facts (z1 + Z.of_nat k)). lia.
Qed.

Lemma pow2_pos k : (0 < 2 ^ k)%Z \/ (k < 0)%Z.
Proof.
  destruct (Z.ltb_spec k 0); [now right|]. left.
  apply Z.pow_pos_nonneg; lia.
Qed.

(** What [round(x, 3)] is on a value of at most 2 in absolute value:
    [z / 1000] for the integer [z] nearest to [1000 * |x|], with the
    sign of [x]. *)
Lemma round3_small neg m e :
  PyFloat.small (PyFloat.finite neg m e) = true ->
  exists z,
    PyFloat.round3 (PyFloat.finite neg m e) = PyFloat.thousandths neg z
    /\ z = PyFloat.rhe (Z.pos m * 2 ^ (e + 1074) * 1000) (2 ^ 1074)
    /\ (0 <= z <= 2000)%Z
    /\ (2 * Z.abs (1000 * (Z.pos m * 2 ^ (e + 1074)) - z * 2 ^ 1074)
        <= 2 ^ 1074)%Z.
Proof.
  intros Hs. cbn [PyFloat.small] in Hs. apply Z.leb_le in Hs.
  eexists. split; [reflexivity|]. split; [reflexivity|].
  assert (HD : (0 < 2 ^ 1074)%Z) by (apply Z.pow_pos_nonneg; lia).
  assert (Hn : (0 <= Z.pos m * 2 ^ (e + 1074))%Z).
  { destruct (pow2_pos (e + 1074)) as [K|K]; [lia|].
    rewrite (Z.pow_neg_r 2 _ K). lia. }
  split.
  - apply rhe_le; [exact HD | lia].
  - destruct (rhe_bounds (Z.pos m * 2 ^ (e + 1074) * 1000) (2 ^ 1074) HD
                ltac:(lia)) as [_ K].
    replace (1000 * (Z.pos m * 2 ^ (e + 1074)))%Z
      with (Z.pos m * 2 ^ (e + 1074) * 1000)%Z by lia.
    exact K.
Qed.

Lemma leb_finite x y :
  PyFloat.is_finite x = true -> PyFloat.is_finite y = true ->
  PyFloat.leb x y = (PyFloat.scaled x <=? PyFloat.scaled y)%Z.
Proof.
  destruct x as [|[|]|?|? ? ?], y as [|[|]|?|? ? ?]; cbn [PyFloat.is_finite];
    intros; try discriminate; reflexivity.
Qed.

Lemma small_finite x : PyFloat.small x = true -> PyFloat.is_finite x = true.
Proof. destruct x as [|[|]|?|? ? ?]; cbn; intros; congruence. Qed.

(** The value of [round(x, 3)] in terms of the rounded thousandths. *)
Lemma round3_value x :
  PyFloat.small x = true ->
  PyFloat.is_finite (PyFloat.round3 x) = true
  /\ PyFloat.small (PyFloat.round3 x) = true
  /\ exists z, (0 <= z <= 2000)%Z
       /\ PyFloat.scaled (PyFloat.round3 x)
          = ((if (PyFloat.scaled x <? 0)%Z then -1 else 1)
             * PyFloat.thousandth_value z)%Z
       /\ z = PyFloat.rhe (Z.abs (PyFloat.scaled x) * 1000) (2 ^ 1074).
Proof.
  intros Hs. destruct x as [|[|]|b|neg m e]; try discriminate.
  - cbn [PyFloat.round3 PyFloat.is_finite PyFloat.small PyFloat.scaled].
    split; [reflexivity|]. split; [reflexivity|].
    exists 0%Z. split; [lia|]. split; vm_compute; reflexivity.
  - destruct (round3_small neg m e Hs) as (z & -> & Ez & Hz & _).
    destruct (thousandths_facts z Hz) as (F1 & F2 & S1 & S2 & N & P & _).
    set (n := (Z.pos m * 2 ^ (e + 1074))%Z) in *.
    assert (Hn : (0 <= n)%Z).
    { unfold n. destruct (pow2_pos (e + 1074)) as [K|K]; [lia|].
      rewrite (Z.pow_neg_r 2 _ K). lia. }
    assert (Hz0 : n = 0%Z -> PyFloat.thousandth_value z = 0%Z).
    { intros E0. rewrite Ez, E0. vm_compute. reflexivity. }
    assert (Ea : forall s : Z, (s = 1 \/ s = -1)%Z ->
                   z = PyFloat.rhe (Z.abs (s * n) * 1000) (2 ^ 1074)).
    { intros s Hs'. rewrite Ez. f_equal. f_equal. lia. }
    destruct neg.
    + split; [exact F2|]. split; [exact S2|]. exists z.
      split; [exact Hz|]. cbn [PyFloat.scaled]. fold n.
      split; [|apply Ea; now right]. rewrite N.
      destruct (Z.ltb_spec (-1 * n) 0); [lia|].
      rewrite Hz0 by lia. lia.
    + split; [exact F1|]. split; [exact S1|]. exists z.
      split; [exact Hz|]. cbn [PyFloat.scaled]. fold n.
      split; [|apply Ea; now left].
      destruct (Z.ltb_spec (1 * n) 0); [lia|].
      unfold PyFloat.thousandth_value. lia.
Qed.

(** [round(x, 3)] keeps the order of values of at most 2 in absolute
    value. *)
Lemma round3_monotone x y :
  PyFloat.small x = true -> PyFloat.small y = true ->
  PyFloat.leb x y = true ->
  PyFloat.leb (PyFloat.round3 x) (PyFloat.round3 y) = true.
Proof.
  intros Hx Hy Hxy.
  rewrite (leb_finite x y (small_finite x Hx) (small_finite y Hy)) in Hxy.
  apply Z.leb_le in Hxy.
  destruct (round3_value x Hx) as (Fx & _ & zx & Bx & Ex & Zx).
  destruct (round3_value y Hy) as (Fy & _ & zy & By & Ey & Zy).
  rewrite (leb_finite _ _ Fx Fy). apply Z.leb_le. rewrite Ex, Ey.
  destruct (thousandths_facts zx Bx) as (_ & _ & _ & _ & _ & Px & _).
  destruct (thousandths_facts zy By) as (_ & _ & _ & _ & _ & Py & _).
  assert (HD : (0 < 2 ^ 1074)%Z) by (apply Z.pow_pos_nonneg; lia).
  destruct (Z.ltb_spec (PyFloat.scaled x) 0) as [Nx|Nx];
    destruct (Z.ltb_spec (PyFloat.scaled y) 0) as [Ny|Ny]; try lia.
  - assert (K : (PyFloat.thousandth_value zy <= PyFloat.thousandth_value zx)%Z).
    { apply thousandth_value_mono; [|lia]. split; [lia|].
      rewrite Zx, Zy. apply rhe_mono; [exact HD | lia]. }
    lia.
  - assert (K : (PyFloat.thousandth_value zx <= PyFloat.thousandth_value zy)%Z).
    { apply thousandth_value_mono; [|lia]. split; [lia|].
      rewrite Zx, Zy. apply rhe_mono; [exact HD | lia]. }
    lia.
Qed.
